(** * Verification of the evolution loop of the Specialist-Agent Scaffold System

    A shallow embedding of [src/agent_utils.py], [src/evolution/evaluation.py]
    and [src/evolution/evolution_loop.py], and the properties of the
    natural-language specification stated over it.

    Conventions of the embedding.
    - A Python [str] is a [string]; each [ascii] stands for one code point in
      the range 0..255.  The regular-expression layer works on [list ascii].
    - [sys.path] is a list, [sys.modules] and the file system are finite maps.
    - Everything outside the repository (the code run by a loaded agent, the
      language-model collaborator, numpy's random generator) is a function on
      an explicit world state, taken as a section variable.
    - A Python float that is a ratio of two counters is a rational of [Q];
      [math.exp] is the exponential of [R]. *)

From Stdlib Require Import Ascii String List ZArith QArith Reals Lra Lia.
From Stdlib Require Import DecimalString Decimal DecimalNat Sorted.
From stdpp Require Import base option list strings gmap.

Local Open Scope string_scope.
Local Open Scope list_scope.

(** ** Text: the functions of the [str] type and of [re] that the code calls *)

Module Text.

(** [\s] of a [str] pattern and the characters [str.strip()] removes: the
    white space of Unicode, here the code points below 256. *)
Definition is_space (c : ascii) : bool :=
  let n := nat_of_ascii c in
  ((9 <=? n)%nat && (n <=? 13)%nat) || ((28 <=? n)%nat && (n <=? 32)%nat)
  || (n =? 133)%nat || (n =? 160)%nat.

(** [[0-9]] *)
Definition is_digit (c : ascii) : bool :=
  let n := nat_of_ascii c in (48 <=? n)%nat && (n <=? 57)%nat.

(** [[0-9,.]] *)
Definition is_num_char (c : ascii) : bool :=
  is_digit c || Ascii.eqb c "," || Ascii.eqb c ".".

(** The longest prefix of characters that satisfy [p], and what follows it:
    a greedy [[...]*]. *)
Fixpoint span (p : ascii -> bool) (s : list ascii) : list ascii * list ascii :=
  match s with
  | c :: s' =>
      if p c then let '(a, b) := span p s' in (c :: a, b) else ([], s)
  | [] => ([], [])
  end.

(** [s.startswith(pre)]: the rest of [s] after [pre]. *)
Fixpoint strip_prefix (pre s : list ascii) : option (list ascii) :=
  match pre, s with
  | [], _ => Some s
  | p :: pre', c :: s' =>
      if Ascii.eqb p c then strip_prefix pre' s' else None
  | _ :: _, [] => None
  end.

(** A pattern tried at the start of a text: the captured group and the
    number of characters the whole match covers. *)
Definition matcher := list ascii -> option (list ascii * nat).

(** [re.findall(pattern, s)] for a pattern with one group that never matches
    the empty string: the text is scanned from the left, a match is recorded
    and the scan resumes behind it, a failure moves one character on.
    [skip] counts the characters of the current match still to pass. *)
Fixpoint findall_from (m : matcher) (skip : nat) (s : list ascii)
  : list (list ascii) :=
  match s with
  | [] => []
  | _ :: s' =>
      match skip with
      | S k => findall_from m k s'
      | O =>
          match m s with
          | Some (g, len) => g :: findall_from m (Nat.pred len) s'
          | None => findall_from m 0 s'
          end
      end
  end.

Definition findall (m : matcher) (s : list ascii) : list (list ascii) :=
  findall_from m 0 s.

(** A matcher no two matches of which overlap: inside a match no other one
    starts. *)
Definition non_overlapping (m : matcher) : Prop :=
  forall s g len j,
    m s = Some (g, len) -> 0 < j < len -> m (drop j s) = None.

(** [s.replace(",", "")] *)
Definition remove_commas (s : list ascii) : list ascii :=
  List.filter (fun c => negb (Ascii.eqb c ",")) s.

(** [s.lstrip()], [s.rstrip()] and [s.strip()] for a set of characters *)
Fixpoint lstrip (p : ascii -> bool) (s : list ascii) : list ascii :=
  match s with
  | c :: s' => if p c then lstrip p s' else s
  | [] => []
  end.

Definition rstrip (p : ascii -> bool) (s : list ascii) : list ascii :=
  rev (lstrip p (rev s)).

Definition strip (s : list ascii) : list ascii :=
  rstrip is_space (lstrip is_space s).

Definition is_period (c : ascii) : bool := Ascii.eqb c ".".

(** The characters of a normalized answer: digits and periods. *)
Definition is_plain (c : ascii) : bool := is_digit c || is_period c.

(** [\w] of a [str] pattern: the alphanumeric characters and the underscore. *)
Definition is_word (c : ascii) : bool :=
  let n := nat_of_ascii c in
  is_digit c
  || ((65 <=? n)%nat && (n <=? 90)%nat) || (n =? 95)%nat
  || ((97 <=? n)%nat && (n <=? 122)%nat)
  || (n =? 170)%nat || (n =? 178)%nat || (n =? 179)%nat || (n =? 181)%nat
  || (n =? 185)%nat || (n =? 186)%nat
  || ((188 <=? n)%nat && (n <=? 190)%nat)
  || ((192 <=? n)%nat && (n <=? 214)%nat)
  || ((216 <=? n)%nat && (n <=? 246)%nat)
  || ((248 <=? n)%nat && (n <=? 255)%nat).

(** Lower case of the letters A-Z; under [re.IGNORECASE] a letter of the
    pattern matches a character with the same lower case. *)
Definition to_lower (c : ascii) : ascii :=
  let n := nat_of_ascii c in
  if ((65 <=? n)%nat && (n <=? 90)%nat)%bool then ascii_of_nat (n + 32) else c.

(** A literal of the pattern (given in lower case) at the start of [s],
    compared without case: the characters of [s] it covers and the rest. *)
Fixpoint strip_prefix_ci (pre s : list ascii)
  : option (list ascii * list ascii) :=
  match pre, s with
  | [], _ => Some ([], s)
  | p :: pre', c :: s' =>
      if Ascii.eqb p (to_lower c) then
        match strip_prefix_ci pre' s' with
        | Some (got, rest) => Some (c :: got, rest)
        | None => None
        end
      else None
  | _ :: _, [] => None
  end.

Definition chars (s : string) : list ascii := list_ascii_of_string s.

Definition squote : ascii := ascii_of_nat 39.
Definition dquote : ascii := ascii_of_nat 34.

End Text.

(** ** [agent_utils.py]: answer normalization and the model policy check *)

Module AgentUtils.
Import Text.

(** [####\s*([0-9,.]+)] at the start of [s] *)
Definition match_marker : matcher := fun s =>
  match strip_prefix (chars "####") s with
  | Some r =>
      let '(ws, r1) := span is_space r in
      let '(g, _) := span is_num_char r1 in
      match g with
      | [] => None
      | _ :: _ => Some (g, 4 + length ws + length g)
      end
  | None => None
  end.

(** [([0-9,.]+)] at the start of [s] *)
Definition match_number : matcher := fun s =>
  let '(g, _) := span is_num_char s in
  match g with
  | [] => None
  | _ :: _ => Some (g, length g)
  end.

(** [m.replace(",", "").strip()] followed by [.rstrip(".")] *)
Definition normalize_match (m : list ascii) : list ascii :=
  let number_str := strip (remove_commas m) in
  rstrip is_period number_str.

Definition extract_final_answer_chars (text : list ascii) : list ascii :=
  match last (findall match_marker text) with
  | Some m => normalize_match m
  | None =>
      match last (findall match_number text) with
      | Some m => normalize_match m
      | None => []
      end
  end.

Definition extract_final_answer (text : string) : string :=
  string_of_list_ascii (extract_final_answer_chars (chars text)).

(** The class of the two quote characters, single (39) and double (34) *)
Definition is_quote (c : ascii) : bool :=
  Ascii.eqb c squote || Ascii.eqb c dquote.

(** [[\w.-]] *)
Definition is_model_char (c : ascii) : bool :=
  is_word c || Ascii.eqb c "." || Ascii.eqb c "-".

(** [(gpt-|claude-|gemini-)] without case: the three alternatives in the
    order of the pattern. *)
Definition match_vendor (s : list ascii) : option (list ascii * list ascii) :=
  match strip_prefix_ci (chars "gpt-") s with
  | Some r => Some r
  | None =>
      match strip_prefix_ci (chars "claude-") s with
      | Some r => Some r
      | None => strip_prefix_ci (chars "gemini-") s
      end
  end.

(** The pattern of [validate_agent_model_usage] at the start of [s]:
    [model\s*=\s*Q(gpt-[\w.-]+|claude-[\w.-]+|gemini-[\w.-]+)Q] with [Q] the
    class of the two quote characters, under [re.IGNORECASE | re.VERBOSE]
    (the white space of the pattern itself is not part of it). *)
Definition match_model : matcher := fun s =>
  match strip_prefix_ci (chars "model") s with
  | Some (kw, r) =>
      let '(ws1, r1) := span is_space r in
      match r1 with
      | eq :: r2 =>
          if Ascii.eqb eq "=" then
            let '(ws2, r3) := span is_space r2 in
            match r3 with
            | q1 :: r4 =>
                if is_quote q1 then
                  match match_vendor r4 with
                  | Some (vendor, r5) =>
                      let '(body, r6) := span is_model_char r5 in
                      match body, r6 with
                      | _ :: _, q2 :: _ =>
                          if is_quote q2 then
                            Some (vendor ++ body,
                                  length kw + length ws1 + 1 + length ws2 + 1
                                  + length vendor + length body + 1)
                          else None
                      | _, _ => None
                      end
                  | None => None
                  end
                else None
            | [] => None
            end
          else None
      | [] => None
      end
  | None => None
  end.

Definition validate_agent_model_usage (code_string allowed_model : string)
  : bool :=
  let found_models := findall match_model (chars code_string) in
  match found_models with
  | [] => true
  | _ :: _ =>
      forallb
        (fun model =>
           if decide (strip model = strip (chars allowed_model))
           then true else false)
        found_models
  end.

(** *** Notions used to state the properties of the policy check *)

(** What the pattern of the code matches at the start of a text, said
    without the matcher: the letters [model] in any case, [=] with optional
    white space around it, and between two quote characters, which need not
    be of the same kind, a literal made of a vendor prefix in any case and
    at least one more character of a model name.  The number is the length
    of the match. *)
Inductive model_declaration : list ascii -> list ascii -> nat -> Prop :=
| model_declaration_intro kw ws1 ws2 q1 vendor body q2 rest :
    map to_lower kw = chars "model" ->
    Forall (fun c => is_space c = true) ws1 ->
    Forall (fun c => is_space c = true) ws2 ->
    is_quote q1 = true ->
    map to_lower vendor ∈ [chars "gpt-"; chars "claude-"; chars "gemini-"] ->
    body <> [] ->
    Forall (fun c => is_model_char c = true) body ->
    is_quote q2 = true ->
    model_declaration
      (kw ++ ws1 ++ "="%char :: ws2 ++ q1 :: vendor ++ body ++ q2 :: rest)
      (vendor ++ body)
      (length kw + length ws1 + 1 + length ws2 + 1
       + length vendor + length body + 1).

(** The pattern of the code matches somewhere in the text, with the group
    [literal].  Nothing is asked of what stands before the match: the
    letters [model] may end a longer name such as [meta_model].  The notion
    of the specification is [PolicySpec.spec_declared_literals]. *)
Definition declares_model (text literal : list ascii) : Prop :=
  exists pre s len, text = pre ++ s /\ model_declaration s literal len.

(** Classes of characters used to show that two matches of the pattern do
    not overlap: what a match has before its [=] (letters of the key and
    white space), what cannot start a match, and what is not [=]. *)
Definition in_head (c : ascii) : bool :=
  is_space c || existsb (Ascii.eqb (to_lower c)) (chars "model").

Definition not_m (c : ascii) : bool := negb (Ascii.eqb "m" (to_lower c)).

Definition not_eq (c : ascii) : bool := negb (Ascii.eqb c "=").

(** A literal between double quotes. *)
Definition quoted (literal : string) : string :=
  String dquote (literal +:+ String dquote "").

End AgentUtils.

(** ** The data of the harness and of the loop, and the world outside *)

Module Model.

(** A sample of a dataset split: the dictionary with the keys [question]
    and [answer]. *)
Record Sample := { question : string; answer : string }.

(** What a call of [run_agent] does: it returns (the text of) its answer, or
    raises an [Exception], given here by its formatted traceback. *)
Inductive Outcome :=
| Returned (agent_answer_raw : string)
| Raised (traceback : string).

(** The dictionaries [find_failures_on_train] builds. *)
Record Example := {
  ex_question : string;
  ex_correct_answer : string;
  ex_agent_output : string }.

(** An entry of the archive. *)
Record Agent := {
  id : string;
  path : string;
  score : Q;
  children_count : nat;
  parent_id : option string }.

Record DgmParams := {
  num_parents_to_select_k : nat;
  sigmoid_lambda : R;
  sigmoid_alpha0 : R;
  max_failures_per_child : Z;
  num_successes_to_send : Z }.

(** The arguments of a call of [call_developer_agent]. *)
Record DevRequest := {
  previous_code : string;
  success_examples : list Example;
  failed_examples : list Example;
  current_version_id : string;
  req_task_model : string;
  req_meta_model : string }.

Section World.
Context {Ext : Type}.

(** The state the code shares with its surroundings: the files it reads and
    writes, [sys.path], [sys.modules] (a module object is named by a
    reference; [next_ref] is the next one to allocate) and, in [ext], the
    state of everything else (the language models, the random generator). *)
Record World := {
  files : gmap string string;
  sys_path : list string;
  sys_modules : gmap string nat;
  next_ref : nat;
  ext : Ext }.

Definition set_files (f : gmap string string) (w : World) : World :=
  {| files := f; sys_path := sys_path w; sys_modules := sys_modules w;
     next_ref := next_ref w; ext := ext w |}.

Definition set_sys_path (p : list string) (w : World) : World :=
  {| files := files w; sys_path := p; sys_modules := sys_modules w;
     next_ref := next_ref w; ext := ext w |}.

Definition set_sys_modules (m : gmap string nat) (w : World) : World :=
  {| files := files w; sys_path := sys_path w; sys_modules := m;
     next_ref := next_ref w; ext := ext w |}.

Definition set_next_ref (n : nat) (w : World) : World :=
  {| files := files w; sys_path := sys_path w; sys_modules := sys_modules w;
     next_ref := n; ext := ext w |}.

(** [run_agent(question)] *)
Definition Runner := string -> World -> Outcome * World.

(** A loaded module: its object and its attribute [run_agent], if it has one. *)
Record AgentModule := {
  mod_ref : nat;
  run_agent : option Runner }.

(** Running the top-level code of a file in a new module. *)
Inductive ExecResult :=
| ExecOk (run_agent_attr : option Runner)
| ExecRaised (traceback : string).

(** The collaborators: [os.path], [importlib], the [datasets] shuffle,
    [numpy.random.choice] (it answers with positions in its argument [a]) and
    the developer agent. *)
Record Env := {
  abspath : string -> string;
  dirname : string -> string;
  path_join : string -> string -> string;
  spec_from_file_location : string -> string -> bool;
  exec_module : string -> World -> ExecResult * World;
  shuffle : list Sample -> World -> list Sample * World;
  random_choice : nat -> nat -> list R -> World -> list nat * World;
  call_developer_agent : DevRequest -> World -> option string * World }.

(** The variables of [run_dgm_loop]; [developer_calls] records the calls of
    the developer agent, in order: the request and what came back. *)
Record LoopState := {
  archive : list Agent;
  agent_version_counter : nat;
  developer_calls : list (DevRequest * option string);
  world : World }.

End World.

Arguments World : clear implicits.
Arguments Runner : clear implicits.
Arguments AgentModule : clear implicits.
Arguments ExecResult : clear implicits.
Arguments Env : clear implicits.
Arguments LoopState : clear implicits.

End Model.

(** ** [evolution/evaluation.py] *)

Module Evaluation.
Import Text AgentUtils Model.

Section Harness.
Context {Ext : Type}.
Local Abbreviation World := (World Ext).
Local Abbreviation Runner := (Runner Ext).
Local Abbreviation AgentModule := (AgentModule Ext).

(** The body of the [for] loop of [evaluate_agent_on_dataset].  The [try]
    turns an exception of the run into a sample that is not counted. *)
Fixpoint evaluate_loop (agent_runner : Runner) (dataset : list Sample)
    (success_count : nat) (w : World) : nat * World :=
  match dataset with
  | [] => (success_count, w)
  | sample :: rest =>
      let correct_answer_raw := answer sample in
      let correct_answer_final := extract_final_answer correct_answer_raw in
      match agent_runner (question sample) w with
      | (Returned agent_answer_raw, w') =>
          let agent_answer_final := extract_final_answer agent_answer_raw in
          if String.eqb agent_answer_final correct_answer_final
             && negb (String.eqb correct_answer_final "")
          then evaluate_loop agent_runner rest (S success_count) w'
          else evaluate_loop agent_runner rest success_count w'
      | (Raised _, w') => evaluate_loop agent_runner rest success_count w'
      end
  end.

Definition evaluate_agent_on_dataset (agent_module : option AgentModule)
    (dataset : list Sample) (w : World) : Q * World :=
  match agent_module with
  | None => (0%Q, w)
  | Some m =>
      match run_agent m with
      | None => (0%Q, w)
      | Some agent_runner =>
          let total_count := length dataset in
          if (total_count =? 0)%nat then (0%Q, w)
          else
            let '(success_count, w') := evaluate_loop agent_runner dataset 0 w in
            (Z.of_nat success_count # Pos.of_nat total_count, w')
      end
  end.

(** The body of the [for] loop of [find_failures_on_train], over the
    shuffled samples. *)
Fixpoint find_failures_loop (agent_runner : Runner) (samples : list Sample)
    (max_failures : Z) (failures successes : list Example) (w : World)
  : list Example * list Example * World :=
  match samples with
  | [] => (failures, successes, w)
  | sample :: rest =>
      if (Z.of_nat (length failures) >=? max_failures)%Z
      then (failures, successes, w)
      else
        let question := question sample in
        let correct_answer_raw := answer sample in
        let correct_answer_final := extract_final_answer correct_answer_raw in
        match agent_runner question w with
        | (Returned agent_answer_raw, w') =>
            let agent_answer_final := extract_final_answer agent_answer_raw in
            if String.eqb agent_answer_final correct_answer_final
               && negb (String.eqb correct_answer_final "")
            then
              find_failures_loop agent_runner rest max_failures failures
                (successes ++ [{| ex_question := question;
                                  ex_correct_answer := correct_answer_raw;
                                  ex_agent_output := agent_answer_raw |}]) w'
            else
              find_failures_loop agent_runner rest max_failures
                (failures ++ [{| ex_question := question;
                                 ex_correct_answer := correct_answer_raw;
                                 ex_agent_output :=
                                   "Wrong Answer: " +:+ agent_answer_raw |}])
                successes w'
        | (Raised traceback, w') =>
            find_failures_loop agent_runner rest max_failures
              (failures ++ [{| ex_question := question;
                               ex_correct_answer := correct_answer_raw;
                               ex_agent_output :=
                                 "Runtime Error: " +:+ traceback |}])
              successes w'
        end
  end.

Definition find_failures_on_train (E : Env Ext)
    (agent_module : option AgentModule) (train_dataset : list Sample)
    (max_failures : Z) (w : World) : list Example * list Example * World :=
  match agent_module with
  | None => ([], [], w)
  | Some m =>
      match run_agent m with
      | None => ([], [], w)
      | Some agent_runner =>
          let '(shuffled, w1) := shuffle E train_dataset w in
          find_failures_loop agent_runner shuffled max_failures [] [] w1
      end
  end.

(** *** Notions used to state the properties of the harness *)

(** The criterion of both functions: the normalized answers are equal and
    the normalized reference is not empty. *)
Definition is_success (sample : Sample) (agent_answer_raw : string) : Prop :=
  extract_final_answer agent_answer_raw = extract_final_answer (answer sample)
  /\ extract_final_answer (answer sample) <> "".

Definition succeeded (sample : Sample) (o : Outcome) : Prop :=
  match o with
  | Returned a => is_success sample a
  | Raised _ => False
  end.

Global Instance is_success_dec sample a : Decision (is_success sample a).
Proof. unfold is_success. apply _. Defined.

Global Instance succeeded_dec sample o : Decision (succeeded sample o).
Proof. destruct o; simpl; apply _. Defined.

(** The outcomes of running [samples] in order from the world [w], and the
    world the last run leaves. *)
Fixpoint run_all (agent_runner : Runner) (samples : list Sample) (w : World)
  : list (Sample * Outcome) * World :=
  match samples with
  | [] => ([], w)
  | sample :: rest =>
      let '(o, w') := agent_runner (question sample) w in
      let '(os, w'') := run_all agent_runner rest w' in
      ((sample, o) :: os, w'')
  end.

(** The entry of the failures or successes list a processed sample gives. *)
Definition example_of (so : Sample * Outcome) : Example :=
  let '(sample, o) := so in
  {| ex_question := question sample;
     ex_correct_answer := answer sample;
     ex_agent_output :=
       match o with
       | Returned a =>
           if decide (is_success sample a) then a else "Wrong Answer: " +:+ a
       | Raised tb => "Runtime Error: " +:+ tb
       end |}.

(** The two lists a run of processed samples fills. *)
Definition failures_of (processed : list (Sample * Outcome)) : list Example :=
  map example_of (filter (fun so => ~ succeeded (fst so) (snd so)) processed).

Definition successes_of (processed : list (Sample * Outcome)) : list Example :=
  map example_of (filter (fun so => succeeded (fst so) (snd so)) processed).

(** The number of successes among processed samples. *)
Definition count_successes (processed : list (Sample * Outcome)) : nat :=
  length (filter (fun so => succeeded (fst so) (snd so)) processed).

End Harness.
End Evaluation.

(** ** [agent_utils.py]: the loader and the artifact writer *)

Module Loader.
Import Model.

Section Loader.
Context {Ext : Type}.
Local Abbreviation World := (World Ext).
Local Abbreviation AgentModule := (AgentModule Ext).
Variable E : Env Ext.

(** [load_agent_from_file].  An exception anywhere in the [try] block ends
    in the [except] clause, which returns [None] from the world as it is
    then. *)
Definition load_agent_from_file (filepath module_name : string) (w : World)
  : option AgentModule * World :=
  let abs_filepath := abspath E filepath in
  if negb (spec_from_file_location E module_name abs_filepath) then (None, w)
  else
    (* agent_module = module_from_spec(spec); sys.modules[name] = agent_module *)
    let agent_module := next_ref w in
    let w1 := set_sys_modules (<[module_name := agent_module]> (sys_modules w))
                (set_next_ref (S agent_module) w) in
    let module_dir := dirname E abs_filepath in
    let w2 := if decide (module_dir ∈ sys_path w1) then w1
              else set_sys_path (module_dir :: sys_path w1) w1 in
    match exec_module E abs_filepath w2 with
    | (ExecRaised _, w3) => (None, w3)
    | (ExecOk attr, w3) =>
        match sys_path w3 with
        | [] => (None, w3)
        | first :: others =>
            let w4 := if decide (first = module_dir)
                      then set_sys_path others w3 else w3 in
            let w5 := if decide (is_Some (sys_modules w4 !! module_name))
                      then set_sys_modules (delete module_name (sys_modules w4)) w4
                      else w4 in
            (Some {| mod_ref := agent_module; run_agent := attr |}, w5)
        end
    end.

(** The world in which the top-level code of the file runs, used to state
    properties of the loader: the module is registered and its directory is
    on the search path. *)
Definition prepared (filepath module_name : string) (w : World) : World :=
  let module_dir := dirname E (abspath E filepath) in
  let w1 := set_sys_modules (<[module_name := next_ref w]> (sys_modules w))
              (set_next_ref (S (next_ref w)) w) in
  if decide (module_dir ∈ sys_path w1) then w1
  else set_sys_path (module_dir :: sys_path w1) w1.

(** [save_agent_code]: the file [folder/filename] holds [code] afterwards. *)
Definition save_agent_code (folder filename code : string) (w : World)
  : World :=
  let filepath := path_join E folder filename in
  set_files (<[filepath := code]> (files w)) w.

(** [os.remove(path)] inside [try ... except OSError: pass] *)
Definition remove_file (p : string) (w : World) : World :=
  set_files (delete p (files w)) w.

End Loader.
End Loader.

(** ** [evolution/evolution_loop.py] *)

Module EvolutionLoop.
Import Text AgentUtils Model Evaluation Loader.

Local Open Scope R_scope.

(** The weight of [select_parents] for one agent. *)
Definition weight (sigmoid_lambda sigmoid_alpha0 : R) (agent : Agent) : R :=
  let alpha_i := Q2R (score agent) in
  let n_i := INR (children_count agent) in
  let s_i := 1 / (1 + exp (- sigmoid_lambda * (alpha_i - sigmoid_alpha0))) in
  let h_i := 1 / (1 + n_i) in
  let w_i := s_i * h_i in
  w_i.

(** The sigmoid in the words of the specification, to compare [weight]
    with: [sigmoid(x) = 1/(1+e^-x)]. *)
Definition sigmoid (x : R) : R := 1 / (1 + exp (- x)).

(** [np.sum] *)
Definition np_sum (l : list R) : R := fold_left Rplus l 0.

(** The probabilities handed to [np.random.choice]. *)
Definition probabilities (weights : list R) : list R :=
  let total_weight := np_sum weights in
  if Req_dec_T total_weight 0
  then map (fun one => one / INR (length weights)) (repeat 1 (length weights))
  else map (fun w_i => w_i / total_weight) weights.

Local Close Scope R_scope.

(** The archive with the position of each record: a record the loop holds
    (a selected parent) is the dictionary object in the archive, which the
    model names by its position; the loop only appends, so the position of a
    record never changes. *)
Definition positions (archive : list Agent) : list (nat * Agent) :=
  imap (fun i agent => (i, agent)) archive.

Definition score_below_one (agent : Agent) : bool :=
  if Qlt_le_dec (score agent) 1 then true else false.

Section Loop.
Context {Ext : Type}.
Local Abbreviation World := (World Ext).
Local Abbreviation AgentModule := (AgentModule Ext).
Local Abbreviation LoopState := (LoopState Ext).
Variable E : Env Ext.

(** The second half of [select_parents]: weights, probabilities and the
    draw.  The result holds the positions in the archive of the records
    drawn; a draw outside of [agents_in_set], which [np.random.choice] never
    makes, selects nothing. *)
Definition draw_parents (eligible_set : list (nat * Agent)) (k : nat)
    (sigmoid_lambda sigmoid_alpha0 : R) (w : World) : list nat * World :=
  let agents_in_set := eligible_set in
  let weights :=
    map (fun pa => weight sigmoid_lambda sigmoid_alpha0 (snd pa)) eligible_set in
  let '(draws, w') :=
    random_choice E (length agents_in_set) k (probabilities weights) w in
  (omap (fun j => fst <$> agents_in_set !! j) draws, w').

Definition select_parents (archive : list Agent) (k : nat)
    (sigmoid_lambda sigmoid_alpha0 : R) (w : World) : list nat * World :=
  let eligible_set :=
    List.filter (fun pa => score_below_one (snd pa)) (positions archive) in
  match eligible_set with
  | [] =>
      match archive with
      | [] => ([], w)
      | _ :: _ =>
          draw_parents (positions archive) k sigmoid_lambda sigmoid_alpha0 w
      end
  | _ :: _ => draw_parents eligible_set k sigmoid_lambda sigmoid_alpha0 w
  end.

(** [f"v{agent_version_counter}"] *)
Definition version_id (agent_version_counter : nat) : string :=
  "v" +:+ NilEmpty.string_of_uint (Nat.to_uint agent_version_counter).

(** [successes[:n]] *)
Definition slice_to {A} (l : list A) (n : Z) : list A :=
  if (n <? 0)%Z then take (length l - Z.to_nat (- n)) l
  else take (Z.to_nat n) l.

Definition set_world (w : World) (st : LoopState) : LoopState :=
  {| archive := archive st;
     agent_version_counter := agent_version_counter st;
     developer_calls := developer_calls st;
     world := w |}.

Definition add_child (agent : Agent) : Agent :=
  {| id := id agent; path := path agent; score := score agent;
     children_count := S (children_count agent);
     parent_id := parent_id agent |}.

Definition has_run_agent (m : option AgentModule) : bool :=
  match m with
  | Some m => if run_agent m is Some _ then true else false
  | None => false
  end.

Section Run.
Variables (train_data validation_data : list Sample).
Variables (agent_folder task_model meta_model : string).
Variable dgm_params : DgmParams.

(** The body of [for parent_agent in parents], for the parent at position
    [p] of the archive.  Each [continue] of the source is a branch that
    returns the state reached so far. *)
Definition process_parent (st : LoopState) (p : nat) : LoopState :=
  match archive st !! p with
  | None => st
  | Some parent_agent =>
  let '(parent_module, w1) :=
    load_agent_from_file E (path parent_agent) (id parent_agent) (world st) in
  match parent_module with
  | None => set_world w1 st
  | Some _ =>
  let '(failures, successes, w2) :=
    find_failures_on_train E parent_module train_data
      (max_failures_per_child dgm_params) w1 in
  match failures with
  | [] => set_world w2 st
  | _ :: _ =>
  let success_examples_to_send :=
    slice_to successes (num_successes_to_send dgm_params) in
  match files w2 !! path parent_agent with
  | None => set_world w2 st
  | Some parent_code =>
  let request :=
    {| previous_code := parent_code;
       success_examples := success_examples_to_send;
       failed_examples := failures;
       current_version_id := id parent_agent;
       req_task_model := task_model;
       req_meta_model := meta_model |} in
  let '(new_code, w3) := call_developer_agent E request w2 in
  let calls := developer_calls st ++ [(request, new_code)] in
  let discard counter w :=
    {| archive := archive st; agent_version_counter := counter;
       developer_calls := calls; world := w |} in
  match new_code with
  | None => discard (agent_version_counter st) w3
  | Some new_code =>
  if decide (new_code = "") then discard (agent_version_counter st) w3 else
  let counter := S (agent_version_counter st) in
  let child_id := version_id counter in
  if decide (strip (chars new_code) = strip (chars parent_code))
  then discard counter w3
  else if negb (validate_agent_model_usage new_code task_model)
  then discard counter w3
  else
    let child_filename := "math_agent_" +:+ child_id +:+ ".py" in
    let child_path := path_join E agent_folder child_filename in
    let w4 := save_agent_code E agent_folder child_filename new_code w3 in
    let '(child_module, w5) := load_agent_from_file E child_path child_id w4 in
    if has_run_agent child_module then
      let archive1 := alter add_child p (archive st) in
      let '(child_score, w6) :=
        evaluate_agent_on_dataset child_module validation_data w5 in
      let child_agent_data :=
        {| id := child_id; path := child_path; score := child_score;
           children_count := 0; parent_id := Some (id parent_agent) |} in
      {| archive := archive1 ++ [child_agent_data];
         agent_version_counter := counter;
         developer_calls := calls; world := w6 |}
    else discard counter (remove_file child_path w5)
  end end end end end.

(** One pass of [for t in range(num_iterations)]; [false] is the [break]
    taken when no parent was selected. *)
Definition iteration (st : LoopState) : bool * LoopState :=
  let '(parents, w1) :=
    select_parents (archive st)
      (num_parents_to_select_k dgm_params)
      (sigmoid_lambda dgm_params) (sigmoid_alpha0 dgm_params) (world st) in
  match parents with
  | [] => (false, set_world w1 st)
  | _ :: _ => (true, fold_left process_parent parents (set_world w1 st))
  end.

Fixpoint iterate (num_iterations : nat) (st : LoopState) : LoopState :=
  match num_iterations with
  | O => st
  | S n =>
      match iteration st with
      | (true, st') => iterate n st'
      | (false, st') => st'
      end
  end.

(** The initialization of [run_dgm_loop]: [None] is the fatal error of a
    base agent that does not load or has no [run_agent]. *)
Definition initialize (start_agent_path : string) (w : World)
  : option LoopState :=
  let agent_version_counter := 0 in
  let module_name_v0 := "math_agent_" +:+ version_id agent_version_counter in
  let '(agent_module_v0, w1) :=
    load_agent_from_file E start_agent_path module_name_v0 w in
  if has_run_agent agent_module_v0 then
    let '(initial_score, w2) :=
      evaluate_agent_on_dataset agent_module_v0 validation_data w1 in
    let g0 :=
      {| id := version_id agent_version_counter; path := start_agent_path;
         score := initial_score; children_count := 0; parent_id := None |} in
    Some {| archive := [g0]; agent_version_counter := agent_version_counter;
            developer_calls := []; world := w2 |}
  else None.

(** [sorted(archive, key=lambda x: x['score'], reverse=True)]: a stable sort,
    records of equal score keep their order. *)
Fixpoint insert_by_score (agent : Agent) (sorted : list Agent) : list Agent :=
  match sorted with
  | [] => [agent]
  | other :: rest =>
      if Qlt_le_dec (score agent) (score other)
      then other :: insert_by_score agent rest
      else agent :: sorted
  end.

Definition sorted_by_score (archive : list Agent) : list Agent :=
  fold_right insert_by_score [] archive.

(** [run_dgm_loop]: the best agent of the final archive, with the final
    state. *)
Definition run_dgm_loop (start_agent_path : string) (num_iterations : nat)
    (w : World) : option (Agent * LoopState) :=
  match initialize start_agent_path w with
  | None => None
  | Some st0 =>
      let st := iterate num_iterations st0 in
      match sorted_by_score (archive st) with
      | [] => None
      | best :: _ => Some (best, st)
      end
  end.

(** *** Notions used to state the properties of the loop *)

(** The states of a run from [st0]: between two parents the loop has run
    [process_parent], and a selection changes the world only. *)
Inductive reachable (st0 : LoopState) : LoopState -> Prop :=
| reachable_start : reachable st0 st0
| reachable_world st w : reachable st0 st -> reachable st0 (set_world w st)
| reachable_parent st p :
    reachable st0 st -> reachable st0 (process_parent st p).

End Run.
End Loop.

(** A record and what it has become: only [children_count] may differ, and
    it does not decrease. *)
Definition same_record (old new : Agent) : Prop :=
  id old = id new /\ path old = path new /\ score old = score new
  /\ parent_id old = parent_id new
  /\ children_count old <= children_count new.

(** [new] is [old] with records appended: none removed, none replaced. *)
Definition extends (old new : list Agent) : Prop :=
  exists kept added, new = kept ++ added /\ Forall2 same_record old kept.

(** The calls of the developer agent that produced code: the attempted
    children. *)
Definition produced_code (call : DevRequest * option string) : Prop :=
  match snd call with
  | Some new_code => new_code <> ""
  | None => False
  end.

Global Instance produced_code_dec call : Decision (produced_code call).
Proof. unfold produced_code. destruct (snd call); apply _. Defined.

Definition attempted_children (calls : list (DevRequest * option string))
  : nat :=
  length (filter produced_code calls).

(** The identifiers given out so far: those of the archive are distinct
    and are [v0] to [v<counter>], and the counter is the number of attempted
    children. *)
Definition ids_assigned {Ext : Type} (st : LoopState Ext) : Prop :=
  NoDup (map id (archive st))
  /\ Forall (fun agent =>
               exists n, n <= agent_version_counter st
                         /\ id agent = version_id n) (archive st)
  /\ agent_version_counter st = attempted_children (developer_calls st).

(** The four ways [process_parent] ends for the parent at position [p]:
    the parent is skipped before the developer agent is called, the developer
    agent gives no code, the child is discarded after it got its identifier,
    or the child is archived. *)
Inductive parent_outcome {Ext : Type} (st : LoopState Ext) (p : nat)
  : LoopState Ext -> Prop :=
| outcome_skipped w : parent_outcome st p (set_world w st)
| outcome_no_code request new_code w :
    ~ produced_code (request, new_code) ->
    parent_outcome st p
      {| archive := archive st;
         agent_version_counter := agent_version_counter st;
         developer_calls := developer_calls st ++ [(request, new_code)];
         world := w |}
| outcome_discarded request new_code w :
    new_code <> "" ->
    parent_outcome st p
      {| archive := archive st;
         agent_version_counter := S (agent_version_counter st);
         developer_calls := developer_calls st ++ [(request, Some new_code)];
         world := w |}
| outcome_archived parent_agent request new_code child w :
    archive st !! p = Some parent_agent ->
    new_code <> "" ->
    id child = version_id (S (agent_version_counter st)) ->
    parent_id child = Some (id parent_agent) ->
    children_count child = 0 ->
    parent_outcome st p
      {| archive := alter add_child p (archive st) ++ [child];
         agent_version_counter := S (agent_version_counter st);
         developer_calls := developer_calls st ++ [(request, Some new_code)];
         world := w |}.

End EvolutionLoop.

(** ** A concrete world, used to run the definitions on examples *)

Module Examples.
Import Text AgentUtils Model Evaluation Loader EvolutionLoop.

Definition world0 : World unit :=
  {| files := ∅; sys_path := []; sys_modules := ∅; next_ref := 0; ext := tt |}.

(** A candidate that answers one question and raises on every other one. *)
Definition runner0 : Runner unit := fun question w =>
  if String.eqb question "2+2?" then (Returned "so #### 4.", w)
  else (Raised "ZeroDivisionError", w).

Definition module0 : AgentModule unit :=
  {| mod_ref := 0; run_agent := Some runner0 |}.

Definition split0 : list Sample :=
  [ {| question := "1/0?"; answer := "#### 7" |};
    {| question := "2+2?"; answer := "2+2 = 4 #### 4" |} ].

(** A candidate whose answer is never right. *)
Definition runner_wrong : Runner unit := fun question w =>
  if String.eqb question "1/0?" then (Raised "ZeroDivisionError", w)
  else (Returned "I do not know", w).

Definition module_wrong : AgentModule unit :=
  {| mod_ref := 1; run_agent := Some runner_wrong |}.

Definition split1 : list Sample :=
  [ {| question := "1/0?"; answer := "#### 7" |};
    {| question := "2+2?"; answer := "2+2 = 4 #### 4" |};
    {| question := "3*3?"; answer := "#### 9" |} ].

(** Collaborators that take no chances: files of a known content load, the
    shuffle reverses, every draw is the first agent of the set and the
    developer always proposes the same code.  A file loads when it starts
    with the definition of [run_agent] or is the one assignment below. *)
Definition exec0 (abs_filepath : string) (w : World unit)
  : ExecResult unit * World unit :=
  match files w !! abs_filepath with
  | Some code =>
      if String.prefix "def run_agent" code
      then (ExecOk (Some runner_wrong), w)
      else if String.eqb code "x = 1" then (ExecOk None, w)
      else (ExecRaised "SyntaxError", w)
  | None => (ExecRaised "FileNotFoundError", w)
  end.

Definition env0 (proposal : option string) : Env unit :=
  {| abspath := fun p => p;
     dirname := fun _ => "agents";
     path_join := fun folder filename => folder +:+ "/" +:+ filename;
     spec_from_file_location := fun _ _ => true;
     exec_module := exec0;
     shuffle := fun samples w => (rev samples, w);
     random_choice := fun _ k _ w => (repeat 0 k, w);
     call_developer_agent := fun _ w => (proposal, w) |}.

Definition params0 : DgmParams :=
  {| num_parents_to_select_k := 1;
     sigmoid_lambda := 30%R;
     sigmoid_alpha0 := (1 / 2)%R;
     max_failures_per_child := 2;
     num_successes_to_send := 1 |}.

(** The seed agent is on disk; it loads, and nothing else is. *)
Definition world_seed : World unit :=
  {| files := {[ "agents/math_agent_v0.py" :=
                   "def run_agent(q): return ask(q)" ]};
     sys_path := ["/usr/lib/python3"];
     sys_modules := ∅;
     next_ref := 0;
     ext := tt |}.

Definition state_seed : LoopState unit :=
  {| archive := [ {| id := "v0"; path := "agents/math_agent_v0.py";
                     score := 0 # 2; children_count := 0;
                     parent_id := None |} ];
     agent_version_counter := 0;
     developer_calls := [];
     world := world_seed |}.

(** The state after the initialization from [world_seed]: one module
    reference has been used. *)
Definition state_init : LoopState unit :=
  {| archive := archive state_seed;
     agent_version_counter := 0;
     developer_calls := [];
     world := set_next_ref 1 world_seed |}.

(** A world in which the directory of the agents is already first on the
    search path. *)
Definition world_on_path : World unit :=
  {| files := {[ "agents/math_agent_v0.py" :=
                   "def run_agent(q): return ask(q)" ]};
     sys_path := ["agents"; "/usr/lib/python3"];
     sys_modules := ∅;
     next_ref := 0;
     ext := tt |}.

(** A world with an artifact that does not compile. *)
Definition world_broken : World unit :=
  {| files := {[ "agents/math_agent_v1.py" := "def broken(" ]};
     sys_path := ["/usr/lib/python3"];
     sys_modules := ∅;
     next_ref := 0;
     ext := tt |}.

(** A state whose only agent is on disk without [run_agent]. *)
Definition state_norun : LoopState unit :=
  {| archive := archive state_seed;
     agent_version_counter := 0;
     developer_calls := [];
     world := set_files {[ "agents/math_agent_v0.py" := "x = 1" ]} world_seed |}.

End Examples.

(** ** Further notions about the archive *)

Module LoopNotions.
Import Text AgentUtils Model Evaluation Loader EvolutionLoop.

(** The lineage of the archive: only its first record has no parent, and
    the parent of any other record is an earlier record. *)
Definition parents_known (archive : list Agent) : Prop :=
  forall i agent,
    archive !! i = Some agent ->
    match parent_id agent with
    | None => i = 0
    | Some pid =>
        exists j parent,
          j < i /\ archive !! j = Some parent /\ id parent = pid
    end.

(** The records of the archive whose parent is [agent]. *)
Definition archived_children (archive : list Agent) (agent : Agent)
  : list Agent :=
  filter (fun child => parent_id child = Some (id agent)) archive.

(** The file name the loop gives to the artifact of a child. *)
Definition artifact_path {Ext : Type} (E : Env Ext) (agent_folder : string)
    (agent : Agent) : string :=
  path_join E agent_folder ("math_agent_" +:+ id agent +:+ ".py").

(** The first record of the highest score: no record has a higher score and
    the records before it have a lower one. *)
Definition first_best (archive : list Agent) (best : Agent) : Prop :=
  exists i,
    archive !! i = Some best
    /\ (forall agent, agent ∈ archive -> (score agent <= score best)%Q)
    /\ (forall j agent,
          j < i -> archive !! j = Some agent ->
          (score agent < score best)%Q).

(** The order of the final sort: [a] may come before [b]. *)
Definition not_below (a b : Agent) : Prop := (score b <= score a)%Q.

(** The records of a given score, in the order of the list. *)
Definition of_score (q : Q) (archive : list Agent) : list Agent :=
  List.filter (fun agent => Qeq_bool (score agent) q) archive.

(** The archive as the loop keeps it: the lineage is known, each record
    counts its archived children, the artifact of a child has the file name
    of its identifier and every score is an accuracy. *)
Definition archive_consistent {Ext : Type} (E : Env Ext)
    (agent_folder : string) (archive : list Agent) : Prop :=
  parents_known archive
  /\ Forall (fun agent =>
               children_count agent
               = length (archived_children archive agent)) archive
  /\ Forall (fun agent =>
               parent_id agent <> None ->
               path agent = artifact_path E agent_folder agent) archive
  /\ Forall (fun agent => (0 <= score agent <= 1)%Q) archive.

End LoopNotions.

Module MoreExamples.
Import Text AgentUtils Model Evaluation Loader EvolutionLoop Examples.

(** A proposal of the developer that loads and has [run_agent]. *)
Definition proposal_ok : string := "def run_agent(q): return think(q)".

Definition env_ok : Env unit := env0 (Some proposal_ok).

(** The state after the seed was processed once as a parent. *)
Definition state_child : LoopState unit :=
  process_parent env_ok split1 split0 "agents" "gpt-4o-mini" "gpt-4o"
    params0 state_init 0.

(** A proposal that is the code of the seed with white space around it. *)
Definition proposal_same : string :=
  "  def run_agent(q): return ask(q)  ".

(** Parameters that ask for no failure of the parent. *)
Definition params_idle : DgmParams :=
  {| num_parents_to_select_k := 1;
     sigmoid_lambda := 30%R;
     sigmoid_alpha0 := (1 / 2)%R;
     max_failures_per_child := 0;
     num_successes_to_send := 1 |}.

End MoreExamples.

(** ** Code blocks in the answer of the language model *)

Module Cleaning.
Import Text.

(** The backquote (code point 96) and the fence of a markdown code block *)
Definition backquote : ascii := ascii_of_nat 96.

Definition fence : list ascii := [backquote; backquote; backquote].

Definition starts_with (pre s : list ascii) : bool :=
  match strip_prefix pre s with
  | Some _ => true
  | None => false
  end.

(** The end of both patterns at the start of [s], white space and the
    closing fence: the white space is taken greedily and given back one
    character at a time. *)
Fixpoint spaces_then_fence (s : list ascii) : bool :=
  match s with
  | c :: s' =>
      if is_space c then spaces_then_fence s' || starts_with fence s
      else starts_with fence s
  | [] => starts_with fence s
  end.

(** The lazy group [([\s\S]+?)] with the end of the pattern behind it, at
    the start of [s]: the shortest group of one character or more that the
    end of the pattern follows. *)
Fixpoint lazy_group (s : list ascii) : option (list ascii) :=
  match s with
  | c :: s' =>
      if spaces_then_fence s' then Some [c]
      else
        match lazy_group s' with
        | Some g => Some (c :: g)
        | None => None
        end
  | [] => None
  end.

(** What follows the opening of a pattern, at the start of [s]: white space,
    taken greedily and given back one character at a time, then the group
    and the end of the pattern.  The result is the group. *)
Fixpoint fenced_body (s : list ascii) : option (list ascii) :=
  match s with
  | c :: s' =>
      if is_space c then
        match fenced_body s' with
        | Some g => Some g
        | None => lazy_group s
        end
      else lazy_group s
  | [] => lazy_group s
  end.

(** [re.search] of a pattern that starts with the literal [opening]: group 1
    of the match at the leftmost position that has one. *)
Fixpoint search_block (opening s : list ascii) : option (list ascii) :=
  let here :=
    match strip_prefix opening s with
    | Some r => fenced_body r
    | None => None
    end in
  match here with
  | Some g => Some g
  | None =>
      match s with
      | _ :: s' => search_block opening s'
      | [] => None
      end
  end.

(** [pat in s] *)
Fixpoint occurs (pat s : list ascii) : bool :=
  starts_with pat s
  || match s with
     | _ :: s' => occurs pat s'
     | [] => false
     end.

(** The number of backquotes of a text *)
Definition backquotes (s : list ascii) : nat :=
  count_occ ascii_dec s backquote.

(** [clean_generated_code]; the argument is [None] for Python's [None]. *)
Definition clean_generated_code (code_string : option string) : string :=
  match code_string with
  | None => EmptyString
  | Some code =>
      let text := chars code in
      match search_block (fence ++ chars "python") text with
      | Some g => string_of_list_ascii (strip g)
      | None =>
          match search_block fence text with
          | Some g => string_of_list_ascii (strip g)
          | None =>
              if negb (occurs fence text) then string_of_list_ascii (strip text)
              else string_of_list_ascii (strip text)
          end
      end
  end.

End Cleaning.

(** ** The policy check in the words of the specification *)

Module PolicySpec.
Import Text AgentUtils.

(** The vendor-prefixed identifiers the specification names, [gpt-...],
    [claude-...] and [gemini-...]: the prefix as it is written there and at
    least one more character. *)
Definition spec_vendor_prefixed (literal : list ascii) : bool :=
  existsb
    (fun vendor =>
       match strip_prefix (chars vendor) literal with
       | Some (_ :: _) => true
       | _ => false
       end)
    ["gpt-"; "claude-"; "gemini-"].

(** A declaration at the start of [s] that binds the key [model] to a quoted
    literal, in the words of the specification: the key as it is named, [=]
    with optional white space around it, and between two quote characters of
    the same kind a vendor-prefixed identifier.  The result is the literal. *)
Definition spec_binding (s : list ascii) : option (list ascii) :=
  match strip_prefix (chars "model") s with
  | Some r =>
      let '(_, r1) := span is_space r in
      match r1 with
      | eq :: r2 =>
          if Ascii.eqb eq "=" then
            let '(_, r3) := span is_space r2 in
            match r3 with
            | q1 :: r4 =>
                if is_quote q1 then
                  let '(literal, r5) := span is_model_char r4 in
                  match r5 with
                  | q2 :: _ =>
                      if Ascii.eqb q1 q2 && spec_vendor_prefixed literal
                      then Some literal else None
                  | [] => None
                  end
                else None
            | [] => None
            end
          else None
      | [] => None
      end
  | None => None
  end.

(** The literals a text binds to a key named [model].  A key starts at the
    start of the text or behind a character that cannot be part of a name:
    [meta_model] and [judge_model] are other keys. *)
Fixpoint spec_bindings_from (at_name_start : bool) (s : list ascii)
  : list (list ascii) :=
  match s with
  | [] => []
  | c :: s' =>
      (if at_name_start
       then match spec_binding s with
            | Some literal => [literal]
            | None => []
            end
       else [])
      ++ spec_bindings_from (negb (is_word c)) s'
  end.

Definition spec_declared_literals (text : list ascii) : list (list ascii) :=
  spec_bindings_from true text.

(** The policy check of the specification: a proposal is discarded ([false])
    when one of these literals differs from the sanctioned string, and is
    compliant when there is no such literal. *)
Definition spec_policy_check (code_string allowed_model : string) : bool :=
  forallb
    (fun literal => bool_decide (literal = chars allowed_model))
    (spec_declared_literals (chars code_string)).

End PolicySpec.

(** * Properties *)

(** ** Facts about the text functions *)

Module TextFacts.
Import Text.

(** Settles a fact about the classes of one character by going through the
    256 characters. *)
Ltac by_cases_on c :=
  destruct c as [[] [] [] [] [] [] [] []]; vm_compute; intuition congruence.

Lemma span_app p s a b : span p s = (a, b) -> s = a ++ b.
Proof.
  revert a b. induction s as [|c s IH]; intros a b; simpl.
  - now intros [= <- <-].
  - destruct (p c); [|now intros [= <- <-]].
    destruct (span p s) as [a' b']. intros [= <- <-].
    simpl. f_equal. now apply IH.
Qed.

Lemma span_all p s a b : span p s = (a, b) -> Forall (fun c => p c = true) a.
Proof.
  revert a b. induction s as [|c s IH]; intros a b; simpl.
  - intros [= <- <-]. constructor.
  - destruct (p c) eqn:Hc; [|intros [= <- <-]; constructor].
    destruct (span p s) as [a' b']. intros [= <- <-].
    constructor; [assumption | now apply (IH a' b')].
Qed.

Lemma span_stop p s a c b : span p s = (a, c :: b) -> p c = false.
Proof.
  revert a. induction s as [|d s IH]; intros a; simpl.
  - intros [=].
  - destruct (p d) eqn:Hd.
    + destruct (span p s) as [a' b']. intros [= <- ->]. now apply (IH a').
    + intros [= <- <- <-]. assumption.
Qed.

(** A run followed by a character outside the class is what [span] takes. *)
Lemma span_exact p a b :
  Forall (fun c => p c = true) a ->
  match b with [] => True | c :: _ => p c = false end ->
  span p (a ++ b) = (a, b).
Proof.
  intros Ha Hb. induction Ha as [|c a Hc _ IH]; simpl.
  - destruct b as [|c b]; [reflexivity | simpl in *; now rewrite Hb].
  - now rewrite Hc, IH.
Qed.

Lemma lstrip_suffix p s : lstrip p s `suffix_of` s.
Proof.
  induction s as [|c s IH]; simpl; [reflexivity|].
  destruct (p c); [|reflexivity].
  now apply suffix_cons_r.
Qed.

Lemma lstrip_head p s :
  match lstrip p s with [] => True | c :: _ => p c = false end.
Proof.
  induction s as [|c s IH]; simpl; [exact I|].
  destruct (p c) eqn:Hc; [assumption | exact Hc].
Qed.

Lemma lstrip_id p s :
  match s with [] => True | c :: _ => p c = false end -> lstrip p s = s.
Proof. destruct s as [|c s]; simpl; [reflexivity | now intros ->]. Qed.

Lemma lstrip_idemp p s : lstrip p (lstrip p s) = lstrip p s.
Proof. apply lstrip_id, lstrip_head. Qed.

Lemma rstrip_idemp p s : rstrip p (rstrip p s) = rstrip p s.
Proof. unfold rstrip. now rewrite rev_involutive, lstrip_idemp. Qed.

Lemma lstrip_Forall (P : ascii -> Prop) p s :
  Forall P s -> Forall P (lstrip p s).
Proof.
  intros H. destruct (lstrip_suffix p s) as [k Hk].
  rewrite Hk in H. now apply Forall_app in H as [_ H].
Qed.

Lemma rstrip_Forall (P : ascii -> Prop) p s :
  Forall P s -> Forall P (rstrip p s).
Proof.
  intros H. unfold rstrip. apply Forall_rev, lstrip_Forall, Forall_rev, H.
Qed.

Lemma lstrip_none p s : Forall (fun c => p c = false) s -> lstrip p s = s.
Proof. intros H. apply lstrip_id. destruct H; [exact I | assumption]. Qed.

Lemma rstrip_none p s : Forall (fun c => p c = false) s -> rstrip p s = s.
Proof.
  intros H. unfold rstrip. rewrite lstrip_none by now apply Forall_rev.
  apply rev_involutive.
Qed.

Lemma lstrip_all p s : Forall (fun c => p c = true) s -> lstrip p s = [].
Proof. induction 1 as [|c s Hc _ IH]; simpl; [reflexivity | now rewrite Hc]. Qed.

Lemma rstrip_all p s : Forall (fun c => p c = true) s -> rstrip p s = [].
Proof.
  intros H. unfold rstrip. now rewrite lstrip_all by now apply Forall_rev.
Qed.

Lemma strip_none s : Forall (fun c => is_space c = false) s -> strip s = s.
Proof.
  intros H. unfold strip. rewrite lstrip_none by assumption.
  now apply rstrip_none.
Qed.

(** What [findall] returns are groups of matches at suffixes of the text. *)
Lemma findall_from_groups (P : list ascii -> Prop) (m : matcher) s :
  (forall s' g len, s' `suffix_of` s -> m s' = Some (g, len) -> P g) ->
  forall skip, Forall P (findall_from m skip s).
Proof.
  induction s as [|c s IH]; intros Hm skip; simpl; [constructor|].
  assert (Hs : forall s' g len,
             s' `suffix_of` s -> m s' = Some (g, len) -> P g).
  { intros s' g len Hsuf. apply Hm. now apply suffix_cons_r. }
  destruct skip as [|k]; [|now apply IH].
  destruct (m (c :: s)) as [[g len]|] eqn:Hmatch; [|now apply IH].
  constructor; [|now apply IH].
  now apply (Hm (c :: s) g len).
Qed.

Lemma findall_from_skip_all (m : matcher) s skip :
  length s <= skip -> findall_from m skip s = [].
Proof.
  revert skip. induction s as [|c s IH]; intros skip Hlen; simpl;
    [reflexivity|].
  destruct skip as [|k]; simpl in Hlen; [lia|].
  apply IH. lia.
Qed.

(** No match starts at a character that the pattern cannot start with. *)
Lemma findall_no_start (m : matcher) (bad : ascii -> Prop) s :
  (forall c s', bad c -> m (c :: s') = None) ->
  Forall bad s -> findall m s = [].
Proof.
  intros Hm Hs. unfold findall.
  induction Hs as [|c s Hc _ IH]; simpl; [reflexivity|].
  now rewrite (Hm c s Hc).
Qed.

(** [findall] returns groups of matches in the text only. *)
Lemma findall_sound (m : matcher) text g :
  g ∈ findall m text ->
  exists pre s len, text = pre ++ s /\ m s = Some (g, len).
Proof.
  intros Hin.
  pose proof (findall_from_groups
                (fun g => exists pre s len, text = pre ++ s
                                            /\ m s = Some (g, len))
                m text) as H.
  apply (proj1 (Forall_forall _ _) (H ltac:(
    intros s' g' len [pre ->] Hm; now exists pre, s', len) 0)).
  exact Hin.
Qed.

(** When matches cannot overlap, [findall] returns the group of every match
    in the text. *)
Lemma findall_from_complete (m : matcher) :
  non_overlapping m -> m [] = None ->
  forall text skip pre s g len,
    (forall j, j < skip -> m (drop j text) = None) ->
    text = pre ++ s -> m s = Some (g, len) ->
    g ∈ findall_from m skip text.
Proof.
  intros Hover Hnil.
  induction text as [|c t IH]; intros skip pre s g len Hskip Htext Hm.
  { symmetry in Htext. apply app_eq_nil in Htext as [_ ->]. congruence. }
  cbn [findall_from]. destruct skip as [|k].
  - destruct (m (c :: t)) as [[g' len']|] eqn:Hhere.
    + destruct pre as [|c' pre]; simpl in Htext.
      * subst s. replace g' with g by congruence. left.
      * injection Htext as <- Htext. right.
        apply (IH (Nat.pred len') pre s g len); [|assumption|assumption].
        intros j Hj. apply (Hover (c :: t) g' len' (S j) Hhere). lia.
    + destruct pre as [|c' pre]; simpl in Htext.
      * subst s. congruence.
      * injection Htext as <- Htext.
        apply (IH 0 pre s g len); [|assumption|assumption].
        intros j Hj. lia.
  - destruct pre as [|c' pre]; simpl in Htext.
    + subst s. specialize (Hskip 0 ltac:(lia)). simpl in Hskip. congruence.
    + injection Htext as <- Htext.
      apply (IH k pre s g len); [|assumption|assumption].
      intros j Hj. apply (Hskip (S j)). lia.
Qed.

Lemma findall_complete (m : matcher) text pre s g len :
  non_overlapping m -> m [] = None ->
  text = pre ++ s -> m s = Some (g, len) -> g ∈ findall m text.
Proof.
  intros Hover Hnil Htext Hm.
  apply (findall_from_complete m Hover Hnil text 0 pre s g len);
    [|assumption|assumption].
  intros j Hj. lia.
Qed.

End TextFacts.

(** ** Answer normalization *)

Module AnswerFacts.
Import Text TextFacts AgentUtils.

Lemma num_char_plain c :
  is_num_char c = true -> negb (Ascii.eqb c ",") = true -> is_plain c = true.
Proof. by_cases_on c. Qed.

Lemma plain_not_space c : is_plain c = true -> is_space c = false.
Proof. by_cases_on c. Qed.

Lemma plain_not_comma c : is_plain c = true -> negb (Ascii.eqb c ",") = true.
Proof. by_cases_on c. Qed.

Lemma plain_num_char c : is_plain c = true -> is_num_char c = true.
Proof. by_cases_on c. Qed.

Lemma plain_not_hash c : is_plain c = true -> Ascii.eqb "#" c = false.
Proof. by_cases_on c. Qed.

Lemma plain_no_digit c :
  is_plain c = true -> is_digit c = false -> is_period c = true.
Proof. by_cases_on c. Qed.

Lemma match_number_group s g len :
  match_number s = Some (g, len) ->
  Forall (fun c => is_num_char c = true /\ c ∈ s) g.
Proof.
  unfold match_number. destruct (span is_num_char s) as [a b] eqn:Hspan.
  destruct a as [|c a]; intros [= <- <-].
  pose proof (span_all _ _ _ _ Hspan) as Hall.
  apply span_app in Hspan. subst s.
  apply Forall_forall. intros d Hd. split.
  - now apply (proj1 (Forall_forall _ _) Hall).
  - apply elem_of_app. now left.
Qed.

Lemma strip_prefix_app pre s r : strip_prefix pre s = Some r -> s = pre ++ r.
Proof.
  revert s. induction pre as [|p pre IH]; intros s; simpl.
  - now intros [= ->].
  - destruct s as [|c s]; [intros [=]|].
    destruct (Ascii.eqb p c) eqn:Hpc; [|intros [=]].
    apply Ascii.eqb_eq in Hpc as ->. intros H. f_equal. now apply IH.
Qed.

Lemma match_marker_group s g len :
  match_marker s = Some (g, len) ->
  Forall (fun c => is_num_char c = true /\ c ∈ s) g.
Proof.
  unfold match_marker.
  destruct (strip_prefix (chars "####") s) as [r|] eqn:Hpre; [|intros [=]].
  destruct (span is_space r) as [ws r1] eqn:Hws.
  destruct (span is_num_char r1) as [a b] eqn:Hspan.
  destruct a as [|c a]; intros [= <- <-].
  pose proof (span_all _ _ _ _ Hspan) as Hall.
  apply span_app in Hspan. apply span_app in Hws.
  apply strip_prefix_app in Hpre. subst s r r1.
  apply Forall_forall. intros d Hd. split.
  - now apply (proj1 (Forall_forall _ _) Hall).
  - rewrite !elem_of_app. right. right. now left.
Qed.

Lemma match_marker_needs_hash c s :
  Ascii.eqb "#" c = false -> match_marker (c :: s) = None.
Proof.
  intros H. unfold match_marker.
  change (chars "####") with ("#"%char :: chars "###").
  cbn [strip_prefix]. now rewrite H.
Qed.

(** The groups of both patterns are runs of [[0-9,.]] taken from the text. *)
Lemma findall_groups (m : matcher) text :
  (forall s g len, m s = Some (g, len) ->
                   Forall (fun c => is_num_char c = true /\ c ∈ s) g) ->
  Forall (Forall (fun c => is_num_char c = true /\ c ∈ text))
         (findall m text).
Proof.
  intros Hm. apply findall_from_groups. intros s' g len [k ->] Hmatch.
  eapply Forall_impl; [exact (Hm _ _ _ Hmatch)|].
  simpl. intros c [Hc Hin]. split; [assumption|].
  apply elem_of_app. now right.
Qed.

Lemma remove_commas_plain g :
  Forall (fun c => is_num_char c = true) g ->
  Forall (fun c => is_plain c = true) (remove_commas g).
Proof.
  intros H. unfold remove_commas. apply Forall_forall. intros c Hc.
  apply list_elem_of_In, filter_In in Hc as [Hin Hno].
  apply num_char_plain; [|assumption].
  apply (proj1 (Forall_forall _ _) H). now apply list_elem_of_In.
Qed.

Lemma remove_commas_id r :
  Forall (fun c => is_plain c = true) r -> remove_commas r = r.
Proof.
  unfold remove_commas. induction 1 as [|c r Hc _ IH]; simpl; [reflexivity|].
  now rewrite (plain_not_comma c Hc), IH.
Qed.

Lemma strip_plain r : Forall (fun c => is_plain c = true) r -> strip r = r.
Proof.
  intros H. apply strip_none. eapply Forall_impl; [exact H|].
  apply plain_not_space.
Qed.

(** Normalizing a match leaves digits and periods, without a period at the
    end. *)
Lemma normalize_match_eq g :
  Forall (fun c => is_num_char c = true) g ->
  normalize_match g = rstrip is_period (remove_commas g).
Proof.
  intros H. unfold normalize_match.
  now rewrite strip_plain by now apply remove_commas_plain.
Qed.

Lemma normalize_match_plain g :
  Forall (fun c => is_num_char c = true) g ->
  Forall (fun c => is_plain c = true) (normalize_match g).
Proof.
  intros H. rewrite normalize_match_eq by assumption.
  now apply rstrip_Forall, remove_commas_plain.
Qed.

Lemma normalize_match_idemp g :
  Forall (fun c => is_num_char c = true) g ->
  normalize_match (normalize_match g) = normalize_match g.
Proof.
  intros H. pose proof (normalize_match_plain g H) as Hplain.
  rewrite (normalize_match_eq (normalize_match g)).
  - rewrite remove_commas_id by assumption.
    rewrite (normalize_match_eq g H). apply rstrip_idemp.
  - eapply Forall_impl; [exact Hplain | apply plain_num_char].
Qed.

Lemma normalize_match_no_digit g :
  Forall (fun c => is_num_char c = true /\ is_digit c = false) g ->
  normalize_match g = [].
Proof.
  intros H.
  assert (Hnum : Forall (fun c => is_num_char c = true) g).
  { eapply Forall_impl; [exact H|]. now intros c [? _]. }
  rewrite normalize_match_eq by assumption.
  apply rstrip_all.
  pose proof (remove_commas_plain g Hnum) as Hplain.
  apply Forall_forall. intros c Hc.
  apply plain_no_digit.
  - now apply (proj1 (Forall_forall _ _) Hplain).
  - unfold remove_commas in Hc.
    apply list_elem_of_In, filter_In in Hc as [Hin _].
    apply list_elem_of_In in Hin.
    now apply (proj1 (Forall_forall _ _) H) in Hin as [_ ?].
Qed.

Lemma last_Forall {A} (P : A -> Prop) (l : list A) x :
  Forall P l -> last l = Some x -> P x.
Proof.
  intros H Hlast. apply last_Some in Hlast as [l' ->].
  apply Forall_app in H as [_ H]. now inversion H.
Qed.

(** The result of [extract_final_answer] is made of digits and periods and
    has no period at its end. *)
Lemma extract_chars_normal text :
  exists g, Forall (fun c => is_num_char c = true /\ c ∈ text) g
            /\ extract_final_answer_chars text = normalize_match g.
Proof.
  unfold extract_final_answer_chars.
  destruct (last (findall match_marker text)) as [m|] eqn:Hmarker.
  { exists m. split; [|reflexivity].
    exact (last_Forall _ _ _ (findall_groups _ text match_marker_group) Hmarker). }
  destruct (last (findall match_number text)) as [m|] eqn:Hnumber.
  { exists m. split; [|reflexivity].
    exact (last_Forall _ _ _ (findall_groups _ text match_number_group) Hnumber). }
  exists []. split; [constructor | reflexivity].
Qed.

(** A text of digits and periods without a period at its end is its own
    normal form. *)
Lemma extract_chars_fixed r :
  Forall (fun c => is_plain c = true) r ->
  rstrip is_period r = r ->
  extract_final_answer_chars r = r.
Proof.
  intros Hplain Hend. unfold extract_final_answer_chars.
  rewrite (findall_no_start match_marker (fun c => is_plain c = true));
    [|intros c s' Hc; apply match_marker_needs_hash, plain_not_hash, Hc
     |assumption].
  simpl. destruct r as [|c r]; [reflexivity|].
  assert (Hnum : Forall (fun c => is_num_char c = true) (c :: r)).
  { eapply Forall_impl; [exact Hplain | apply plain_num_char]. }
  assert (Hm : match_number (c :: r) = Some (c :: r, length (c :: r))).
  { unfold match_number.
    pose proof (span_exact is_num_char (c :: r) [] Hnum I) as Hspan.
    rewrite app_nil_r in Hspan. now rewrite Hspan. }
  unfold findall. cbn [findall_from]. rewrite Hm.
  rewrite findall_from_skip_all by (simpl; lia). simpl.
  rewrite normalize_match_eq by assumption.
  now rewrite remove_commas_id.
Qed.

Lemma chars_of_list l : chars (string_of_list_ascii l) = l.
Proof. apply list_ascii_of_string_of_list_ascii. Qed.

Lemma extract_chars_idemp text :
  extract_final_answer_chars (extract_final_answer_chars text)
  = extract_final_answer_chars text.
Proof.
  destruct (extract_chars_normal text) as (g & Hg & ->).
  assert (Hnum : Forall (fun c => is_num_char c = true) g).
  { eapply Forall_impl; [exact Hg|]. now intros c [? _]. }
  apply extract_chars_fixed.
  - now apply normalize_match_plain.
  - rewrite normalize_match_eq by assumption. apply rstrip_idemp.
Qed.

Lemma extract_chars_no_digit text :
  Forall (fun c => is_digit c = false) text ->
  extract_final_answer_chars text = [].
Proof.
  intros Hno. destruct (extract_chars_normal text) as (g & Hg & ->).
  apply normalize_match_no_digit.
  eapply Forall_impl; [exact Hg|]. simpl. intros c [Hc Hin].
  split; [assumption|].
  now apply (proj1 (Forall_forall _ _) Hno).
Qed.

(** C6. Answer normalization is idempotent: normalizing a normalized value
    returns it unchanged.  It takes ["1,234."] to ["1234"] and ["7.5"] to
    ["7.5"], and a text without a digit to the empty string. *)
Theorem extract_final_answer_idempotent_and_examples :
  (forall text : string,
      extract_final_answer (extract_final_answer text)
      = extract_final_answer text)
  /\ extract_final_answer "1,234." = "1234"
  /\ extract_final_answer "7.5" = "7.5"
  /\ (forall text : string,
        Forall (fun c => is_digit c = false) (chars text) ->
        extract_final_answer text = "").
Proof.
  split; [|split; [|split]].
  - intros text. unfold extract_final_answer.
    now rewrite chars_of_list, extract_chars_idemp.
  - reflexivity.
  - reflexivity.
  - intros text Hno. unfold extract_final_answer.
    now rewrite extract_chars_no_digit.
Qed.

Lemma extract_final_answer_witness :
  Forall (fun c => is_digit c = false) (chars "The answer is unknown.")
  /\ extract_final_answer "The answer is unknown." = "".
Proof.
  assert (H : Forall (fun c => is_digit c = false)
                     (chars "The answer is unknown.")).
  { repeat constructor. }
  split; [exact H|].
  exact (proj2 (proj2 (proj2 extract_final_answer_idempotent_and_examples))
           "The answer is unknown." H).
Defined.

End AnswerFacts.

(** ** The model policy check *)

Module PolicyFacts.
Import Text TextFacts AgentUtils.

Lemma space_not_model_char c : is_space c = true -> is_model_char c = false.
Proof. by_cases_on c. Qed.

Lemma quote_not_space c : is_quote c = true -> is_space c = false.
Proof. by_cases_on c. Qed.

Lemma quote_not_model_char c : is_quote c = true -> is_model_char c = false.
Proof. by_cases_on c. Qed.

Lemma strip_prefix_ci_sound pre s got rest :
  strip_prefix_ci pre s = Some (got, rest) ->
  s = got ++ rest /\ map to_lower got = pre.
Proof.
  revert s got. induction pre as [|p pre IH]; intros s got; simpl.
  - now intros [= <- <-].
  - destruct s as [|c s]; [intros [=]|].
    destruct (Ascii.eqb p (to_lower c)) eqn:Hpc; [|intros [=]].
    destruct (strip_prefix_ci pre s) as [[got' rest']|] eqn:Hrec;
      [|intros [=]].
    intros [= <- <-]. apply IH in Hrec as [-> <-].
    apply Ascii.eqb_eq in Hpc as ->. now split.
Qed.

Lemma strip_prefix_ci_complete got rest :
  strip_prefix_ci (map to_lower got) (got ++ rest) = Some (got, rest).
Proof.
  induction got as [|c got IH]; simpl; [reflexivity|].
  now rewrite Ascii.eqb_refl, IH.
Qed.

(** Takes [map to_lower v = c1 :: ... :: cn :: []] apart into the
    characters of [v] and what their lower case is. *)
Ltac split_lowered H :=
  unfold chars in H; simpl in H;
  repeat match type of H with
  | map to_lower ?v = _ :: _ =>
      let c := fresh "c" in
      let Hc := fresh "Hc" in
      destruct v as [|c v]; [discriminate H|];
      simpl in H; injection H as Hc H
  | map to_lower ?v = [] =>
      destruct v; [clear H | discriminate H]
  end.

Lemma match_vendor_sound s vendor rest :
  match_vendor s = Some (vendor, rest) ->
  s = vendor ++ rest
  /\ map to_lower vendor ∈ [chars "gpt-"; chars "claude-"; chars "gemini-"].
Proof.
  unfold match_vendor.
  destruct (strip_prefix_ci (chars "gpt-") s) as [[v r]|] eqn:H1.
  { intros [= <- <-]. apply strip_prefix_ci_sound in H1 as [-> ->].
    split; [reflexivity | left]. }
  destruct (strip_prefix_ci (chars "claude-") s) as [[v r]|] eqn:H2.
  { intros [= <- <-]. apply strip_prefix_ci_sound in H2 as [-> ->].
    split; [reflexivity | right; left]. }
  intros H3. apply strip_prefix_ci_sound in H3 as [-> ->].
  split; [reflexivity | right; right; left].
Qed.

Lemma match_vendor_complete vendor rest :
  map to_lower vendor ∈ [chars "gpt-"; chars "claude-"; chars "gemini-"] ->
  match_vendor (vendor ++ rest) = Some (vendor, rest).
Proof.
  intros Hv. unfold match_vendor.
  apply elem_of_cons in Hv as [Hv|Hv].
  { now rewrite <- Hv, strip_prefix_ci_complete. }
  apply elem_of_cons in Hv as [Hv|Hv].
  - rewrite <- Hv. rewrite strip_prefix_ci_complete.
    split_lowered Hv.
    cbn [chars list_ascii_of_string strip_prefix_ci app]. now rewrite Hc.
  - apply list_elem_of_singleton in Hv.
    rewrite <- Hv. rewrite strip_prefix_ci_complete.
    split_lowered Hv.
    cbn [chars list_ascii_of_string strip_prefix_ci app].
    now rewrite Hc, Hc0.
Qed.

(** The matcher of the pattern finds the declarations of the
    specification, and nothing else. *)
Lemma match_model_sound s literal len :
  match_model s = Some (literal, len) -> model_declaration s literal len.
Proof.
  unfold match_model.
  destruct (strip_prefix_ci (chars "model") s) as [[kw r]|] eqn:Hkw;
    [|intros [=]].
  destruct (span is_space r) as [ws1 r1] eqn:Hws1.
  destruct r1 as [|eq r2]; [intros [=]|].
  destruct (Ascii.eqb eq "=") eqn:Heq; [|intros [=]].
  destruct (span is_space r2) as [ws2 r3] eqn:Hws2.
  destruct r3 as [|q1 r4]; [intros [=]|].
  destruct (is_quote q1) eqn:Hq1; [|intros [=]].
  destruct (match_vendor r4) as [[vendor r5]|] eqn:Hvendor; [|intros [=]].
  destruct (span is_model_char r5) as [body r6] eqn:Hbody.
  destruct body as [|b body]; [intros [=]|].
  destruct r6 as [|q2 rest]; [intros [=]|].
  destruct (is_quote q2) eqn:Hq2; intros [= <- <-].
  apply strip_prefix_ci_sound in Hkw as [-> Hkw].
  apply Ascii.eqb_eq in Heq as ->.
  apply match_vendor_sound in Hvendor as [-> Hvendor].
  pose proof (span_all _ _ _ _ Hws1) as Hs1. apply span_app in Hws1 as ->.
  pose proof (span_all _ _ _ _ Hws2) as Hs2. apply span_app in Hws2 as ->.
  pose proof (span_all _ _ _ _ Hbody) as Hb. apply span_app in Hbody as ->.
  now apply (model_declaration_intro kw ws1 ws2 q1 vendor (b :: body) q2 rest).
Qed.

Lemma match_model_complete s literal len :
  model_declaration s literal len -> match_model s = Some (literal, len).
Proof.
  intros [kw ws1 ws2 q1 vendor body q2 rest Hkw Hs1 Hs2 Hq1 Hvendor Hne Hb Hq2].
  unfold match_model.
  rewrite <- Hkw, strip_prefix_ci_complete.
  rewrite (span_exact is_space ws1 _ Hs1) by reflexivity.
  rewrite Ascii.eqb_refl.
  rewrite (span_exact is_space ws2 _ Hs2) by now apply quote_not_space.
  rewrite Hq1, (match_vendor_complete _ _ Hvendor).
  rewrite (span_exact is_model_char body _ Hb)
    by now apply quote_not_model_char.
  destruct body as [|b body]; [contradiction|]. now rewrite Hq2.
Qed.

(** *** Two matches of the pattern never overlap *)

Lemma space_in_head c : is_space c = true -> in_head c = true.
Proof. unfold in_head. now intros ->. Qed.

Lemma space_not_m c : is_space c = true -> not_m c = true.
Proof. by_cases_on c. Qed.

Lemma space_not_eq c : is_space c = true -> not_eq c = true.
Proof. by_cases_on c. Qed.

Lemma quote_not_eq c : is_quote c = true -> not_eq c = true.
Proof. by_cases_on c. Qed.

Lemma quote_not_in_head c : is_quote c = true -> in_head c = false.
Proof. by_cases_on c. Qed.

Lemma model_char_not_eq c : is_model_char c = true -> not_eq c = true.
Proof. by_cases_on c. Qed.

Lemma lowered_not_eq c :
  Ascii.eqb (to_lower c) "=" = false -> not_eq c = true.
Proof. by_cases_on c. Qed.

Lemma lowered_in_head c :
  existsb (Ascii.eqb (to_lower c)) (chars "model") = true -> in_head c = true.
Proof. unfold in_head. intros ->. apply orb_true_r. Qed.

Lemma match_model_head c s : not_m c = true -> match_model (c :: s) = None.
Proof.
  unfold not_m, match_model. intros H.
  change (chars "model") with ("m"%char :: chars "odel").
  cbn [strip_prefix_ci]. apply negb_true_iff in H. now rewrite H.
Qed.

Lemma vendor_not_eq vendor :
  map to_lower vendor ∈ [chars "gpt-"; chars "claude-"; chars "gemini-"] ->
  Forall (fun c => not_eq c = true) vendor.
Proof.
  intros Hv.
  assert (Hall : Forall (fun c => Ascii.eqb c "=" = false)
                        (map to_lower vendor)).
  { apply elem_of_cons in Hv as [->|Hv]; [repeat constructor|].
    apply elem_of_cons in Hv as [->|Hv]; [repeat constructor|].
    apply list_elem_of_singleton in Hv as ->. repeat constructor. }
  apply Forall_map in Hall.
  eapply Forall_impl; [exact Hall|]. apply lowered_not_eq.
Qed.

(** A text that matches starts with letters of the key and white space up
    to its first [=]. *)
Lemma match_model_prefix s literal len :
  match_model s = Some (literal, len) ->
  exists h t, s = h ++ "="%char :: t /\ Forall (fun c => in_head c = true) h.
Proof.
  intros H. apply match_model_sound in H.
  destruct H as [kw ws1 ws2 q1 vendor body q2 rest Hkw Hs1 _ _ _ _ _ _].
  exists (kw ++ ws1), (ws2 ++ q1 :: vendor ++ body ++ q2 :: rest).
  split; [now rewrite <- List.app_assoc|].
  apply Forall_app. split.
  - split_lowered Hkw. repeat constructor; apply lowered_in_head.
    + now rewrite Hc.
    + now rewrite Hc0.
    + now rewrite Hc1.
    + now rewrite Hc2.
    + now rewrite Hc3.
  - eapply Forall_impl; [exact Hs1 | apply space_in_head].
Qed.

(** The same text cannot be cut before a quote and before the first [=]. *)
Lemma split_conflict (u h : list ascii) q rest t :
  u ++ q :: rest = h ++ "="%char :: t ->
  Forall (fun c => not_eq c = true) u ->
  not_eq q = true ->
  Forall (fun c => in_head c = true) h ->
  in_head q = false ->
  False.
Proof.
  revert h. induction u as [|a u IH]; intros h Heq Hu Hq Hh Hqh; simpl in Heq.
  - destruct h as [|x h]; simpl in Heq; injection Heq as -> _.
    + discriminate Hq.
    + inversion Hh; congruence.
  - inversion Hu as [|a' u' Ha Hu']; subst.
    destruct h as [|x h]; simpl in Heq; injection Heq as -> Heq.
    + discriminate Ha.
    + inversion Hh; subst. now apply (IH h).
Qed.

Lemma match_model_no_overlap s literal len j :
  match_model s = Some (literal, len) ->
  0 < j < len ->
  match_model (drop j s) = None.
Proof.
  intros H Hj. apply match_model_sound in H.
  destruct H as [kw ws1 ws2 q1 vendor body q2 rest Hkw Hs1 Hs2 Hq1 Hvendor
                 Hne Hb Hq2].
  split_lowered Hkw.
  set (front := [c0; c1; c2; c3] ++ ws1 ++ ["="%char]).
  set (mid := ws2 ++ q1 :: vendor ++ body).
  assert (Hs : [c; c0; c1; c2; c3] ++ ws1
               ++ "="%char :: ws2 ++ q1 :: vendor ++ body ++ q2 :: rest
               = c :: front ++ mid ++ q2 :: rest).
  { unfold front, mid. simpl. do 5 f_equal.
    rewrite <- !List.app_assoc. simpl. do 2 f_equal.
    now rewrite <- !List.app_assoc. }
  rewrite Hs. clear Hs.
  assert (Hfront : Forall (fun c => not_m c = true) front).
  { unfold front. apply Forall_app. split.
    - unfold not_m. repeat constructor.
      + now rewrite Hc0.
      + now rewrite Hc1.
      + now rewrite Hc2.
      + now rewrite Hc3.
    - apply Forall_app. split; [|repeat constructor].
      eapply Forall_impl; [exact Hs1 | apply space_not_m]. }
  assert (Hmid : Forall (fun c => not_eq c = true) mid).
  { unfold mid. apply Forall_app. split.
    - eapply Forall_impl; [exact Hs2 | apply space_not_eq].
    - constructor; [now apply quote_not_eq|].
      apply Forall_app. split; [now apply vendor_not_eq|].
      eapply Forall_impl; [exact Hb | apply model_char_not_eq]. }
  assert (Hlen : length front = 4 + length ws1 + 1
                 /\ length mid
                    = length ws2 + 1 + length vendor + length body).
  { unfold front, mid. rewrite !length_app. simpl. rewrite length_app.
    split; lia. }
  clearbody front mid. destruct Hlen as [Hlf Hlm]. simpl in Hj.
  destruct j as [|j]; [lia|]. cbn [drop].
  destruct (decide (j < length front)) as [Hlt|Hge].
  - rewrite drop_app_le by lia.
    destruct (drop j front) as [|x tl] eqn:Hdrop.
    { apply (f_equal length) in Hdrop. rewrite length_drop in Hdrop.
      simpl in Hdrop. lia. }
    simpl. apply match_model_head.
    apply (proj1 (Forall_forall _ _) Hfront).
    apply (subseteq_drop j front). rewrite Hdrop. left.
  - rewrite drop_app_ge by lia.
    rewrite drop_app_le by lia.
    destruct (match_model (drop (j - length front) mid ++ q2 :: rest))
      as [[lit' len']|] eqn:Hmatch; [|reflexivity].
    exfalso. apply match_model_prefix in Hmatch as (h & t & Heq & Hh).
    apply (split_conflict _ _ _ _ _ Heq).
    + now apply Forall_drop.
    + now apply quote_not_eq.
    + exact Hh.
    + now apply quote_not_in_head.
Qed.

Lemma match_model_non_overlapping : non_overlapping match_model.
Proof. intros s g len j. apply match_model_no_overlap. Qed.

(** The literals [findall] reports are those of the declarations in the
    text. *)
Lemma findall_model_declares text literal :
  literal ∈ findall match_model text <-> declares_model text literal.
Proof.
  split.
  - intros Hin. apply findall_sound in Hin as (pre & s & len & -> & Hm).
    exists pre, s, len. split; [reflexivity | now apply match_model_sound].
  - intros (pre & s & len & -> & Hdecl).
    apply (findall_complete match_model _ pre s literal len);
      [exact match_model_non_overlapping | reflexivity | reflexivity|].
    now apply match_model_complete.
Qed.

Lemma lowered_not_space c : is_space (to_lower c) = false -> is_space c = false.
Proof. by_cases_on c. Qed.

Lemma model_char_not_space c : is_model_char c = true -> is_space c = false.
Proof. by_cases_on c. Qed.

(** A declared literal has no white space: [strip] leaves it as it is. *)
Lemma declared_literal_strip s literal len :
  model_declaration s literal len -> strip literal = literal.
Proof.
  intros [kw ws1 ws2 q1 vendor body q2 rest _ _ _ _ Hvendor _ Hb _].
  apply strip_none, Forall_app. split.
  - assert (Hall : Forall (fun c => is_space c = false)
                          (map to_lower vendor)).
    { apply elem_of_cons in Hvendor as [->|Hv]; [repeat constructor|].
      apply elem_of_cons in Hv as [->|Hv]; [repeat constructor|].
      apply list_elem_of_singleton in Hv as ->. repeat constructor. }
    apply Forall_map in Hall.
    eapply Forall_impl; [exact Hall | apply lowered_not_space].
  - eapply Forall_impl; [exact Hb | apply model_char_not_space].
Qed.

Lemma forallb_false {A} (f : A -> bool) (l : list A) :
  forallb f l = false <-> exists x, x ∈ l /\ f x = false.
Proof.
  induction l as [|a l IH]; simpl.
  - split; [discriminate|]. intros (x & Hx & _). inversion Hx.
  - rewrite andb_false_iff, IH. split.
    + intros [Ha|(x & Hx & Hf)].
      * exists a. split; [left | assumption].
      * exists x. split; [now right | assumption].
    + intros (x & Hx & Hf). apply elem_of_cons in Hx as [->|Hx].
      * now left.
      * right. now exists x.
Qed.

Lemma chars_app s1 s2 : chars (s1 +:+ s2) = chars s1 ++ chars s2.
Proof.
  unfold chars. induction s1 as [|c s1 IH]; simpl; [reflexivity|].
  now rewrite IH.
Qed.

(** What [validate_agent_model_usage] decides, in terms of declarations. *)
Lemma validate_agent_model_usage_false code_string allowed_model :
  validate_agent_model_usage code_string allowed_model = false
  <-> exists literal,
        declares_model (chars code_string) literal
        /\ literal <> strip (chars allowed_model).
Proof.
  unfold validate_agent_model_usage.
  assert (Hforall :
    forallb (fun model =>
               if decide (strip model = strip (chars allowed_model))
               then true else false)
            (findall match_model (chars code_string)) = false
    <-> exists literal,
          declares_model (chars code_string) literal
          /\ literal <> strip (chars allowed_model)).
  { rewrite forallb_false. split.
    - intros (literal & Hin & Hne).
      apply findall_model_declares in Hin as Hdecl.
      exists literal. split; [assumption|].
      destruct Hdecl as (pre & s & len & _ & Hdecl).
      rewrite (declared_literal_strip _ _ _ Hdecl) in Hne.
      now destruct (decide (literal = strip (chars allowed_model))).
    - intros (literal & Hdecl & Hne). exists literal.
      split; [now apply findall_model_declares|].
      destruct Hdecl as (pre & s & len & _ & Hdecl).
      rewrite (declared_literal_strip _ _ _ Hdecl).
      now destruct (decide (literal = strip (chars allowed_model))). }
  destruct (findall match_model (chars code_string)) as [|g l] eqn:Hfound;
    [|exact Hforall].
  rewrite <- Hforall. simpl. reflexivity.
Qed.

Import AnswerFacts PolicySpec.

(** The notion of the specification against the pattern of the code: a
    binding of the key [model] is a match of the pattern. *)
Lemma spec_vendor_prefixed_split literal :
  spec_vendor_prefixed literal = true ->
  exists vendor body,
    literal = vendor ++ body
    /\ map to_lower vendor ∈ [chars "gpt-"; chars "claude-"; chars "gemini-"]
    /\ body <> [].
Proof.
  unfold spec_vendor_prefixed. cbn [existsb]. rewrite orb_false_r.
  intros H. apply orb_true_iff in H as [H|H];
    [|apply orb_true_iff in H as [H|H]].
  - destruct (strip_prefix (chars "gpt-") literal) as [[|b body]|] eqn:Hv;
      try discriminate.
    apply strip_prefix_app in Hv. exists (chars "gpt-"), (b :: body).
    split; [exact Hv|]. split; [|discriminate].
    apply elem_of_cons. left. reflexivity.
  - destruct (strip_prefix (chars "claude-") literal) as [[|b body]|] eqn:Hv;
      try discriminate.
    apply strip_prefix_app in Hv. exists (chars "claude-"), (b :: body).
    split; [exact Hv|]. split; [|discriminate].
    apply elem_of_cons. right. apply elem_of_cons. left. reflexivity.
  - destruct (strip_prefix (chars "gemini-") literal) as [[|b body]|] eqn:Hv;
      try discriminate.
    apply strip_prefix_app in Hv. exists (chars "gemini-"), (b :: body).
    split; [exact Hv|]. split; [|discriminate].
    apply elem_of_cons. right. apply elem_of_cons. right.
    apply elem_of_cons. left. reflexivity.
Qed.

Lemma spec_binding_declaration s literal :
  spec_binding s = Some literal -> exists len, model_declaration s literal len.
Proof.
  unfold spec_binding.
  destruct (strip_prefix (chars "model") s) as [r|] eqn:Hkw; [|intros [=]].
  destruct (span is_space r) as [ws1 r1] eqn:Hws1.
  destruct r1 as [|eq r2]; [intros [=]|].
  destruct (Ascii.eqb eq "=") eqn:Heq; [|intros [=]].
  destruct (span is_space r2) as [ws2 r3] eqn:Hws2.
  destruct r3 as [|q1 r4]; [intros [=]|].
  destruct (is_quote q1) eqn:Hq1; [|intros [=]].
  destruct (span is_model_char r4) as [lit r5] eqn:Hlit.
  destruct r5 as [|q2 r6]; [intros [=]|].
  destruct (Ascii.eqb q1 q2) eqn:Hq2; [|intros [=]].
  destruct (spec_vendor_prefixed lit) eqn:Hvendor; intros [= <-].
  apply Ascii.eqb_eq in Heq as ->. apply Ascii.eqb_eq in Hq2 as <-.
  apply spec_vendor_prefixed_split in Hvendor
    as (vendor & body & -> & Hvendor & Hbody).
  pose proof (span_all _ _ _ _ Hws1) as Hs1.
  pose proof (span_all _ _ _ _ Hws2) as Hs2.
  pose proof (span_all _ _ _ _ Hlit) as Hchars.
  apply Forall_app in Hchars as [_ Hchars].
  apply span_app in Hws1, Hws2, Hlit. apply strip_prefix_app in Hkw.
  subst s r r2 r4. rewrite <- List.app_assoc.
  eexists.
  apply (model_declaration_intro (chars "model") ws1 ws2 q1 vendor body q1
           r6); try assumption. reflexivity.
Qed.

Lemma spec_bindings_from_declares s :
  forall at_name_start literal,
    literal ∈ spec_bindings_from at_name_start s ->
    declares_model s literal.
Proof.
  induction s as [|c s IH]; intros at_name_start literal; cbn [spec_bindings_from].
  - intros Hin. inversion Hin.
  - intros Hin. apply elem_of_app in Hin as [Hin|Hin].
    + destruct at_name_start; [|inversion Hin].
      destruct (spec_binding (c :: s)) as [found|] eqn:Hfound;
        [|inversion Hin].
      apply list_elem_of_singleton in Hin as ->.
      destruct (spec_binding_declaration _ _ Hfound) as [len Hdecl].
      now exists [], (c :: s), len.
    + destruct (IH _ _ Hin) as (pre & s' & len & -> & Hdecl).
      now exists (c :: pre), s', len.
Qed.

(** A match of the pattern holds [=]. *)
Lemma declares_model_equals text literal :
  declares_model text literal -> "="%char ∈ text.
Proof.
  intros (pre & s & len & -> & Hdecl).
  destruct Hdecl as [kw ws1 ws2 q1 vendor body q2 rest _ _ _ _ _ _ _ _].
  apply elem_of_app. right. apply elem_of_app. right.
  apply elem_of_app. right. left.
Qed.

(** C7, as the code has it.  The policy check discards a proposal exactly
    when the pattern of the code matches somewhere in its text with a
    literal different from the sanctioned model string with the white space
    around that string removed: the letters [model] in any case, also at the
    end of a longer name, [=] with optional white space around it, and
    between two quote characters a vendor prefix in any case followed by
    characters of a model name.  A proposal that contains [model="claude-x"]
    (with double quotes) is discarded when the sanctioned model is
    [gpt-4o-mini]; a proposal in which every literal so matched is
    [gpt-4o-mini] passes then, and a proposal without a match passes for
    every sanctioned model.  What the check of the specification discards,
    a literal bound to a key named [model] that differs from a sanctioned
    string without white space around it, the code discards, and a text
    without [=] always passes. *)
Theorem validate_agent_model_usage_policy :
  (forall code_string allowed_model,
      validate_agent_model_usage code_string allowed_model = false
      <-> exists literal,
            declares_model (chars code_string) literal
            /\ literal <> strip (chars allowed_model))
  /\ (forall before after,
        validate_agent_model_usage
          (before +:+ "model=" +:+ quoted "claude-x" +:+ after)
          "gpt-4o-mini" = false)
  /\ (forall code_string,
        (forall literal,
            declares_model (chars code_string) literal ->
            literal = chars "gpt-4o-mini") ->
        validate_agent_model_usage code_string "gpt-4o-mini" = true)
  /\ (forall code_string allowed_model,
        (forall literal, ~ declares_model (chars code_string) literal) ->
        validate_agent_model_usage code_string allowed_model = true)
  /\ (forall code_string allowed_model,
        strip (chars allowed_model) = chars allowed_model ->
        spec_policy_check code_string allowed_model = false ->
        validate_agent_model_usage code_string allowed_model = false)
  /\ (forall code_string allowed_model,
        "="%char ∉ chars code_string ->
        validate_agent_model_usage code_string allowed_model = true).
Proof.
  split; [exact validate_agent_model_usage_false|].
  split; [|split; [|split; [|split]]].
  5: { intros code_string allowed_model Hno.
       destruct (validate_agent_model_usage code_string allowed_model)
         eqn:Hv; [reflexivity|].
       apply validate_agent_model_usage_false in Hv as (literal & Hdecl & _).
       now apply declares_model_equals in Hdecl. }
  4: { intros code_string allowed_model Hstrip Hspec.
       apply validate_agent_model_usage_false.
       unfold spec_policy_check in Hspec.
       apply forallb_false in Hspec as (literal & Hin & Hne).
       exists literal. split.
       - unfold spec_declared_literals in Hin.
         now apply spec_bindings_from_declares in Hin.
       - rewrite Hstrip. now apply bool_decide_eq_false in Hne. }
  - intros before after. apply validate_agent_model_usage_false.
    exists (chars "claude-x"). split; [|vm_compute; discriminate].
    exists (chars before), (chars ("model=" +:+ quoted "claude-x" +:+ after)).
    eexists. split; [now rewrite chars_app|].
    apply (model_declaration_intro (chars "model") [] [] dquote
             (chars "claude-") (chars "x") dquote (chars after)).
    + reflexivity.
    + constructor.
    + constructor.
    + reflexivity.
    + apply elem_of_cons. right. apply elem_of_cons. left. reflexivity.
    + discriminate.
    + repeat constructor.
    + reflexivity.
  - intros code_string Honly.
    destruct (validate_agent_model_usage code_string "gpt-4o-mini") eqn:Hv;
      [reflexivity|].
    apply validate_agent_model_usage_false in Hv as (literal & Hdecl & Hne).
    exfalso. apply Hne. now rewrite (Honly literal Hdecl).
  - intros code_string allowed_model Hnone.
    destruct (validate_agent_model_usage code_string allowed_model) eqn:Hv;
      [reflexivity|].
    apply validate_agent_model_usage_false in Hv as (literal & Hdecl & _).
    now destruct (Hnone literal).
Qed.

Lemma validate_agent_model_usage_policy_witness :
  (forall literal,
      declares_model (chars "llm = ChatOpenAI(model='gpt-4o-mini')") literal ->
      literal = chars "gpt-4o-mini")
  /\ validate_agent_model_usage "llm = ChatOpenAI(model='gpt-4o-mini')"
       "gpt-4o-mini" = true
  /\ (forall literal, ~ declares_model (chars "x = 1") literal)
  /\ validate_agent_model_usage "x = 1" "claude-3" = true.
Proof.
  assert (Honly : forall literal,
             declares_model (chars "llm = ChatOpenAI(model='gpt-4o-mini')")
               literal ->
             literal = chars "gpt-4o-mini").
  { intros literal Hdecl. apply findall_model_declares in Hdecl.
    vm_compute in Hdecl. apply list_elem_of_singleton in Hdecl. exact Hdecl. }
  assert (Hnone : forall literal, ~ declares_model (chars "x = 1") literal).
  { intros literal Hdecl. apply findall_model_declares in Hdecl.
    vm_compute in Hdecl. inversion Hdecl. }
  split; [exact Honly|]. split.
  - exact (proj1 (proj2 (proj2 validate_agent_model_usage_policy)) _ Honly).
  - split; [exact Hnone|].
    exact (proj1 (proj2 (proj2 (proj2 validate_agent_model_usage_policy)))
             _ "claude-3" Hnone).
Defined.

(** The claim C7 as it is stated fails on the code, with the declarations
    of the specification ([spec_declared_literals]).  A text whose only
    binding is to the key [meta_model] binds no literal to a key named
    [model] and is discarded.  A text that binds the sanctioned
    [gpt-4o-mini] to [model] and another literal to [judge_model] has no
    other literal bound to [model] than the sanctioned one and is
    discarded.  With a sanctioned string that ends in a space, a text that
    binds [gpt-4o-mini] to [model] holds a literal different from the
    sanctioned string and passes.  So the code does not discard exactly the
    proposals the claim names. *)
Lemma policy_check_is_not_the_specified_one :
  (spec_declared_literals (chars "meta_model = 'gpt-4o'") = []
   /\ spec_policy_check "meta_model = 'gpt-4o'" "gpt-4o-mini" = true
   /\ validate_agent_model_usage "meta_model = 'gpt-4o'" "gpt-4o-mini"
      = false)
  /\ (spec_declared_literals
        (chars "model='gpt-4o-mini'; judge_model='gpt-4o'")
      = [chars "gpt-4o-mini"]
      /\ spec_policy_check "model='gpt-4o-mini'; judge_model='gpt-4o'"
           "gpt-4o-mini" = true
      /\ validate_agent_model_usage
           "model='gpt-4o-mini'; judge_model='gpt-4o'" "gpt-4o-mini"
         = false)
  /\ (spec_declared_literals (chars "model='gpt-4o-mini'")
      = [chars "gpt-4o-mini"]
      /\ spec_policy_check "model='gpt-4o-mini'" "gpt-4o-mini " = false
      /\ validate_agent_model_usage "model='gpt-4o-mini'" "gpt-4o-mini "
         = true)
  /\ ~ (forall code_string allowed_model,
          validate_agent_model_usage code_string allowed_model = false
          <-> spec_policy_check code_string allowed_model = false).
Proof.
  split; [repeat split; vm_compute; reflexivity|].
  split; [repeat split; vm_compute; reflexivity|].
  split; [repeat split; vm_compute; reflexivity|].
  intros H.
  assert (Hcode : validate_agent_model_usage "meta_model = 'gpt-4o'"
                    "gpt-4o-mini" = false) by (vm_compute; reflexivity).
  apply H in Hcode. vm_compute in Hcode. discriminate.
Qed.

End PolicyFacts.

(** ** The evaluation harness *)

Module EvaluationFacts.
Import Text AgentUtils Model Evaluation.

Section Facts.
Context {Ext : Type}.
Local Abbreviation World := (World Ext).
Local Abbreviation Runner := (Runner Ext).
Local Abbreviation AgentModule := (AgentModule Ext).

(** The test both loops make is the criterion [is_success]. *)
Lemma success_test sample agent_answer_raw :
  String.eqb (extract_final_answer agent_answer_raw)
             (extract_final_answer (answer sample))
  && negb (String.eqb (extract_final_answer (answer sample)) "")
  = bool_decide (is_success sample agent_answer_raw).
Proof.
  unfold is_success.
  destruct (String.eqb_spec (extract_final_answer agent_answer_raw)
                            (extract_final_answer (answer sample))) as [He|He];
  destruct (String.eqb_spec (extract_final_answer (answer sample)) "")
    as [Hn|Hn]; simpl; symmetry.
  - apply bool_decide_eq_false. tauto.
  - apply bool_decide_eq_true. tauto.
  - apply bool_decide_eq_false. tauto.
  - apply bool_decide_eq_false. tauto.
Qed.

Lemma run_all_samples (agent_runner : Runner) samples w :
  map fst (fst (run_all agent_runner samples w)) = samples.
Proof.
  revert w. induction samples as [|sample rest IH]; intros w; simpl;
    [reflexivity|].
  destruct (agent_runner (question sample) w) as [o w'].
  specialize (IH w'). destruct (run_all agent_runner rest w') as [os w''].
  simpl in *. now rewrite IH.
Qed.

Lemma count_successes_cons sample o processed :
  count_successes ((sample, o) :: processed)
  = (if decide (succeeded sample o) then 1 else 0) + count_successes processed.
Proof.
  unfold count_successes. rewrite filter_cons. simpl.
  now destruct (decide (succeeded sample o)).
Qed.

Lemma evaluate_loop_counts (agent_runner : Runner) dataset n w :
  evaluate_loop agent_runner dataset n w
  = (n + count_successes (fst (run_all agent_runner dataset w)),
     snd (run_all agent_runner dataset w)).
Proof.
  revert n w. induction dataset as [|sample rest IH]; intros n w; simpl.
  - unfold count_successes. simpl. f_equal. lia.
  - destruct (agent_runner (question sample) w) as [o w'] eqn:Hrun.
    specialize (IH (S n) w') as IHs. specialize (IH n w') as IHn.
    destruct (run_all agent_runner rest w') as [os w''].
    simpl in *. rewrite count_successes_cons.
    destruct o as [a|tb]; simpl.
    + rewrite success_test.
      destruct (decide (is_success sample a)) as [Hs|Hs].
      * rewrite bool_decide_eq_true_2 by assumption. rewrite IHs.
        f_equal. lia.
      * rewrite bool_decide_eq_false_2 by assumption. now rewrite IHn.
    + now rewrite IHn.
Qed.

(** C2. [evaluate_agent_on_dataset] returns 0 for a candidate that is absent
    or has no [run_agent] and for an empty split.  Otherwise every sample of
    the split is run, in order, also after a run that raised; a sample counts
    as a success exactly when the normalized output equals the normalized
    reference and that reference is not empty (a run that raised never
    counts), and the score is the number of successes divided by the size of
    the split. *)
Theorem evaluate_agent_on_dataset_accuracy :
  (forall dataset (w : World),
      evaluate_agent_on_dataset None dataset w = (0%Q, w))
  /\ (forall (m : AgentModule) dataset w,
        run_agent m = None ->
        evaluate_agent_on_dataset (Some m) dataset w = (0%Q, w))
  /\ (forall (agent_module : option AgentModule) w,
        evaluate_agent_on_dataset agent_module [] w = (0%Q, w))
  /\ (forall (m : AgentModule) agent_runner dataset w,
        run_agent m = Some agent_runner ->
        (0 < length dataset)%nat ->
        let processed := fst (run_all agent_runner dataset w) in
        let result := evaluate_agent_on_dataset (Some m) dataset w in
        map fst processed = dataset
        /\ (fst result ==
             inject_Z (Z.of_nat (count_successes processed))
             / inject_Z (Z.of_nat (length dataset)))%Q
        /\ snd result = snd (run_all agent_runner dataset w)).
Proof.
  split; [|split; [|split]].
  - reflexivity.
  - intros m dataset w Hm. unfold evaluate_agent_on_dataset. now rewrite Hm.
  - intros [m|] w; [|reflexivity].
    unfold evaluate_agent_on_dataset. now destruct (run_agent m).
  - intros m agent_runner dataset w Hm Hlen processed result.
    split; [apply run_all_samples|].
    subst result. unfold evaluate_agent_on_dataset. rewrite Hm.
    destruct (Nat.eqb_spec (length dataset) 0) as [H0|H0]; [lia|].
    rewrite evaluate_loop_counts. simpl. split; [|reflexivity].
    rewrite Qmake_Qdiv. fold processed.
    replace (Z.pos (Pos.of_nat (length dataset)))
      with (Z.of_nat (length dataset)); [reflexivity|].
    destruct (length dataset) as [|n]; [lia|].
    now rewrite <- Pos.of_nat_succ, Zpos_P_of_succ_nat, Nat2Z.inj_succ.
Qed.

Lemma failures_of_app l1 l2 :
  failures_of (l1 ++ l2) = failures_of l1 ++ failures_of l2.
Proof. unfold failures_of. now rewrite filter_app, map_app. Qed.

Lemma successes_of_app l1 l2 :
  successes_of (l1 ++ l2) = successes_of l1 ++ successes_of l2.
Proof. unfold successes_of. now rewrite filter_app, map_app. Qed.

Lemma failures_of_cons so processed :
  failures_of (so :: processed)
  = (if decide (succeeded (fst so) (snd so)) then [] else [example_of so])
    ++ failures_of processed.
Proof.
  unfold failures_of. rewrite filter_cons.
  destruct (decide (succeeded (fst so) (snd so))) as [Hs|Hs].
  - now rewrite decide_False by tauto.
  - now rewrite decide_True by assumption.
Qed.

Lemma successes_of_cons so processed :
  successes_of (so :: processed)
  = (if decide (succeeded (fst so) (snd so)) then [example_of so] else [])
    ++ successes_of processed.
Proof.
  unfold successes_of. rewrite filter_cons.
  now destruct (decide (succeeded (fst so) (snd so))).
Qed.

(** One turn of the loop of [find_failures_on_train] below the limit: the
    sample is run and its entry goes to the end of one of the two lists. *)
Lemma find_failures_loop_step (agent_runner : Runner) sample rest
    max_failures failures successes w o w' :
  (Z.of_nat (length failures) < max_failures)%Z ->
  agent_runner (question sample) w = (o, w') ->
  find_failures_loop agent_runner (sample :: rest) max_failures
    failures successes w
  = find_failures_loop agent_runner rest max_failures
      (failures ++ failures_of [(sample, o)])
      (successes ++ successes_of [(sample, o)]) w'.
Proof.
  intros Hlim Hrun. cbn [find_failures_loop].
  destruct (Z.geb_spec (Z.of_nat (length failures)) max_failures) as [?|_];
    [lia|].
  rewrite Hrun, failures_of_cons, successes_of_cons. cbn [fst snd].
  change (failures_of []) with (@nil Example).
  change (successes_of []) with (@nil Example).
  rewrite !app_nil_r.
  destruct o as [a|tb]; cbn [succeeded].
  - rewrite success_test. unfold example_of.
    destruct (decide (is_success sample a)) as [Hs|Hs].
    + rewrite bool_decide_eq_true_2 by assumption. now rewrite app_nil_r.
    + rewrite bool_decide_eq_false_2 by assumption. now rewrite app_nil_r.
  - rewrite decide_False by tauto. now rewrite app_nil_r.
Qed.

(** What the loop of [find_failures_on_train] returns from given lists: it
    runs the first [n] samples, stops at the end of the split or with the
    limit reached, and not before. *)
Lemma find_failures_loop_processed (agent_runner : Runner) max_failures
    samples failures successes w :
  exists n,
    let run := run_all agent_runner (take n samples) w in
    n <= length samples
    /\ find_failures_loop agent_runner samples max_failures
         failures successes w
       = (failures ++ failures_of (fst run),
          successes ++ successes_of (fst run), snd run)
    /\ (n = length samples
        \/ (max_failures
            <= Z.of_nat (length failures + length (failures_of (fst run))))%Z)
    /\ (forall k, k < n ->
          (Z.of_nat (length failures
                     + length (failures_of (take k (fst run))))
           < max_failures)%Z).
Proof.
  revert failures successes w.
  induction samples as [|sample rest IH]; intros failures successes w.
  { exists 0. simpl. rewrite !app_nil_r. repeat split; auto; intros; lia. }
  destruct (Z.geb_spec (Z.of_nat (length failures)) max_failures) as [Hge|Hlt].
  { exists 0. cbn [find_failures_loop take run_all fst snd].
    destruct (Z.geb_spec (Z.of_nat (length failures)) max_failures); [|lia].
    unfold failures_of, successes_of. simpl. rewrite !app_nil_r.
    repeat split; [lia | right; lia | intros; lia]. }
  destruct (agent_runner (question sample) w) as [o w'] eqn:Hrun.
  rewrite (find_failures_loop_step _ _ _ _ _ _ _ o w' Hlt Hrun).
  destruct (IH (failures ++ failures_of [(sample, o)])
               (successes ++ successes_of [(sample, o)]) w')
    as (n & Hn & Heq & Hstop & Hmin).
  exists (S n). cbn [take run_all]. rewrite Hrun.
  destruct (run_all agent_runner (take n rest) w') as [processed w''].
  cbn [fst snd] in *.
  assert (Hf : forall l, failures_of ((sample, o) :: l)
                         = failures_of [(sample, o)] ++ failures_of l).
  { intros l. apply (failures_of_app [(sample, o)] l). }
  assert (Hs : forall l, successes_of ((sample, o) :: l)
                         = successes_of [(sample, o)] ++ successes_of l).
  { intros l. apply (successes_of_app [(sample, o)] l). }
  split; [simpl; lia|]. split; [|split].
  - rewrite Heq, (Hf processed), (Hs processed).
    now rewrite <- !List.app_assoc.
  - destruct Hstop as [->|Hstop]; [now left|]. right.
    rewrite (Hf processed). rewrite !length_app in *. lia.
  - intros [|k] Hk.
    + change (failures_of (take 0 ((sample, o) :: processed)))
        with (@nil Example). simpl. lia.
    + cbn [take]. rewrite (Hf (take k processed)).
      specialize (Hmin k ltac:(lia)).
      rewrite !length_app in *. lia.
Qed.

Lemma run_all_outcomes (agent_runner : Runner) samples w sample o :
  (sample, o) ∈ fst (run_all agent_runner samples w) ->
  sample ∈ samples
  /\ exists w0, o = fst (agent_runner (question sample) w0).
Proof.
  revert w. induction samples as [|s rest IH]; intros w; simpl.
  - intros H. inversion H.
  - destruct (agent_runner (question s) w) as [o' w'] eqn:Hrun.
    specialize (IH w'). destruct (run_all agent_runner rest w') as [os w''].
    simpl in *. intros H. apply elem_of_cons in H as [[= -> ->]|H].
    + split; [left|]. exists w. now rewrite Hrun.
    + destruct (IH H) as [Hin Hw]. split; [now right | assumption].
Qed.

Lemma all_failed processed :
  Forall (fun so => ~ succeeded (fst so) (snd so)) processed ->
  failures_of processed = map example_of processed
  /\ successes_of processed = [].
Proof.
  induction 1 as [|so l Hso _ [IHf IHs]]; [split; reflexivity|].
  rewrite failures_of_cons, successes_of_cons, IHf, IHs.
  now rewrite !decide_False by assumption.
Qed.

(** Each processed sample has its entry in exactly one of the two lists. *)
Lemma failures_successes_partition processed :
  failures_of processed ++ successes_of processed
  ≡ₚ map example_of processed.
Proof.
  unfold failures_of, successes_of. rewrite <- map_app.
  apply fmap_Permutation.
  rewrite (Permutation_app_comm _ _).
  apply (filter_app_complement (fun so => succeeded (fst so) (snd so))).
Qed.

Lemma find_failures_on_train_processed (E : Env Ext) (m : AgentModule)
    agent_runner train_dataset max_failures w shuffled w1 :
  run_agent m = Some agent_runner ->
  shuffle E train_dataset w = (shuffled, w1) ->
  exists n,
    let run := run_all agent_runner (take n shuffled) w1 in
    n <= length shuffled
    /\ find_failures_on_train E (Some m) train_dataset max_failures w
       = (failures_of (fst run), successes_of (fst run), snd run)
    /\ (n = length shuffled
        \/ (max_failures <= Z.of_nat (length (failures_of (fst run))))%Z)
    /\ (forall k, k < n ->
          (Z.of_nat (length (failures_of (take k (fst run))))
           < max_failures)%Z).
Proof.
  intros Hm Hshuffle.
  destruct (find_failures_loop_processed agent_runner max_failures
              shuffled [] [] w1) as (n & Hn & Heq & Hstop & Hmin).
  exists n. cbn zeta in *. split; [assumption|]. split; [|split].
  - unfold find_failures_on_train. now rewrite Hm, Hshuffle, Heq.
  - exact Hstop.
  - exact Hmin.
Qed.

(** C3. On a candidate with [run_agent], [find_failures_on_train] runs the
    first [n] samples of the shuffled split and no other: it stops at the end
    of the split or with [max_failures] failures, and not while fewer have
    accumulated.  Every sample it ran has its entry in exactly one of the two
    lists, so the successes are all kept.  When no sample can succeed and
    the split has more than [max_failures] samples, it runs [max_failures]
    samples, fewer than the split has, and returns that many failures. *)
Theorem find_failures_on_train_stops_at_limit (E : Env Ext)
    (m : AgentModule) agent_runner train_dataset max_failures w shuffled w1 :
  run_agent m = Some agent_runner ->
  shuffle E train_dataset w = (shuffled, w1) ->
  exists n,
    let run := run_all agent_runner (take n shuffled) w1 in
    let result :=
      find_failures_on_train E (Some m) train_dataset max_failures w in
    let failures := fst (fst result) in
    let successes := snd (fst result) in
    n <= length shuffled
    /\ map fst (fst run) = take n shuffled
    /\ result = (failures_of (fst run), successes_of (fst run), snd run)
    /\ failures ++ successes ≡ₚ map example_of (fst run)
    /\ (n = length shuffled
        \/ (max_failures <= Z.of_nat (length failures))%Z)
    /\ (forall k, k < n ->
          (Z.of_nat (length (failures_of (take k (fst run))))
           < max_failures)%Z)
    /\ ((0 <= max_failures < Z.of_nat (length train_dataset))%Z ->
        shuffled ≡ₚ train_dataset ->
        (forall sample w0,
            sample ∈ train_dataset ->
            ~ succeeded sample (fst (agent_runner (question sample) w0))) ->
        n = Z.to_nat max_failures
        /\ n < length shuffled
        /\ Z.of_nat (length failures) = max_failures
        /\ successes = []).
Proof.
  intros Hm Hshuffle.
  destruct (find_failures_on_train_processed E m agent_runner train_dataset
              max_failures w shuffled w1 Hm Hshuffle)
    as (n & Hn & Heq & Hstop & Hmin).
  exists n. cbn zeta in *. rewrite Heq. cbn [fst snd].
  split; [assumption|]. split; [apply run_all_samples|].
  split; [reflexivity|]. split; [apply failures_successes_partition|].
  split; [assumption|]. split; [assumption|].
  intros Hmax Hperm Hfail.
  set (processed := fst (run_all agent_runner (take n shuffled) w1)) in *.
  assert (Hall : Forall (fun so => ~ succeeded (fst so) (snd so)) processed).
  { apply Forall_forall. intros [sample o] Hin.
    apply run_all_outcomes in Hin as [Hin [w0 ->]]. simpl.
    apply Hfail. rewrite <- Hperm.
    now apply (subseteq_take n shuffled). }
  assert (Hlen : length processed = n).
  { unfold processed. rewrite <- (length_map fst), run_all_samples.
    rewrite length_take. lia. }
  assert (Hcount : forall k, k <= n ->
                             length (failures_of (take k processed)) = k).
  { intros k Hk.
    destruct (all_failed (take k processed)) as [-> _].
    - now apply Forall_take.
    - rewrite length_map, length_take. lia. }
  assert (Hle : (Z.of_nat n <= max_failures)%Z).
  { destruct n as [|n']; [lia|].
    specialize (Hmin n' ltac:(lia)). rewrite Hcount in Hmin by lia. lia. }
  destruct (all_failed processed Hall) as [Hf Hs].
  assert (Hfl : length (failures_of processed) = n).
  { now rewrite Hf, length_map. }
  rewrite Hfl in *. apply Permutation_length in Hperm.
  destruct Hstop as [Hend|Hlim]; [lia|].
  repeat split; [lia | lia | lia | assumption].
Qed.

(** C9. A sample whose run raises is put at the end of the failures, with
    the traceback of the error as the output of the candidate, and the loop
    goes on with the samples that remain.  So every sample that was run and
    raised is among the failures returned, and the mining ends only with the
    split or with the limit. *)
Theorem find_failures_on_train_records_errors :
  (forall (agent_runner : Runner) sample rest max_failures failures
          successes w tb w',
      (Z.of_nat (length failures) < max_failures)%Z ->
      agent_runner (question sample) w = (Raised tb, w') ->
      find_failures_loop agent_runner (sample :: rest) max_failures
        failures successes w
      = find_failures_loop agent_runner rest max_failures
          (failures ++ [{| ex_question := question sample;
                           ex_correct_answer := answer sample;
                           ex_agent_output := "Runtime Error: " +:+ tb |}])
          successes w')
  /\ (forall (E : Env Ext) (m : AgentModule) agent_runner train_dataset
             max_failures w shuffled w1,
        run_agent m = Some agent_runner ->
        shuffle E train_dataset w = (shuffled, w1) ->
        exists n,
          let run := run_all agent_runner (take n shuffled) w1 in
          let failures :=
            fst (fst (find_failures_on_train E (Some m) train_dataset
                        max_failures w)) in
          map fst (fst run) = take n shuffled
          /\ (forall sample tb,
                (sample, Raised tb) ∈ fst run ->
                {| ex_question := question sample;
                   ex_correct_answer := answer sample;
                   ex_agent_output := "Runtime Error: " +:+ tb |} ∈ failures)
          /\ (n = length shuffled
              \/ (max_failures <= Z.of_nat (length failures))%Z)).
Proof.
  split.
  - intros agent_runner sample rest max_failures failures successes w tb w'
           Hlim Hrun.
    rewrite (find_failures_loop_step _ _ _ _ _ _ _ _ _ Hlim Hrun).
    rewrite failures_of_cons, successes_of_cons. cbn [fst snd succeeded].
    rewrite !decide_False by tauto.
    change (failures_of []) with (@nil Example).
    change (successes_of []) with (@nil Example).
    now rewrite !app_nil_r.
  - intros E m agent_runner train_dataset max_failures w shuffled w1
           Hm Hshuffle.
    destruct (find_failures_on_train_processed E m agent_runner train_dataset
                max_failures w shuffled w1 Hm Hshuffle)
      as (n & Hn & Heq & Hstop & Hmin).
    exists n. cbn zeta in *. rewrite Heq. cbn [fst snd].
    split; [apply run_all_samples|]. split; [|assumption].
    intros sample tb Hin. unfold failures_of.
    apply (list_elem_of_fmap_2 example_of _ (sample, Raised tb)).
    apply list_elem_of_filter. split; [|assumption].
    simpl. tauto.
Qed.

End Facts.

Import Examples.

Lemma evaluate_agent_on_dataset_witness :
  run_agent module0 = Some runner0
  /\ (0 < length split0)%nat
  /\ (fst (evaluate_agent_on_dataset (Some module0) split0 world0)
       == inject_Z 1 / inject_Z 2)%Q.
Proof.
  split; [reflexivity|]. split; [simpl; lia|].
  exact (proj1 (proj2
    (proj2 (proj2 (proj2 evaluate_agent_on_dataset_accuracy))
       module0 runner0 split0 world0 eq_refl ltac:(simpl; lia)))).
Defined.

Lemma find_failures_on_train_stops_at_limit_witness :
  run_agent module_wrong = Some runner_wrong
  /\ shuffle (env0 None) split1 world0 = (rev split1, world0)
  /\ (0 <= 2 < Z.of_nat (length split1))%Z
  /\ rev split1 ≡ₚ split1
  /\ Z.of_nat (length (fst (fst
        (find_failures_on_train (env0 None) (Some module_wrong) split1 2
           world0)))) = 2%Z.
Proof.
  split; [reflexivity|]. split; [reflexivity|]. split; [simpl; lia|].
  split; [symmetry; apply Permutation_rev|].
  destruct (find_failures_on_train_stops_at_limit (env0 None) module_wrong
              runner_wrong split1 2 world0 (rev split1) world0
              eq_refl eq_refl) as (n & H).
  cbn zeta in H. destruct H as (_ & _ & _ & _ & _ & _ & H).
  apply H.
  - simpl. lia.
  - symmetry. apply Permutation_rev.
  - intros sample w0 Hin.
    apply list_elem_of_In in Hin. unfold split1 in Hin. simpl in Hin.
    destruct Hin as [<-|[<-|[<-|Hin]]]; [| | |destruct Hin];
      vm_compute; intros Hs;
      first [destruct Hs as [He _]; discriminate He | exact Hs].
Defined.

Lemma find_failures_on_train_records_errors_witness :
  (Z.of_nat (length (@nil Example)) < 5)%Z
  /\ runner0 "1/0?" world0 = (Raised "ZeroDivisionError", world0)
  /\ find_failures_loop runner0 split0 5 [] [] world0
     = find_failures_loop runner0 (tail split0) 5
         [{| ex_question := "1/0?"; ex_correct_answer := "#### 7";
             ex_agent_output := "Runtime Error: ZeroDivisionError" |}]
         [] world0.
Proof.
  split; [simpl; lia|]. split; [reflexivity|].
  exact (proj1 (@find_failures_on_train_records_errors unit) runner0
           {| question := "1/0?"; answer := "#### 7" |} (tail split0) 5%Z
           [] [] world0 "ZeroDivisionError" world0
           ltac:(simpl; lia) eq_refl).
Defined.

End EvaluationFacts.

(** ** The loader *)

Module LoaderFacts.
Import Model Loader EvolutionLoop.

Section Facts.
Context {Ext : Type}.
Local Abbreviation World := (World Ext).
Variable E : Env Ext.

(** A successful load of a file whose code leaves [sys.path] and
    [sys.modules] alone puts both back, when the directory was not on the
    path and the name not registered before. *)
Lemma load_agent_from_file_success_restores filepath module_name w attr w3 :
  spec_from_file_location E module_name (abspath E filepath) = true ->
  dirname E (abspath E filepath) ∉ sys_path w ->
  exec_module E (abspath E filepath) (prepared E filepath module_name w)
  = (ExecOk attr, w3) ->
  sys_path w3 = sys_path (prepared E filepath module_name w) ->
  sys_modules w3 = sys_modules (prepared E filepath module_name w) ->
  exists m w',
    load_agent_from_file E filepath module_name w = (Some m, w')
    /\ run_agent m = attr
    /\ sys_path w' = sys_path w
    /\ sys_modules w' = delete module_name (sys_modules w).
Proof.
  intros Hspec Hdir Hexec Hpath Hmods.
  unfold load_agent_from_file. rewrite Hspec. simpl negb. cbv iota.
  fold (prepared E filepath module_name w). rewrite Hexec.
  unfold prepared in Hpath, Hmods. simpl in Hpath, Hmods.
  destruct (decide (dirname E (abspath E filepath) ∈ sys_path w));
    [contradiction|].
  simpl in Hpath, Hmods. rewrite Hpath.
  destruct (decide (dirname E (abspath E filepath)
                    = dirname E (abspath E filepath))) as [_|Hne];
    [|now destruct Hne].
  simpl. rewrite Hmods, lookup_insert_eq.
  destruct (decide (is_Some (Some (next_ref w)))) as [_|Hno];
    [|destruct Hno; now eexists].
  eexists _, _. split; [reflexivity|]. simpl.
  split; [reflexivity|]. split; [reflexivity|].
  apply delete_insert_eq.
Qed.

(** A load that fails while the code of the file runs returns from the
    [except] clause with the world as the code left it. *)
Lemma load_agent_from_file_failure filepath module_name w tb w3 :
  spec_from_file_location E module_name (abspath E filepath) = true ->
  exec_module E (abspath E filepath) (prepared E filepath module_name w)
  = (ExecRaised tb, w3) ->
  load_agent_from_file E filepath module_name w = (None, w3).
Proof.
  intros Hspec Hexec. unfold load_agent_from_file.
  rewrite Hspec. simpl negb. cbv iota.
  fold (prepared E filepath module_name w). now rewrite Hexec.
Qed.

End Facts.

Import Examples.

(** C4 fails on the code.  The load of a file that does not compile returns
    [None] with the directory of the file still first on [sys.path] and the
    module still registered under its name in [sys.modules]. *)
Theorem load_agent_from_file_leaks_on_failure :
  let result :=
    load_agent_from_file (env0 None) "agents/math_agent_v1.py" "v1"
      world_broken in
  fst result = None
  /\ sys_path (snd result) = "agents" :: sys_path world_broken
  /\ sys_modules world_broken !! "v1" = None
  /\ sys_modules (snd result) !! "v1" = Some 0.
Proof. vm_compute. repeat split. Qed.

(** A successful load from a directory that was already first on
    [sys.path] removes that entry, which the call had not added. *)
Lemma load_agent_from_file_pops_existing_entry :
  let result :=
    load_agent_from_file (env0 None) "agents/math_agent_v0.py" "v0"
      world_on_path in
  has_run_agent (fst result) = true
  /\ sys_path world_on_path = ["agents"; "/usr/lib/python3"]
  /\ sys_path (snd result) = ["/usr/lib/python3"].
Proof. vm_compute. repeat split. Qed.

End LoaderFacts.

(** ** Parent selection *)

Module SelectionFacts.
Import Model EvolutionLoop.

Lemma weight_sigmoid sigmoid_lambda sigmoid_alpha0 agent :
  weight sigmoid_lambda sigmoid_alpha0 agent
  = (sigmoid (sigmoid_lambda * (Q2R (score agent) - sigmoid_alpha0))
     * (1 / (1 + INR (children_count agent))))%R.
Proof.
  unfold weight, sigmoid. do 4 f_equal. ring.
Qed.

Lemma elem_of_positions (archive : list Agent) i agent :
  (i, agent) ∈ positions archive <-> archive !! i = Some agent.
Proof.
  unfold positions. rewrite elem_of_lookup_imap. split.
  - now intros (j & y & [= -> ->] & Hy).
  - intros H. now exists i, agent.
Qed.

Lemma score_below_one_spec agent :
  score_below_one agent = true <-> (score agent < 1)%Q.
Proof.
  unfold score_below_one.
  destruct (Qlt_le_dec (score agent) 1) as [Hlt|Hle]; split; auto.
  - discriminate.
  - intros Hlt. exfalso. exact (Qlt_not_le _ _ Hlt Hle).
Qed.

(** The records with a score below 1, or all records when there is none. *)
Lemma eligible_filter (archive : list Agent) i agent :
  (i, agent) ∈ List.filter (fun pa => score_below_one (snd pa))
                 (positions archive)
  <-> archive !! i = Some agent /\ (score agent < 1)%Q.
Proof.
  rewrite list_elem_of_In, filter_In, <- list_elem_of_In, elem_of_positions.
  simpl. now rewrite score_below_one_spec.
Qed.

Lemma probabilities_uniform weights :
  np_sum weights = 0%R ->
  probabilities weights
  = repeat (1 / INR (length weights))%R (length weights).
Proof.
  intros Hsum. unfold probabilities.
  destruct (Req_dec_T (np_sum weights) 0) as [_|Hne]; [|contradiction].
  generalize (INR (length weights)). intros n.
  induction (length weights) as [|k IH]; simpl; [reflexivity|].
  now rewrite IH.
Qed.

Lemma probabilities_weighted weights :
  np_sum weights <> 0%R ->
  probabilities weights
  = map (fun w_i => (w_i / np_sum weights)%R) weights.
Proof.
  intros Hsum. unfold probabilities.
  now destruct (Req_dec_T (np_sum weights) 0).
Qed.

Section Facts.
Context {Ext : Type}.
Variable E : Env Ext.

(** C1. [select_parents] returns no parents for an empty archive.  For any
    other archive the draw is made among the records with a score below 1,
    or among all records when no score is below 1; the weight of a record is
    [sigmoid(lambda * (score - alpha0)) * 1/(1 + children_count)], and the
    probabilities of the draw are the weights over their sum, or the uniform
    distribution over the set when the weights sum to zero. *)
Theorem select_parents_eligible_set_and_weights :
  (forall k sigmoid_lambda sigmoid_alpha0 (w : World Ext),
      select_parents E [] k sigmoid_lambda sigmoid_alpha0 w = ([], w))
  /\ (forall archive k sigmoid_lambda sigmoid_alpha0 (w : World Ext),
        archive <> [] ->
        exists agents_in_set,
          (forall i agent,
              (i, agent) ∈ agents_in_set <->
              archive !! i = Some agent
              /\ ((score agent < 1)%Q
                  \/ forall j other,
                       archive !! j = Some other -> ~ (score other < 1)%Q))
          /\ agents_in_set <> []
          /\ let weights :=
               map (fun pa =>
                      (sigmoid (sigmoid_lambda
                                * (Q2R (score (snd pa)) - sigmoid_alpha0))
                       * (1 / (1 + INR (children_count (snd pa)))))%R)
                   agents_in_set in
             let draw :=
               random_choice E (length agents_in_set) k
                 (probabilities weights) w in
             select_parents E archive k sigmoid_lambda sigmoid_alpha0 w
             = (omap (fun j => fst <$> agents_in_set !! j) (fst draw),
                snd draw))
  /\ (forall weights,
        np_sum weights = 0%R ->
        probabilities weights
        = repeat (1 / INR (length weights))%R (length weights))
  /\ (forall weights,
        np_sum weights <> 0%R ->
        probabilities weights
        = map (fun w_i => (w_i / np_sum weights)%R) weights).
Proof.
  split; [reflexivity|].
  split; [|split; [exact probabilities_uniform|exact probabilities_weighted]].
  intros archive k sigmoid_lambda sigmoid_alpha0 w Hne.
  assert (Hdraw : forall agents_in_set,
    draw_parents E agents_in_set k sigmoid_lambda sigmoid_alpha0 w
    = (omap (fun j => fst <$> agents_in_set !! j)
         (fst (random_choice E (length agents_in_set) k
                 (probabilities
                    (map (fun pa =>
                       (sigmoid (sigmoid_lambda
                                 * (Q2R (score (snd pa)) - sigmoid_alpha0))
                        * (1 / (1 + INR (children_count (snd pa)))))%R)
                       agents_in_set)) w)),
       snd (random_choice E (length agents_in_set) k
              (probabilities
                 (map (fun pa =>
                    (sigmoid (sigmoid_lambda
                              * (Q2R (score (snd pa)) - sigmoid_alpha0))
                     * (1 / (1 + INR (children_count (snd pa)))))%R)
                    agents_in_set)) w))).
  { intros agents_in_set. unfold draw_parents.
    rewrite (map_ext _ _ (fun pa => weight_sigmoid _ _ (snd pa))).
    now destruct (random_choice E _ _ _ w). }
  unfold select_parents.
  destruct (List.filter (fun pa => score_below_one (snd pa))
              (positions archive)) as [|pa eligible] eqn:Hfilter.
  - destruct archive as [|agent0 archive]; [contradiction|].
    exists (positions (agent0 :: archive)). split; [|split].
    + intros i agent. rewrite elem_of_positions. split.
      * intros Hi. split; [assumption|]. right. intros j other Hj Hlt.
        assert (Hin : (j, other) ∈ @nil (nat * Agent)).
        { rewrite <- Hfilter. now apply eligible_filter. }
        inversion Hin.
      * now intros [Hi _].
    + discriminate.
    + apply Hdraw.
  - exists (pa :: eligible). split; [|split].
    + intros i agent. rewrite <- Hfilter, eligible_filter. split.
      * intros [Hi Hlt]. auto.
      * intros [Hi [Hlt|Hnone]]; [auto|]. exfalso.
        destruct pa as [j other].
        assert (Hin : (j, other) ∈ List.filter
                        (fun pa => score_below_one (snd pa))
                        (positions archive)).
        { rewrite Hfilter. left. }
        apply eligible_filter in Hin as [Hj Hlt].
        exact (Hnone j other Hj Hlt).
    + discriminate.
    + apply Hdraw.
Qed.

End Facts.

Import Examples.

Lemma select_parents_eligible_set_and_weights_witness :
  archive state_seed <> []
  /\ np_sum [0%R; 0%R] = 0%R
  /\ probabilities [0%R; 0%R] = [(1 / INR 2)%R; (1 / INR 2)%R]
  /\ exists agents_in_set : list (nat * Agent),
       forall i agent,
         (i, agent) ∈ agents_in_set <->
         archive state_seed !! i = Some agent
         /\ ((score agent < 1)%Q
             \/ forall j other,
                  archive state_seed !! j = Some other
                  -> ~ (score other < 1)%Q).
Proof.
  assert (Hne : archive state_seed <> []) by discriminate.
  assert (Hsum : np_sum [0%R; 0%R] = 0%R) by (unfold np_sum; simpl; lra).
  split; [exact Hne|]. split; [exact Hsum|]. split.
  - exact (proj1 (proj2 (proj2
             (select_parents_eligible_set_and_weights (env0 None))))
             [0%R; 0%R] Hsum).
  - destruct (proj1 (proj2
                (select_parents_eligible_set_and_weights (env0 None)))
                (archive state_seed) 1 30%R (1 / 2)%R world_seed Hne)
      as (agents_in_set & Hset & _).
    exists agents_in_set. exact Hset.
Defined.

End SelectionFacts.

(** ** The evolution loop *)

Module LoopFacts.
Import Text AgentUtils Model Evaluation Loader EvolutionLoop.

Section Facts.
Context {Ext : Type}.
Local Abbreviation World := (World Ext).
Local Abbreviation AgentModule := (AgentModule Ext).
Local Abbreviation LoopState := (LoopState Ext).
Variable E : Env Ext.
Variables (train_data validation_data : list Sample).
Variables (agent_folder task_model meta_model : string).
Variable dgm_params : DgmParams.

Local Abbreviation process_parent :=
  (process_parent E train_data validation_data agent_folder task_model
     meta_model dgm_params).
Local Abbreviation iteration :=
  (iteration E train_data validation_data agent_folder task_model
     meta_model dgm_params).
Local Abbreviation iterate :=
  (iterate E train_data validation_data agent_folder task_model
     meta_model dgm_params).
Local Abbreviation reachable :=
  (reachable E train_data validation_data agent_folder task_model
     meta_model dgm_params).

Lemma version_id_inj n1 n2 : version_id n1 = version_id n2 -> n1 = n2.
Proof.
  unfold version_id. intros H. injection H as H.
  change (NilEmpty.string_of_uint (Nat.to_uint n1)
          = NilEmpty.string_of_uint (Nat.to_uint n2)) in H.
  apply (f_equal NilEmpty.uint_of_string) in H.
  rewrite !NilEmpty.usu in H. injection H as H.
  apply (f_equal Nat.of_uint) in H.
  now rewrite !DecimalNat.Unsigned.of_to in H.
Qed.

Lemma same_record_refl agent : same_record agent agent.
Proof. unfold same_record. repeat split; lia. Qed.

Lemma same_record_trans a b c :
  same_record a b -> same_record b c -> same_record a c.
Proof.
  unfold same_record. intros (? & ? & ? & ? & ?) (? & ? & ? & ? & ?).
  repeat split; try congruence. lia.
Qed.

Lemma same_record_add_child agent : same_record agent (add_child agent).
Proof. unfold same_record, add_child. simpl. repeat split; lia. Qed.

Lemma same_records_alter p archive :
  Forall2 same_record archive (alter add_child p archive).
Proof.
  revert p. induction archive as [|agent archive IH]; intros p; [constructor|].
  destruct p as [|p]; simpl; constructor.
  - apply same_record_add_child.
  - apply Forall2_same_length_lookup_2; [reflexivity|].
    intros i x y Hx Hy. replace y with x by congruence.
    apply same_record_refl.
  - apply same_record_refl.
  - apply IH.
Qed.

Lemma extends_refl archive : extends archive archive.
Proof.
  exists archive, []. split; [now rewrite app_nil_r|].
  apply Forall2_same_length_lookup_2; [reflexivity|].
  intros i x y Hx Hy. replace y with x by congruence. apply same_record_refl.
Qed.

Lemma extends_trans a b c : extends a b -> extends b c -> extends a c.
Proof.
  intros (kept1 & added1 & -> & H1) (kept2 & added2 & -> & H2).
  apply Forall2_app_inv_l in H2 as (k21 & k22 & Hk1 & Hk2 & ->).
  exists k21, (k22 ++ added2). split; [now rewrite <- List.app_assoc|].
  revert k21 Hk1. induction H1 as [|x y l l' Hxy _ IH]; intros k21 Hk1.
  - inversion Hk1. constructor.
  - inversion Hk1 as [|y' z l1 l2 Hyz Hrest]; subst.
    constructor; [now apply (same_record_trans x y z) | now apply IH].
Qed.

Lemma ids_alter p (archive : list Agent) :
  map id (alter add_child p archive) = map id archive.
Proof.
  revert p. induction archive as [|agent archive IH]; intros p; [reflexivity|].
  destruct p as [|p]; simpl; [reflexivity | f_equal; apply IH].
Qed.

Lemma attempted_children_snoc calls call :
  attempted_children (calls ++ [call])
  = attempted_children calls + (if decide (produced_code call) then 1 else 0).
Proof.
  unfold attempted_children. rewrite filter_app, length_app, filter_cons.
  now destruct (decide (produced_code call)).
Qed.

Lemma parent_outcome_extends (st st' : LoopState) p :
  parent_outcome st p st' -> extends (archive st) (archive st').
Proof.
  intros [w|request new_code w _|request new_code w _
         |parent_agent request new_code child w _ _ _ _ _]; simpl;
    try apply extends_refl.
  exists (alter add_child p (archive st)), [child].
  split; [reflexivity | apply same_records_alter].
Qed.

Lemma parent_outcome_ids (st st' : LoopState) p :
  parent_outcome st p st' -> ids_assigned st -> ids_assigned st'.
Proof.
  unfold ids_assigned.
  intros [w|request new_code w Hno|request new_code w Hcode
         |parent_agent request new_code child w Hp Hcode Hid _ _]
         (Hdup & Hids & Hcount); simpl.
  - auto.
  - split; [assumption|]. split; [assumption|].
    rewrite attempted_children_snoc, decide_False by assumption. lia.
  - split; [assumption|]. split.
    + eapply Forall_impl; [exact Hids|]. simpl.
      intros agent (n & Hn & Hagent). exists n. split; [lia | assumption].
    + rewrite attempted_children_snoc, decide_True by assumption. lia.
  - split; [|split].
    + rewrite map_app, ids_alter. simpl. apply NoDup_app.
      split; [assumption|]. split; [|apply NoDup_singleton].
      intros x Hx Hchild. apply list_elem_of_singleton in Hchild. subst x.
      apply list_elem_of_fmap in Hx as (agent & Hagent & Hin).
      apply (proj1 (Forall_forall _ _) Hids) in Hin as (n & Hn & Hidn).
      rewrite Hid, Hidn in Hagent. apply version_id_inj in Hagent. lia.
    + apply Forall_app. split.
      * apply Forall_forall. intros agent Hin.
        apply list_elem_of_lookup in Hin as [i Hi].
        rewrite list_lookup_alter in Hi.
        assert (exists old, archive st !! i = Some old /\ id agent = id old)
          as (old & Hold & Hsame).
        { destruct (decide (p = i)) as [->|Hne].
          - destruct (archive st !! i) as [old|]; [|discriminate].
            injection Hi as <-. now exists old.
          - exists agent. split; [assumption | reflexivity]. }
        apply (list_elem_of_lookup_2 (archive st)) in Hold.
        apply (proj1 (Forall_forall _ _) Hids) in Hold as (n & Hn & Hidn).
        exists n. split; [lia | congruence].
      * constructor; [|constructor].
        exists (S (agent_version_counter st)). split; [lia | assumption].
    + rewrite attempted_children_snoc, decide_True by assumption. lia.
Qed.

Lemma process_parent_outcome st p : parent_outcome st p (process_parent st p).
Proof.
  unfold EvolutionLoop.process_parent.
  destruct (archive st !! p) as [parent_agent|] eqn:Hp.
  2:{ replace st with (set_world (world st) st) at 2 by now destruct st.
      constructor. }
  destruct (load_agent_from_file E (path parent_agent) (id parent_agent)
              (world st)) as [[pm|] w1]; [|constructor].
  destruct (find_failures_on_train E (Some pm) train_data
              (max_failures_per_child dgm_params) w1)
    as [[[|failure failures] successes] w2]; [constructor|].
  destruct (files w2 !! path parent_agent) as [parent_code|]; [|constructor].
  match goal with
  | |- context [call_developer_agent E ?r w2] =>
      destruct (call_developer_agent E r w2) as [[new_code|] w3]
  end.
  2:{ apply outcome_no_code. simpl. tauto. }
  destruct (decide (new_code = "")) as [->|Hcode].
  { apply outcome_no_code. unfold produced_code. simpl. congruence. }
  destruct (decide (strip (chars new_code) = strip (chars parent_code)));
    [now apply outcome_discarded|].
  destruct (validate_agent_model_usage new_code task_model); simpl;
    [|now apply outcome_discarded].
  match goal with
  | |- context [load_agent_from_file E ?f ?n ?w] =>
      destruct (load_agent_from_file E f n w) as [child_module w5]
  end.
  destruct (has_run_agent child_module); [|now apply outcome_discarded].
  match goal with
  | |- context [evaluate_agent_on_dataset ?m ?d ?w] =>
      destruct (evaluate_agent_on_dataset m d w) as [child_score w6]
  end.
  now apply (outcome_archived st p parent_agent).
Qed.

Lemma extends_length old new : extends old new -> length old <= length new.
Proof.
  intros (kept & added & -> & H). apply Forall2_length in H.
  rewrite length_app. lia.
Qed.

Lemma reachable_extends st st' :
  reachable st st' -> extends (archive st) (archive st').
Proof.
  induction 1 as [|st' w _ IH|st' p _ IH]; [apply extends_refl|exact IH|].
  eapply extends_trans; [exact IH|].
  apply (parent_outcome_extends _ _ p), process_parent_outcome.
Qed.

Lemma reachable_ids st st' :
  reachable st st' -> ids_assigned st -> ids_assigned st'.
Proof.
  induction 1 as [|st' w _ IH|st' p _ IH]; intros Hst; auto.
  apply (parent_outcome_ids _ _ p (process_parent_outcome st' p)), IH, Hst.
Qed.

Lemma reachable_trans st1 st2 st3 :
  reachable st1 st2 -> reachable st2 st3 -> reachable st1 st3.
Proof.
  intros H12 H23. induction H23; [assumption | |]; now constructor.
Qed.

Lemma reachable_parents st0 parents st :
  reachable st0 st -> reachable st0 (fold_left process_parent parents st).
Proof.
  revert st. induction parents as [|p parents IH]; intros st Hst; simpl;
    [assumption|].
  apply IH. now constructor.
Qed.

Lemma reachable_iteration st0 st :
  reachable st0 st -> reachable st0 (snd (iteration st)).
Proof.
  intros Hst. unfold EvolutionLoop.iteration.
  destruct (select_parents E (archive st) _ _ _ (world st))
    as [[|p parents] w1]; simpl.
  - now constructor.
  - apply (reachable_parents st0 (p :: parents)). now constructor.
Qed.

Lemma reachable_iterate st0 num_iterations st :
  reachable st0 st -> reachable st0 (iterate num_iterations st).
Proof.
  revert st. induction num_iterations as [|n IH]; intros st Hst; simpl;
    [assumption|].
  pose proof (reachable_iteration st0 st Hst) as Hit.
  destruct (iteration st) as [[|] st']; simpl in Hit; [now apply IH|assumption].
Qed.

Lemma initialize_ids start_agent_path w st0 :
  initialize E validation_data start_agent_path w = Some st0 ->
  ids_assigned st0.
Proof.
  unfold initialize.
  destruct (load_agent_from_file E start_agent_path _ w) as [m0 w1].
  destruct (has_run_agent m0); [|discriminate].
  destruct (evaluate_agent_on_dataset m0 validation_data w1) as [s w2].
  intros [= <-]. unfold ids_assigned. simpl. split; [|split].
  - apply NoDup_singleton.
  - constructor; [|constructor]. exists 0. split; [lia | reflexivity].
  - reflexivity.
Qed.


(** C8. When a proposal has passed the checks and been written to its file,
    and that file then does not load or the module has no [run_agent], the
    loop removes the file and leaves the archive as it was: no record for
    the child, and the record of the parent, [children_count] included,
    unchanged. *)
Theorem failed_child_is_removed_and_not_archived st p parent_agent
    parent_module w1 failure failures successes w2 parent_code new_code w3
    child_module w5 :
  let child_id := version_id (S (agent_version_counter st)) in
  let child_filename := "math_agent_" +:+ child_id +:+ ".py" in
  let child_path := path_join E agent_folder child_filename in
  archive st !! p = Some parent_agent ->
  load_agent_from_file E (path parent_agent) (id parent_agent) (world st)
  = (Some parent_module, w1) ->
  find_failures_on_train E (Some parent_module) train_data
    (max_failures_per_child dgm_params) w1
  = (failure :: failures, successes, w2) ->
  files w2 !! path parent_agent = Some parent_code ->
  call_developer_agent E
    {| previous_code := parent_code;
       success_examples :=
         slice_to successes (num_successes_to_send dgm_params);
       failed_examples := failure :: failures;
       current_version_id := id parent_agent;
       req_task_model := task_model;
       req_meta_model := meta_model |} w2
  = (Some new_code, w3) ->
  new_code <> "" ->
  strip (chars new_code) <> strip (chars parent_code) ->
  validate_agent_model_usage new_code task_model = true ->
  load_agent_from_file E child_path child_id
    (save_agent_code E agent_folder child_filename new_code w3)
  = (child_module, w5) ->
  has_run_agent child_module = false ->
  let st' := process_parent st p in
  files (world st') !! child_path = None
  /\ archive st' = archive st
  /\ archive st' !! p = Some parent_agent
  /\ world st' = remove_file child_path w5.
Proof.
  intros child_id child_filename child_path Hp Hload Hmine Hread Hdev Hcode
         Hnew Hvalid Hchild Hrun st'.
  assert (Hst' : st' = {| archive := archive st;
                          agent_version_counter := S (agent_version_counter st);
                          developer_calls :=
                            developer_calls st
                            ++ [({| previous_code := parent_code;
                                    success_examples :=
                                      slice_to successes
                                        (num_successes_to_send dgm_params);
                                    failed_examples := failure :: failures;
                                    current_version_id := id parent_agent;
                                    req_task_model := task_model;
                                    req_meta_model := meta_model |},
                                 Some new_code)];
                          world := remove_file child_path w5 |}).
  { subst st'. unfold EvolutionLoop.process_parent.
    rewrite Hp, Hload, Hmine, Hread, Hdev.
    rewrite decide_False by assumption.
    rewrite decide_False by assumption.
    rewrite Hvalid. simpl negb. cbv iota.
    fold child_id. fold child_filename. fold child_path.
    now rewrite Hchild, Hrun. }
  rewrite Hst'. simpl. split; [apply lookup_delete_eq|].
  split; [reflexivity|]. split; [assumption | reflexivity].
Qed.

(** C10. [find_failures_on_train] returns two empty lists for a candidate
    that is absent or has no [run_agent].  A parent whose module does not
    load, or loads without [run_agent], is skipped by the loop: the archive,
    the counter and the calls made to the developer agent stay as they
    were. *)
Theorem non_functional_parent_is_skipped :
  (forall train_dataset max_failures (w : World),
      find_failures_on_train E None train_dataset max_failures w
      = ([], [], w))
  /\ (forall (m : AgentModule) train_dataset max_failures w,
        run_agent m = None ->
        find_failures_on_train E (Some m) train_dataset max_failures w
        = ([], [], w))
  /\ (forall st p parent_agent parent_module w1,
        archive st !! p = Some parent_agent ->
        load_agent_from_file E (path parent_agent) (id parent_agent)
          (world st) = (parent_module, w1) ->
        has_run_agent parent_module = false ->
        let st' := process_parent st p in
        st' = set_world w1 st
        /\ developer_calls st' = developer_calls st
        /\ archive st' = archive st
        /\ agent_version_counter st' = agent_version_counter st).
Proof.
  split; [reflexivity|]. split.
  - intros m train_dataset max_failures w Hm.
    unfold find_failures_on_train. now rewrite Hm.
  - intros st p parent_agent parent_module w1 Hp Hload Hrun st'.
    assert (Hst' : st' = set_world w1 st).
    { subst st'. unfold EvolutionLoop.process_parent. rewrite Hp, Hload.
      destruct parent_module as [m|]; [|reflexivity].
      unfold find_failures_on_train.
      simpl in Hrun. now destruct (run_agent m). }
    rewrite Hst'. auto.
Qed.

End Facts.

Import Examples.

(** Closes an equation by evaluating its left-hand side. *)
Ltac by_vm :=
  match goal with
  | |- ?lhs = _ =>
      let v := eval vm_compute in lhs in
      exact (@eq_refl _ v <: lhs = v)
  end.


Lemma failed_child_is_removed_and_not_archived_witness :
  let st' := process_parent (env0 (Some "x = 1")) split1 split0 "agents"
               "gpt-4o-mini" "gpt-4o" params0 state_seed 0 in
  validate_agent_model_usage "x = 1" "gpt-4o-mini" = true
  /\ files (world st') !! "agents/math_agent_v1.py" = None
  /\ archive st' = archive state_seed.
Proof.
  intros st'. split; [vm_compute; reflexivity|].
  edestruct (failed_child_is_removed_and_not_archived
               (env0 (Some "x = 1")) split1 split0 "agents"
               "gpt-4o-mini" "gpt-4o" params0 state_seed 0)
    as (Hfile & Harchive & _);
    [by_vm | by_vm | by_vm | by_vm | by_vm | discriminate
    | vm_compute; discriminate | by_vm | by_vm | by_vm |].
  exact (conj Hfile Harchive).
Defined.

Lemma non_functional_parent_is_skipped_witness :
  let st' := process_parent (env0 (Some "x = 1")) split1 split0 "agents"
               "gpt-4o-mini" "gpt-4o" params0 state_norun 0 in
  find_failures_on_train (env0 None)
    (Some {| mod_ref := 0; run_agent := @None (Runner unit) |}) split1 2
    world_seed = ([], [], world_seed)
  /\ developer_calls st' = [] /\ archive st' = archive state_norun.
Proof.
  intros st'. split.
  { exact (proj1 (proj2 (non_functional_parent_is_skipped
             (env0 None) split1 split0 "agents" "gpt-4o-mini" "gpt-4o"
             params0))
             {| mod_ref := 0; run_agent := None |} split1 2%Z world_seed
             eq_refl). }
  edestruct (proj2 (proj2 (non_functional_parent_is_skipped
               (env0 (Some "x = 1")) split1 split0 "agents"
               "gpt-4o-mini" "gpt-4o" params0)) state_norun 0)
    as (_ & Hcalls & Harchive & _); [by_vm | by_vm | by_vm |].
  exact (conj Hcalls Harchive).
Defined.

End LoopFacts.

(** ** More on the evaluation harness *)

Module EvaluationCoverage.
Import Text AgentUtils Model Evaluation EvaluationFacts.

Section Facts.
Context {Ext : Type}.
Local Abbreviation World := (World Ext).
Local Abbreviation Runner := (Runner Ext).
Local Abbreviation AgentModule := (AgentModule Ext).

Lemma run_all_length (agent_runner : Runner) samples w :
  length (fst (run_all agent_runner samples w)) = length samples.
Proof. now rewrite <- (length_map fst), run_all_samples. Qed.

Lemma count_successes_le processed :
  count_successes processed <= length processed.
Proof. unfold count_successes. apply length_filter. Qed.

Lemma count_successes_all processed :
  count_successes processed = length processed
  <-> Forall (fun so => succeeded (fst so) (snd so)) processed.
Proof.
  induction processed as [|[sample o] l IH].
  - split; [constructor | reflexivity].
  - rewrite count_successes_cons. pose proof (count_successes_le l) as Hle.
    simpl length. destruct (decide (succeeded sample o)) as [Hs|Hs]; split.
    + intros H. constructor; [exact Hs|]. apply IH. lia.
    + intros H. inversion H; subst. apply IH in H3. lia.
    + intros H. lia.
    + intros H. inversion H; subst. contradiction.
Qed.

Lemma count_successes_none processed :
  count_successes processed = 0
  <-> Forall (fun so => ~ succeeded (fst so) (snd so)) processed.
Proof.
  induction processed as [|[sample o] l IH].
  - split; [constructor | reflexivity].
  - rewrite count_successes_cons.
    destruct (decide (succeeded sample o)) as [Hs|Hs]; split.
    + intros H. lia.
    + intros H. inversion H; subst. contradiction.
    + intros H. constructor; [exact Hs|]. apply IH. lia.
    + intros H. inversion H; subst. apply IH in H3. lia.
Qed.

Lemma ratio_bounds n total :
  n <= total -> (0 <= Z.of_nat n # Pos.of_nat total <= 1)%Q.
Proof.
  intros Hle. unfold Qle. simpl. split; [lia|].
  destruct total as [|t]; [lia|].
  rewrite <- Pos.of_nat_succ, Zpos_P_of_succ_nat. lia.
Qed.

Lemma evaluate_score_bounds (agent_module : option AgentModule) dataset
    (w : World) :
  (0 <= fst (evaluate_agent_on_dataset agent_module dataset w) <= 1)%Q.
Proof.
  unfold evaluate_agent_on_dataset.
  destruct agent_module as [m|]; [|split; discriminate].
  destruct (run_agent m) as [agent_runner|]; [|split; discriminate].
  destruct (Nat.eqb_spec (length dataset) 0) as [H0|H0];
    [split; discriminate|].
  rewrite evaluate_loop_counts. cbn [fst]. apply ratio_bounds.
  rewrite Nat.add_0_l, <- (run_all_length agent_runner dataset w).
  apply count_successes_le.
Qed.

(** X1. The score [evaluate_agent_on_dataset] returns is an accuracy: it
    lies between 0 and 1, for every candidate and every split. *)
Theorem evaluate_agent_on_dataset_in_unit_interval
    (agent_module : option AgentModule) dataset (w : World) :
  (0 <= fst (evaluate_agent_on_dataset agent_module dataset w) <= 1)%Q.
Proof. apply evaluate_score_bounds. Qed.

(** X2. On a candidate with [run_agent] and a split that is not empty, the
    score is 1 exactly when the run of every sample succeeded, and 0 exactly
    when none did. *)
Theorem evaluate_agent_on_dataset_extremes (m : AgentModule) agent_runner
    dataset (w : World) :
  run_agent m = Some agent_runner ->
  0 < length dataset ->
  let processed := fst (run_all agent_runner dataset w) in
  let accuracy := fst (evaluate_agent_on_dataset (Some m) dataset w) in
  ((accuracy == 1)%Q
   <-> Forall (fun so => succeeded (fst so) (snd so)) processed)
  /\ ((accuracy == 0)%Q
      <-> Forall (fun so => ~ succeeded (fst so) (snd so)) processed).
Proof.
  intros Hm Hlen processed accuracy.
  assert (Hacc : accuracy = (Z.of_nat (count_successes processed)
                             # Pos.of_nat (length dataset))).
  { subst accuracy. unfold evaluate_agent_on_dataset. rewrite Hm.
    destruct (Nat.eqb_spec (length dataset) 0) as [H0|H0]; [lia|].
    now rewrite evaluate_loop_counts. }
  assert (Hpos : Z.pos (Pos.of_nat (length dataset))
                 = Z.of_nat (length dataset)).
  { destruct (length dataset) as [|t]; [lia|].
    rewrite <- Pos.of_nat_succ, Zpos_P_of_succ_nat. lia. }
  assert (Hproc : length processed = length dataset)
    by apply run_all_length.
  rewrite Hacc. unfold Qeq. simpl Qnum. simpl Qden. split.
  - rewrite <- count_successes_all, Hproc, Hpos. lia.
  - rewrite <- count_successes_none. lia.
Qed.

Lemma failures_of_length processed :
  length (failures_of processed) <= length processed.
Proof. unfold failures_of. rewrite length_map. apply length_filter. Qed.

(** X3. [find_failures_on_train] never returns more failures than
    [max_failures] (and none when [max_failures] is negative), whatever the
    candidate does. *)
Theorem find_failures_on_train_at_most_max_failures (E : Env Ext)
    (agent_module : option AgentModule) train_dataset max_failures
    (w : World) :
  (Z.of_nat (length (fst (fst
      (find_failures_on_train E agent_module train_dataset max_failures w))))
   <= Z.max 0 max_failures)%Z.
Proof.
  destruct agent_module as [m|]; [|simpl; lia].
  destruct (run_agent m) as [agent_runner|] eqn:Hm.
  2:{ unfold find_failures_on_train. rewrite Hm. simpl. lia. }
  destruct (shuffle E train_dataset w) as [shuffled w1] eqn:Hshuffle.
  destruct (find_failures_on_train_processed E m agent_runner train_dataset
              max_failures w shuffled w1 Hm Hshuffle)
    as (n & Hn & Heq & _ & Hmin).
  cbn zeta in *. rewrite Heq. cbn [fst].
  set (processed := fst (run_all agent_runner (take n shuffled) w1)) in *.
  destruct n as [|k].
  { subst processed. simpl. lia. }
  specialize (Hmin k ltac:(lia)).
  rewrite <- (take_drop k processed), failures_of_app, length_app.
  pose proof (failures_of_length (drop k processed)) as Hlast.
  assert (Hlen : length processed = S k).
  { subst processed. rewrite run_all_length, length_take. lia. }
  rewrite length_drop, Hlen in Hlast. lia.
Qed.

End Facts.

Import Examples.

Lemma evaluate_agent_on_dataset_extremes_witness :
  run_agent module_wrong = Some runner_wrong
  /\ 0 < length split1
  /\ Forall (fun so => ~ succeeded (fst so) (snd so))
        (fst (run_all runner_wrong split1 world0)).
Proof.
  split; [reflexivity|]. split; [simpl; lia|].
  apply (proj2 (evaluate_agent_on_dataset_extremes module_wrong runner_wrong
                  split1 world0 eq_refl ltac:(simpl; lia))).
  vm_compute. reflexivity.
Defined.

End EvaluationCoverage.

(** ** More on the evolution loop *)

Module LoopCoverage.
Import Text AgentUtils Model Evaluation Loader EvolutionLoop LoopNotions.
Import EvaluationCoverage LoopFacts.

Section Facts.
Context {Ext : Type}.
Local Abbreviation World := (World Ext).
Local Abbreviation AgentModule := (AgentModule Ext).
Local Abbreviation LoopState := (LoopState Ext).
Variable E : Env Ext.
Variables (train_data validation_data : list Sample).
Variables (agent_folder task_model meta_model : string).
Variable dgm_params : DgmParams.

Local Abbreviation process_parent :=
  (process_parent E train_data validation_data agent_folder task_model
     meta_model dgm_params).
Local Abbreviation iterate :=
  (iterate E train_data validation_data agent_folder task_model
     meta_model dgm_params).
Local Abbreviation reachable :=
  (reachable E train_data validation_data agent_folder task_model
     meta_model dgm_params).
Local Abbreviation run_dgm_loop :=
  (run_dgm_loop E train_data validation_data agent_folder task_model
     meta_model dgm_params).

(** What [process_parent] does to the archive: nothing, or it counts a child
    for the parent and appends the record of the child. *)
Lemma process_parent_archive st p :
  archive (process_parent st p) = archive st
  \/ exists parent_agent child,
       archive st !! p = Some parent_agent
       /\ archive (process_parent st p)
          = alter add_child p (archive st) ++ [child]
       /\ id child = version_id (S (agent_version_counter st))
       /\ path child = artifact_path E agent_folder child
       /\ (0 <= score child <= 1)%Q
       /\ children_count child = 0
       /\ parent_id child = Some (id parent_agent).
Proof.
  unfold EvolutionLoop.process_parent.
  destruct (archive st !! p) as [parent_agent|] eqn:Hp; [|now left].
  destruct (load_agent_from_file E (path parent_agent) (id parent_agent)
              (world st)) as [[pm|] w1]; [|now left].
  destruct (find_failures_on_train E (Some pm) train_data
              (max_failures_per_child dgm_params) w1)
    as [[[|failure failures] successes] w2]; [now left|].
  destruct (files w2 !! path parent_agent) as [parent_code|]; [|now left].
  match goal with
  | |- context [call_developer_agent E ?r w2] =>
      destruct (call_developer_agent E r w2) as [[new_code|] w3]
  end; [|now left].
  destruct (decide (new_code = "")); [now left|].
  destruct (decide (strip (chars new_code) = strip (chars parent_code)));
    [now left|].
  destruct (validate_agent_model_usage new_code task_model); simpl;
    [|now left].
  match goal with
  | |- context [load_agent_from_file E ?f ?n ?w] =>
      destruct (load_agent_from_file E f n w) as [child_module w5]
  end.
  destruct (has_run_agent child_module); [|now left].
  pose proof (evaluate_score_bounds child_module validation_data w5)
    as Hscore.
  destruct (evaluate_agent_on_dataset child_module validation_data w5)
    as [child_score w6].
  right. eexists parent_agent, _. split; [reflexivity|].
  split; [reflexivity|]. simpl. repeat split; apply Hscore.
Qed.

(** A record of the archive after a child was appended is the child, at
    the end, or an earlier record, changed in [children_count] only. *)
Lemma lookup_after_append (old_archive : list Agent) p child j agent :
  (alter add_child p old_archive ++ [child]) !! j = Some agent ->
  (j = length old_archive /\ agent = child)
  \/ (exists old,
        old_archive !! j = Some old
        /\ id agent = id old /\ path agent = path old
        /\ score agent = score old /\ parent_id agent = parent_id old
        /\ children_count agent
           = children_count old + (if decide (p = j) then 1 else 0)).
Proof.
  intros Hj.
  destruct (decide (j < length old_archive)) as [Hlt|Hge].
  - right. rewrite lookup_app_l in Hj by now rewrite length_alter.
    rewrite list_lookup_alter in Hj.
    destruct (decide (p = j)) as [->|Hne].
    + destruct (old_archive !! j) as [old|] eqn:Hold; [|discriminate].
      simpl in Hj. injection Hj as <-. exists old. simpl.
      repeat split. lia.
    + exists agent. repeat split; [assumption | lia].
  - left. rewrite lookup_app_r in Hj by (rewrite length_alter; lia).
    rewrite length_alter in Hj.
    destruct (j - length old_archive) as [|k] eqn:Hk; simpl in Hj.
    + injection Hj as <-. split; [lia | reflexivity].
    + now rewrite lookup_nil in Hj.
Qed.

Lemma lookup_before_append (old_archive : list Agent) p child j old :
  old_archive !! j = Some old ->
  exists agent,
    (alter add_child p old_archive ++ [child]) !! j = Some agent
    /\ id agent = id old /\ parent_id agent = parent_id old.
Proof.
  intros Hold. apply lookup_lt_Some in Hold as Hlt.
  rewrite lookup_app_l by now rewrite length_alter.
  rewrite list_lookup_alter.
  destruct (decide (p = j)) as [->|Hne]; [rewrite Hold; simpl|];
    eexists; (split; [reflexivity || eassumption|]); now split.
Qed.

Lemma filter_alter_length (P : Agent -> Prop) `{!forall x, Decision (P x)}
    (f : Agent -> Agent) p (l : list Agent) :
  (forall x, P (f x) <-> P x) ->
  length (filter P (alter f p l)) = length (filter P l).
Proof.
  intros Hf. revert p. induction l as [|x l IH]; intros p; [reflexivity|].
  destruct p as [|p]; cbn [alter list_alter]; rewrite !filter_cons.
  - pose proof (Hf x) as Hfx.
    destruct (decide (P (f x))), (decide (P x)); try reflexivity; tauto.
  - specialize (IH p). cbn [alter] in IH.
    destruct (decide (P x)); simpl; now rewrite IH.
Qed.

Lemma NoDup_ids_position (archive : list Agent) i j a b :
  NoDup (map id archive) ->
  archive !! i = Some a -> archive !! j = Some b -> id a = id b -> i = j.
Proof.
  intros Hdup Hi Hj Hid.
  apply (NoDup_lookup (map id archive) i j (id a)); [assumption| |].
  - now rewrite list_lookup_fmap, Hi.
  - now rewrite list_lookup_fmap, Hj, Hid.
Qed.

Lemma filter_none {A} (P : A -> Prop) `{!forall x, Decision (P x)}
    (l : list A) :
  (forall x, x ∈ l -> ~ P x) -> filter P l = [].
Proof.
  induction l as [|x l IH]; intros Hno; [reflexivity|].
  rewrite filter_cons, decide_False by (apply Hno; left).
  apply IH. intros y Hy. apply Hno. now right.
Qed.

(** The identifier of a new child is not in the archive yet. *)
Lemma child_id_fresh (st : LoopState) agent :
  ids_assigned st -> agent ∈ archive st ->
  id agent <> version_id (S (agent_version_counter st)).
Proof.
  intros (_ & Hids & _) Hin Heq.
  apply (proj1 (Forall_forall _ _) Hids) in Hin as (n & Hn & Hid).
  rewrite Hid in Heq. apply version_id_inj in Heq. lia.
Qed.

Lemma consistent_after_append (st : LoopState) p parent_agent child :
  ids_assigned st ->
  archive_consistent E agent_folder (archive st) ->
  archive st !! p = Some parent_agent ->
  id child = version_id (S (agent_version_counter st)) ->
  path child = artifact_path E agent_folder child ->
  (0 <= score child <= 1)%Q ->
  children_count child = 0 ->
  parent_id child = Some (id parent_agent) ->
  archive_consistent E agent_folder
    (alter add_child p (archive st) ++ [child]).
Proof.
  intros Hids (Hparents & Hcounts & Hnamed & Hscores) Hp Hid Hpath Hscore
         Hcc Hpar.
  pose proof (child_id_fresh st) as Hfresh. specialize (Hfresh).
  destruct Hids as (Hdup & Hidsn & Hcounter).
  assert (Hids : ids_assigned st) by (repeat split; assumption).
  set (old_archive := archive st) in *.
  rewrite Forall_lookup in Hcounts, Hnamed, Hscores.
  split; [|split; [|split]].
  - intros i agent Hi.
    apply lookup_after_append in Hi
      as [[-> ->]|(old & Hold & Hio & _ & _ & Hpo & _)].
    + rewrite Hpar.
      destruct (lookup_before_append old_archive p child p parent_agent Hp)
        as (agent' & Hagent' & Hid' & _).
      exists p, agent'. split; [now apply lookup_lt_Some in Hp|]. now split.
    + rewrite Hpo. specialize (Hparents i old Hold).
      destruct (parent_id old) as [pid|]; [|assumption].
      destruct Hparents as (j & parent & Hj & Hparent & Hpid).
      destruct (lookup_before_append old_archive p child j parent Hparent)
        as (agent' & Hagent' & Hid' & _).
      exists j, agent'. split; [assumption|]. split; [assumption|congruence].
  - apply Forall_lookup. intros i agent Hi. unfold archived_children.
    rewrite filter_app, length_app.
    rewrite (filter_alter_length _ add_child p old_archive)
      by (intros x; reflexivity).
    rewrite filter_cons, filter_nil.
    apply lookup_after_append in Hi
      as [[-> ->]|(old & Hold & Hio & _ & _ & _ & Hco)].
    + rewrite Hcc, Hpar.
      rewrite decide_False.
      2:{ intros [= Heq]. apply (Hfresh parent_agent Hids); [|congruence].
          now apply (list_elem_of_lookup_2 old_archive p). }
      rewrite filter_none; [reflexivity|].
      intros c Hc Hpc. apply list_elem_of_lookup in Hc as [k Hk].
      specialize (Hparents k c Hk). rewrite Hpc in Hparents.
      destruct Hparents as (j & parent & _ & Hparent & Hpid).
      apply (Hfresh parent Hids); [|congruence].
      now apply (list_elem_of_lookup_2 old_archive j).
    + rewrite Hco, Hio, Hpar. specialize (Hcounts i old Hold).
      unfold archived_children in Hcounts. rewrite Hcounts.
      destruct (decide (p = i)) as [->|Hne].
      * replace old with parent_agent by congruence.
        now rewrite decide_True by reflexivity.
      * rewrite decide_False; [simpl; lia|].
        intros [= Heq]. apply Hne.
        now apply (NoDup_ids_position old_archive p i parent_agent old).
  - apply Forall_lookup. intros i agent Hi.
    apply lookup_after_append in Hi
      as [[-> ->]|(old & Hold & Hio & Hpo & _ & Hparo & _)].
    + intros _. exact Hpath.
    + unfold artifact_path. rewrite Hio, Hpo, Hparo.
      exact (Hnamed i old Hold).
  - apply Forall_lookup. intros i agent Hi.
    apply lookup_after_append in Hi
      as [[-> ->]|(old & Hold & _ & _ & Hso & _ & _)].
    + exact Hscore.
    + rewrite Hso. exact (Hscores i old Hold).
Qed.

Lemma consistent_process_parent st p :
  ids_assigned st ->
  archive_consistent E agent_folder (archive st) ->
  archive_consistent E agent_folder (archive (process_parent st p)).
Proof.
  intros Hids Hcons.
  destruct (process_parent_archive st p)
    as [->|(parent_agent & child & Hp & -> & Hid & Hpath & Hscore & Hcc
            & Hpar)]; [assumption|].
  now apply (consistent_after_append st p parent_agent child).
Qed.

Lemma consistent_reachable st0 st :
  reachable st0 st ->
  ids_assigned st0 ->
  archive_consistent E agent_folder (archive st0) ->
  archive_consistent E agent_folder (archive st).
Proof.
  induction 1 as [|st w _ IH|st p Hreach IH]; intros Hids Hcons; auto.
  apply consistent_process_parent; [|now apply IH].
  exact (reachable_ids E train_data validation_data agent_folder task_model
           meta_model dgm_params st0 st Hreach Hids).
Qed.

Lemma consistent_initialize start_agent_path w st0 :
  initialize E validation_data start_agent_path w = Some st0 ->
  archive_consistent E agent_folder (archive st0).
Proof.
  unfold initialize.
  destruct (load_agent_from_file E start_agent_path _ w) as [m0 w1].
  destruct (has_run_agent m0); [|discriminate].
  pose proof (evaluate_score_bounds m0 validation_data w1) as Hscore.
  destruct (evaluate_agent_on_dataset m0 validation_data w1) as [s w2].
  intros [= <-]. simpl. split; [|split; [|split]].
  - intros [|i] agent Hi; simpl in Hi; [injection Hi as <-; reflexivity|].
    now rewrite lookup_nil in Hi.
  - constructor; [|constructor]. reflexivity.
  - constructor; [|constructor]. simpl. congruence.
  - constructor; [exact Hscore|constructor].
Qed.

(** X4. In every state of a run the archive is a forest rooted at the seed:
    only its first record has no parent, and the parent of every other
    record is the identifier of a record archived before it. *)
Theorem archive_lineage_is_known start_agent_path w st0 st :
  initialize E validation_data start_agent_path w = Some st0 ->
  reachable st0 st ->
  parents_known (archive st).
Proof.
  intros Hinit Hreach.
  apply (consistent_reachable st0 st Hreach
           (initialize_ids E validation_data _ _ _ Hinit)
           (consistent_initialize _ _ _ Hinit)).
Qed.

(** X5. In every state of a run [children_count] of a record is the number
    of records of the archive that name it as their parent: a child that was
    discarded is not counted. *)
Theorem children_count_counts_archived_children start_agent_path w st0 st :
  initialize E validation_data start_agent_path w = Some st0 ->
  reachable st0 st ->
  Forall (fun agent =>
            children_count agent
            = length (archived_children (archive st) agent)) (archive st).
Proof.
  intros Hinit Hreach.
  apply (consistent_reachable st0 st Hreach
           (initialize_ids E validation_data _ _ _ Hinit)
           (consistent_initialize _ _ _ Hinit)).
Qed.

(** X6. In every state of a run the artifact of every archived child is the
    file [math_agent_<id>.py] of the agent folder, named after the
    identifier of the record. *)
Theorem archived_children_are_named_after_their_id start_agent_path w st0
    st :
  initialize E validation_data start_agent_path w = Some st0 ->
  reachable st0 st ->
  Forall (fun agent =>
            parent_id agent <> None ->
            path agent
            = path_join E agent_folder ("math_agent_" +:+ id agent +:+ ".py"))
         (archive st).
Proof.
  intros Hinit Hreach.
  apply (consistent_reachable st0 st Hreach
           (initialize_ids E validation_data _ _ _ Hinit)
           (consistent_initialize _ _ _ Hinit)).
Qed.

(** X7. In every state of a run the score of every record of the archive
    lies between 0 and 1. *)
Theorem archived_scores_are_accuracies start_agent_path w st0 st :
  initialize E validation_data start_agent_path w = Some st0 ->
  reachable st0 st ->
  Forall (fun agent => (0 <= score agent <= 1)%Q) (archive st).
Proof.
  intros Hinit Hreach.
  apply (consistent_reachable st0 st Hreach
           (initialize_ids E validation_data _ _ _ Hinit)
           (consistent_initialize _ _ _ Hinit)).
Qed.

(** X8. In every state of a run the archive has at most one record more
    than children were attempted, and no more children were attempted than
    calls of the developer agent were made. *)
Theorem archive_size_is_bounded_by_attempts start_agent_path w st0 st :
  initialize E validation_data start_agent_path w = Some st0 ->
  reachable st0 st ->
  length (archive st) <= S (agent_version_counter st)
  /\ agent_version_counter st <= length (developer_calls st).
Proof.
  intros Hinit Hreach.
  destruct (reachable_ids E train_data validation_data agent_folder
              task_model meta_model dgm_params st0 st Hreach
              (initialize_ids E validation_data _ _ _ Hinit))
    as (Hdup & Hids & Hcounter).
  split.
  - rewrite <- (length_map id (archive st)).
    transitivity (length (map version_id
                            (seq 0 (S (agent_version_counter st)))));
      [|now rewrite length_map, length_seq].
    apply submseteq_length, NoDup_submseteq; [assumption|].
    intros x Hx. apply list_elem_of_fmap in Hx as (agent & -> & Hin).
    apply (proj1 (Forall_forall _ _) Hids) in Hin as (n & Hn & ->).
    apply list_elem_of_fmap. exists n. split; [reflexivity|].
    apply elem_of_seq. lia.
  - rewrite Hcounter. unfold attempted_children. apply length_filter.
Qed.

(** X9. A proposal that is the code of its parent up to the white space
    around it, or that fails the model check, is discarded before anything
    is written: the archive is unchanged, the world is as the developer
    agent left it (no artifact is saved and nothing is loaded), and the
    identifier of the child is used up. *)
Theorem rejected_proposal_is_not_persisted st p parent_agent parent_module
    w1 failure failures successes w2 parent_code new_code w3 :
  archive st !! p = Some parent_agent ->
  load_agent_from_file E (path parent_agent) (id parent_agent) (world st)
  = (Some parent_module, w1) ->
  find_failures_on_train E (Some parent_module) train_data
    (max_failures_per_child dgm_params) w1
  = (failure :: failures, successes, w2) ->
  files w2 !! path parent_agent = Some parent_code ->
  call_developer_agent E
    {| previous_code := parent_code;
       success_examples :=
         slice_to successes (num_successes_to_send dgm_params);
       failed_examples := failure :: failures;
       current_version_id := id parent_agent;
       req_task_model := task_model;
       req_meta_model := meta_model |} w2
  = (Some new_code, w3) ->
  new_code <> "" ->
  strip (chars new_code) = strip (chars parent_code)
  \/ validate_agent_model_usage new_code task_model = false ->
  let st' := process_parent st p in
  archive st' = archive st
  /\ world st' = w3
  /\ agent_version_counter st' = S (agent_version_counter st).
Proof.
  intros Hp Hload Hmine Hread Hdev Hcode Hreject st'.
  subst st'. unfold EvolutionLoop.process_parent.
  rewrite Hp, Hload, Hmine, Hread, Hdev.
  rewrite decide_False by assumption.
  destruct (decide (strip (chars new_code) = strip (chars parent_code)))
    as [Hsame|Hne]; [simpl; auto|].
  destruct Hreject as [Hsame|Hinvalid]; [contradiction|].
  rewrite Hinvalid. simpl. auto.
Qed.

(** X10. When the child loads and has [run_agent], the archive grows by
    exactly the record of the child, with the next identifier, the score of
    its evaluation, no children and the parent's identifier; the record of
    the parent counts one child more and is otherwise unchanged. *)
Theorem functional_child_is_archived st p parent_agent parent_module
    w1 failure failures successes w2 parent_code new_code w3
    child_module w5 :
  let child_id := version_id (S (agent_version_counter st)) in
  let child_filename := "math_agent_" +:+ child_id +:+ ".py" in
  let child_path := path_join E agent_folder child_filename in
  archive st !! p = Some parent_agent ->
  load_agent_from_file E (path parent_agent) (id parent_agent) (world st)
  = (Some parent_module, w1) ->
  find_failures_on_train E (Some parent_module) train_data
    (max_failures_per_child dgm_params) w1
  = (failure :: failures, successes, w2) ->
  files w2 !! path parent_agent = Some parent_code ->
  call_developer_agent E
    {| previous_code := parent_code;
       success_examples :=
         slice_to successes (num_successes_to_send dgm_params);
       failed_examples := failure :: failures;
       current_version_id := id parent_agent;
       req_task_model := task_model;
       req_meta_model := meta_model |} w2
  = (Some new_code, w3) ->
  new_code <> "" ->
  strip (chars new_code) <> strip (chars parent_code) ->
  validate_agent_model_usage new_code task_model = true ->
  load_agent_from_file E child_path child_id
    (save_agent_code E agent_folder child_filename new_code w3)
  = (child_module, w5) ->
  has_run_agent child_module = true ->
  let st' := process_parent st p in
  let evaluation :=
    evaluate_agent_on_dataset child_module validation_data w5 in
  archive st'
  = alter add_child p (archive st)
    ++ [ {| id := child_id; path := child_path; score := fst evaluation;
            children_count := 0; parent_id := Some (id parent_agent) |} ]
  /\ archive st' !! p
     = Some {| id := id parent_agent; path := path parent_agent;
               score := score parent_agent;
               children_count := S (children_count parent_agent);
               parent_id := parent_id parent_agent |}
  /\ length (archive st') = S (length (archive st))
  /\ world st' = snd evaluation.
Proof.
  intros child_id child_filename child_path Hp Hload Hmine Hread Hdev Hcode
         Hnew Hvalid Hchild Hrun st' evaluation.
  assert (Harchive : archive st'
    = alter add_child p (archive st)
      ++ [ {| id := child_id; path := child_path; score := fst evaluation;
              children_count := 0; parent_id := Some (id parent_agent) |} ]
    /\ world st' = snd evaluation).
  { subst st' evaluation. unfold EvolutionLoop.process_parent.
    rewrite Hp, Hload, Hmine, Hread, Hdev.
    rewrite decide_False by assumption.
    rewrite decide_False by assumption.
    rewrite Hvalid. simpl negb. cbv iota.
    fold child_id. fold child_filename. fold child_path.
    rewrite Hchild, Hrun.
    now destruct (evaluate_agent_on_dataset child_module validation_data w5). }
  destruct Harchive as [Harchive Hworld].
  split; [exact Harchive|]. rewrite Harchive. split; [|split].
  - rewrite lookup_app_l
      by (rewrite length_alter; now apply lookup_lt_Some in Hp).
    rewrite list_lookup_alter, decide_True by reflexivity. now rewrite Hp.
  - rewrite length_app, length_alter. simpl. lia.
  - exact Hworld.
Qed.

End Facts.

(** *** The final sort and the result of the run *)

Lemma insert_by_score_perm agent sorted :
  insert_by_score agent sorted ≡ₚ agent :: sorted.
Proof.
  induction sorted as [|other rest IH]; simpl; [reflexivity|].
  destruct (Qlt_le_dec (score agent) (score other)); [|reflexivity].
  rewrite IH. apply Permutation_swap.
Qed.

Lemma sorted_by_score_perm archive : sorted_by_score archive ≡ₚ archive.
Proof.
  induction archive as [|agent archive IH]; simpl; [reflexivity|].
  now rewrite insert_by_score_perm, IH.
Qed.

Lemma insert_by_score_sorted agent sorted :
  StronglySorted not_below sorted ->
  StronglySorted not_below (insert_by_score agent sorted).
Proof.
  induction 1 as [|other rest Hsorted IH Hall]; simpl.
  - repeat constructor.
  - destruct (Qlt_le_dec (score agent) (score other)) as [Hlt|Hle].
    + constructor; [exact IH|].
      rewrite insert_by_score_perm. constructor; [|exact Hall].
      unfold not_below. now apply Qlt_le_weak.
    + constructor; [now constructor|].
      constructor; [exact Hle|].
      eapply Forall_impl; [exact Hall|]. unfold not_below. simpl.
      intros x Hx. now apply (Qle_trans _ (score other)).
Qed.

Lemma sorted_by_score_sorted archive :
  StronglySorted not_below (sorted_by_score archive).
Proof.
  induction archive as [|agent archive IH]; simpl; [constructor|].
  now apply insert_by_score_sorted.
Qed.

Lemma insert_by_score_of_score q agent sorted :
  of_score q (insert_by_score agent sorted) = of_score q (agent :: sorted).
Proof.
  induction sorted as [|other rest IH]; [reflexivity|].
  cbn [insert_by_score].
  destruct (Qlt_le_dec (score agent) (score other)) as [Hlt|Hle];
    [|reflexivity].
  unfold of_score in *. cbn [List.filter] in *. rewrite IH.
  destruct (Qeq_bool (score agent) q) eqn:Ha; [|reflexivity].
  destruct (Qeq_bool (score other) q) eqn:Ho; [|reflexivity].
  exfalso. apply Qeq_bool_iff in Ha, Ho.
  rewrite Ha, Ho in Hlt. exact (Qlt_irrefl _ Hlt).
Qed.

(** X11. [sorted(archive, key=score, reverse=True)] as the loop computes it:
    the result holds the records of the archive, in the order of scores that
    do not increase, and records of equal score keep the order they had. *)
Theorem sorted_by_score_is_a_stable_descending_sort archive :
  sorted_by_score archive ≡ₚ archive
  /\ StronglySorted (fun a b => (score b <= score a)%Q)
       (sorted_by_score archive)
  /\ forall q, of_score q (sorted_by_score archive) = of_score q archive.
Proof.
  split; [apply sorted_by_score_perm|].
  split; [apply sorted_by_score_sorted|].
  intros q. induction archive as [|agent archive IH]; [reflexivity|].
  cbn [sorted_by_score fold_right].
  fold (sorted_by_score archive).
  rewrite insert_by_score_of_score. unfold of_score in *.
  cbn [List.filter]. now rewrite IH.
Qed.

Lemma sorted_head_first_best archive best rest :
  sorted_by_score archive = best :: rest -> first_best archive best.
Proof.
  revert best rest.
  induction archive as [|agent archive IH]; intros best rest; [discriminate|].
  cbn [sorted_by_score fold_right]. fold (sorted_by_score archive).
  destruct (sorted_by_score archive) as [|other others] eqn:Hsorted.
  - assert (archive = []) as ->.
    { apply Permutation_nil_r. rewrite <- Hsorted.
      symmetry. apply sorted_by_score_perm. }
    intros [= <- <-]. exists 0. split; [reflexivity|]. split.
    + intros x Hx. apply list_elem_of_singleton in Hx as ->. apply Qle_refl.
    + intros j x Hj. lia.
  - destruct (IH other others eq_refl) as (i & Hi & Hmax & Hbefore).
    cbn [insert_by_score].
    destruct (Qlt_le_dec (score agent) (score other)) as [Hlt|Hle];
      intros [= <- <-].
    + exists (S i). split; [exact Hi|]. split.
      * intros x Hx. apply elem_of_cons in Hx as [->|Hx];
          [now apply Qlt_le_weak | now apply Hmax].
      * intros [|j] x Hj Hx; simpl in Hx.
        -- now injection Hx as <-.
        -- apply (Hbefore j x); [lia | assumption].
    + exists 0. split; [reflexivity|]. split.
      * intros x Hx. apply elem_of_cons in Hx as [->|Hx]; [apply Qle_refl|].
        apply (Qle_trans _ (score other)); [now apply Hmax | assumption].
      * intros j x Hj. lia.
Qed.

Lemma omap_length_le {A B} (f : A -> option B) (l : list A) :
  length (omap f l) <= length l.
Proof.
  induction l as [|x l IH]; simpl; [lia|].
  change (list_omap A B f l) with (omap f l).
  destruct (f x); simpl; lia.
Qed.

Section Run.
Context {Ext : Type}.
Local Abbreviation LoopState := (LoopState Ext).
Variable E : Env Ext.
Variables (train_data validation_data : list Sample).
Variables (agent_folder task_model meta_model : string).
Variable dgm_params : DgmParams.

Local Abbreviation process_parent :=
  (process_parent E train_data validation_data agent_folder task_model
     meta_model dgm_params).
Local Abbreviation iteration :=
  (iteration E train_data validation_data agent_folder task_model
     meta_model dgm_params).
Local Abbreviation iterate :=
  (iterate E train_data validation_data agent_folder task_model
     meta_model dgm_params).
Local Abbreviation run_dgm_loop :=
  (run_dgm_loop E train_data validation_data agent_folder task_model
     meta_model dgm_params).

Lemma iterate_archive_not_empty start_agent_path w st0 num_iterations :
  initialize E validation_data start_agent_path w = Some st0 ->
  archive (iterate num_iterations st0) <> [].
Proof.
  intros Hinit Hnil.
  assert (Hlen : length (archive st0) = 1).
  { revert Hinit. unfold initialize.
    destruct (load_agent_from_file E start_agent_path _ w) as [m0 w1].
    destruct (has_run_agent m0); [|discriminate].
    destruct (evaluate_agent_on_dataset m0 validation_data w1) as [q w2].
    now intros [= <-]. }
  pose proof (reachable_iterate E train_data validation_data agent_folder
                task_model meta_model dgm_params st0 num_iterations st0
                (reachable_start _ _ _ _ _ _ _ _)) as Hreach.
  apply reachable_extends, extends_length in Hreach.
  rewrite Hnil in Hreach. simpl in Hreach. lia.
Qed.

(** X12. [run_dgm_loop] fails only when the initialization does.  Otherwise
    it returns, with the state after the iterations, the first record of
    the final archive that has the highest score: no record scores higher
    and every record before it scores lower. *)
Theorem run_dgm_loop_reports_the_first_best start_agent_path
    num_iterations w :
  (run_dgm_loop start_agent_path num_iterations w = None
   <-> initialize E validation_data start_agent_path w = None)
  /\ (forall best st,
        run_dgm_loop start_agent_path num_iterations w = Some (best, st) ->
        exists st0,
          initialize E validation_data start_agent_path w = Some st0
          /\ st = iterate num_iterations st0
          /\ first_best (archive st) best).
Proof.
  unfold EvolutionLoop.run_dgm_loop.
  destruct (initialize E validation_data start_agent_path w) as [st0|]
    eqn:Hinit; [|split; [tauto | discriminate]].
  pose proof (iterate_archive_not_empty _ _ _ num_iterations Hinit) as Hne.
  destruct (sorted_by_score (archive (iterate num_iterations st0)))
    as [|best rest] eqn:Hsorted.
  { exfalso. apply Hne, Permutation_nil_r. rewrite <- Hsorted.
    symmetry. apply sorted_by_score_perm. }
  split; [split; discriminate|].
  intros best' st [= <- <-]. exists st0. split; [reflexivity|].
  split; [reflexivity|]. now apply (sorted_head_first_best _ best rest).
Qed.

Lemma process_parent_budget st p :
  length (developer_calls (process_parent st p))
    <= S (length (developer_calls st))
  /\ length (archive (process_parent st p)) <= S (length (archive st)).
Proof.
  destruct (process_parent_outcome E train_data validation_data agent_folder
              task_model meta_model dgm_params st p); simpl;
    rewrite ?length_app, ?length_alter; simpl; lia.
Qed.

Lemma parents_budget parents st :
  length (developer_calls (fold_left process_parent parents st))
    <= length (developer_calls st) + length parents
  /\ length (archive (fold_left process_parent parents st))
     <= length (archive st) + length parents.
Proof.
  revert st. induction parents as [|p parents IH]; intros st; simpl;
    [lia|].
  destruct (IH (process_parent st p)) as [Hcalls Harchive].
  destruct (process_parent_budget st p). lia.
Qed.

(** X13. When [np.random.choice] returns no more draws than the [k] it was
    asked for, a run of [T] iterations makes at most [T * k] calls of the
    developer agent and archives at most [T * k] children. *)
Theorem iterations_bound_calls_and_children st num_iterations :
  (forall n probabilities w,
      length (fst (random_choice E n (num_parents_to_select_k dgm_params)
                     probabilities w))
      <= num_parents_to_select_k dgm_params) ->
  length (developer_calls (iterate num_iterations st))
    <= length (developer_calls st)
       + num_iterations * num_parents_to_select_k dgm_params
  /\ length (archive (iterate num_iterations st))
     <= length (archive st)
        + num_iterations * num_parents_to_select_k dgm_params.
Proof.
  intros Hdraws. revert st.
  induction num_iterations as [|n IH]; intros st; [simpl; lia|].
  cbn [EvolutionLoop.iterate].
  assert (Hiter : length (developer_calls (snd (iteration st)))
                  <= length (developer_calls st)
                     + num_parents_to_select_k dgm_params
                  /\ length (archive (snd (iteration st)))
                     <= length (archive st)
                        + num_parents_to_select_k dgm_params).
  { unfold EvolutionLoop.iteration.
    assert (Hsel : forall archive0 w0,
      length (fst (select_parents E archive0
                     (num_parents_to_select_k dgm_params)
                     (sigmoid_lambda dgm_params)
                     (sigmoid_alpha0 dgm_params) w0))
      <= num_parents_to_select_k dgm_params).
    { intros archive0 w0. unfold select_parents, draw_parents.
      repeat match goal with
      | |- context [match ?x with _ => _ end] => destruct x eqn:?
      end; simpl; try lia;
      match goal with
      | H : random_choice E ?n _ ?pr ?w1 = (?d, _) |- _ =>
          specialize (Hdraws n pr w1); rewrite H in Hdraws; simpl in Hdraws
      end;
      (etransitivity; [apply omap_length_le | exact Hdraws]). }
    specialize (Hsel (archive st) (world st)).
    destruct (select_parents E (archive st) _ _ _ (world st))
      as [[|p parents] w1]; simpl in *; [lia|].
    pose proof (parents_budget (p :: parents) (set_world w1 st)) as Hb.
    simpl in Hb. simpl. lia. }
  destruct (iteration st) as [[|] st']; simpl in Hiter.
  - destruct (IH st'). simpl. lia.
  - simpl. lia.
Qed.

End Run.

Import Examples MoreExamples.

Lemma seed_initializes :
  initialize env_ok split0 "agents/math_agent_v0.py" world_seed
  = Some state_init.
Proof. vm_compute. reflexivity. Qed.

Lemma state_child_reachable :
  reachable env_ok split1 split0 "agents" "gpt-4o-mini" "gpt-4o" params0
    state_init state_child.
Proof. unfold state_child. apply reachable_parent. apply reachable_start. Qed.

Lemma archive_lineage_is_known_witness :
  initialize env_ok split0 "agents/math_agent_v0.py" world_seed
  = Some state_init
  /\ length (archive state_child) = 2
  /\ parents_known (archive state_child).
Proof.
  split; [exact seed_initializes|]. split; [vm_compute; reflexivity|].
  exact (archive_lineage_is_known env_ok split1 split0 "agents"
           "gpt-4o-mini" "gpt-4o" params0 _ _ _ _ seed_initializes
           state_child_reachable).
Defined.

Lemma children_count_counts_archived_children_witness :
  initialize env_ok split0 "agents/math_agent_v0.py" world_seed
  = Some state_init
  /\ Forall (fun agent =>
               children_count agent
               = length (archived_children (archive state_child) agent))
       (archive state_child).
Proof.
  split; [exact seed_initializes|].
  exact (children_count_counts_archived_children env_ok split1 split0
           "agents" "gpt-4o-mini" "gpt-4o" params0 _ _ _ _ seed_initializes
           state_child_reachable).
Defined.

Lemma archived_children_are_named_after_their_id_witness :
  initialize env_ok split0 "agents/math_agent_v0.py" world_seed
  = Some state_init
  /\ Forall (fun agent =>
               parent_id agent <> None ->
               path agent
               = path_join env_ok "agents"
                   ("math_agent_" +:+ id agent +:+ ".py"))
       (archive state_child).
Proof.
  split; [exact seed_initializes|].
  exact (archived_children_are_named_after_their_id env_ok split1 split0
           "agents" "gpt-4o-mini" "gpt-4o" params0 _ _ _ _ seed_initializes
           state_child_reachable).
Defined.

Lemma archived_scores_are_accuracies_witness :
  initialize env_ok split0 "agents/math_agent_v0.py" world_seed
  = Some state_init
  /\ Forall (fun agent => (0 <= score agent <= 1)%Q) (archive state_child).
Proof.
  split; [exact seed_initializes|].
  exact (archived_scores_are_accuracies env_ok split1 split0
           "agents" "gpt-4o-mini" "gpt-4o" params0 _ _ _ _ seed_initializes
           state_child_reachable).
Defined.

Lemma archive_size_is_bounded_by_attempts_witness :
  initialize env_ok split0 "agents/math_agent_v0.py" world_seed
  = Some state_init
  /\ length (archive state_child) <= S (agent_version_counter state_child)
  /\ agent_version_counter state_child
     <= length (developer_calls state_child).
Proof.
  split; [exact seed_initializes|].
  exact (archive_size_is_bounded_by_attempts env_ok split1 split0
           "agents" "gpt-4o-mini" "gpt-4o" params0 _ _ _ _ seed_initializes
           state_child_reachable).
Defined.

Lemma rejected_proposal_is_not_persisted_witness :
  let st' := process_parent (env0 (Some proposal_same)) split1 split0
               "agents" "gpt-4o-mini" "gpt-4o" params0 state_init 0 in
  strip (chars proposal_same)
  = strip (chars "def run_agent(q): return ask(q)")
  /\ archive st' = archive state_init
  /\ files (world st') = files (world state_init)
  /\ agent_version_counter st' = 1.
Proof.
  intros st'. split; [vm_compute; reflexivity|].
  edestruct (rejected_proposal_is_not_persisted
               (env0 (Some proposal_same)) split1 split0 "agents"
               "gpt-4o-mini" "gpt-4o" params0 state_init 0)
    as (Harchive & Hworld & Hcounter);
    [by_vm | by_vm | by_vm | by_vm | by_vm | discriminate
    | left; vm_compute; reflexivity |].
  split; [exact Harchive|]. split; [|exact Hcounter].
  subst st'. rewrite Hworld. vm_compute. reflexivity.
Defined.

Lemma functional_child_is_archived_witness :
  length (archive state_child) = S (length (archive state_init))
  /\ archive state_child !! 0
     = Some {| id := "v0"; path := "agents/math_agent_v0.py";
               score := 0 # 2; children_count := 1; parent_id := None |}.
Proof.
  unfold state_child.
  edestruct (functional_child_is_archived env_ok split1 split0 "agents"
               "gpt-4o-mini" "gpt-4o" params0 state_init 0)
    as (_ & Hparent & Hlength & _);
    [by_vm | by_vm | by_vm | by_vm | by_vm | discriminate
    | vm_compute; discriminate | by_vm | by_vm | by_vm |].
  split; [exact Hlength | exact Hparent].
Defined.

Lemma iterations_bound_calls_and_children_witness :
  length (developer_calls
            (iterate env_ok split1 split0 "agents" "gpt-4o-mini" "gpt-4o"
               params0 3 state_init)) <= 0 + 3 * 1
  /\ length (archive
               (iterate env_ok split1 split0 "agents" "gpt-4o-mini"
                  "gpt-4o" params0 3 state_init)) <= 1 + 3 * 1.
Proof.
  apply (iterations_bound_calls_and_children env_ok split1 split0 "agents"
           "gpt-4o-mini" "gpt-4o" params0 state_init 3).
  intros n probabilities w. simpl. lia.
Defined.

End LoopCoverage.

(** ** More on parent selection *)

Module SelectionCoverage.
Import Model EvolutionLoop SelectionFacts.

Local Open Scope R_scope.

Lemma fold_left_Rplus l a : fold_left Rplus l a = a + fold_left Rplus l 0.
Proof.
  revert a. induction l as [|x l IH]; intros a; simpl; [lra|].
  rewrite (IH (a + x)), (IH (0 + x)). lra.
Qed.

Lemma np_sum_cons x l : np_sum (x :: l) = x + np_sum l.
Proof. unfold np_sum. simpl. rewrite fold_left_Rplus. lra. Qed.

Lemma np_sum_nonneg l : Forall (fun x => 0 <= x) l -> 0 <= np_sum l.
Proof.
  induction 1 as [|x l Hx _ IH]; [unfold np_sum; simpl; lra|].
  rewrite np_sum_cons. lra.
Qed.



Lemma weight_positive sigmoid_lambda sigmoid_alpha0 agent :
  0 < weight sigmoid_lambda sigmoid_alpha0 agent.
Proof.
  unfold weight. cbv zeta.
  pose proof (exp_pos (- sigmoid_lambda
                       * (Q2R (score agent) - sigmoid_alpha0))) as Hexp.
  pose proof (pos_INR (children_count agent)) as Hn.
  apply Rmult_lt_0_compat; apply Rdiv_lt_0_compat; lra.
Qed.


(** X15. The weight of a record is positive.  Of two records with the same
    score the one with more children has the smaller weight, and for a
    [sigmoid_lambda] that is not negative, of two records with as many
    children the one with the higher score does not have the smaller
    weight: the order of the scores is never reversed.  (The two weights
    may be equal; in floating point they are when the sigmoid of both
    scores rounds to the same number.) *)
Theorem weight_prefers_score_and_few_children sigmoid_lambda sigmoid_alpha0 :
  (forall agent, 0 < weight sigmoid_lambda sigmoid_alpha0 agent)
  /\ (forall a b,
        score a = score b ->
        (children_count a < children_count b)%nat ->
        weight sigmoid_lambda sigmoid_alpha0 b
        < weight sigmoid_lambda sigmoid_alpha0 a)
  /\ (forall a b,
        0 <= sigmoid_lambda ->
        children_count a = children_count b ->
        (score a <= score b)%Q ->
        weight sigmoid_lambda sigmoid_alpha0 a
        <= weight sigmoid_lambda sigmoid_alpha0 b).
Proof.
  split; [apply weight_positive|]. split.
  - intros a b Hscore Hchildren. unfold weight. cbv zeta. rewrite Hscore.
    pose proof (exp_pos (- sigmoid_lambda
                         * (Q2R (score b) - sigmoid_alpha0))) as Hexp.
    apply lt_INR in Hchildren.
    pose proof (pos_INR (children_count a)) as Ha.
    apply Rmult_lt_compat_l; [apply Rdiv_lt_0_compat; lra|].
    unfold Rdiv. rewrite !Rmult_1_l.
    apply Rinv_lt_contravar; [|lra].
    apply Rmult_lt_0_compat; lra.
  - intros a b Hlambda Hchildren Hscore. unfold weight. cbv zeta.
    rewrite Hchildren.
    pose proof (pos_INR (children_count b)) as Hb.
    apply Qreals.Qle_Rle in Hscore.
    set (xa := - sigmoid_lambda * (Q2R (score a) - sigmoid_alpha0)).
    set (xb := - sigmoid_lambda * (Q2R (score b) - sigmoid_alpha0)).
    assert (Hx : xb <= xa) by (unfold xa, xb; nra).
    assert (Hexps : exp xb <= exp xa).
    { destruct Hx as [Hx|Hx]; [left; now apply exp_increasing|].
      rewrite Hx. apply Rle_refl. }
    pose proof (exp_pos xb) as Hexp.
    apply Rmult_le_compat_r; [apply Rlt_le, Rdiv_lt_0_compat; lra|].
    unfold Rdiv. rewrite !Rmult_1_l.
    apply Rinv_le_contravar; lra.
Qed.

Local Close Scope R_scope.

Section Facts.
Context {Ext : Type}.
Variable E : Env Ext.

Lemma draw_parents_from_set (agents_in_set : list (nat * Agent)) k
    sigmoid_lambda sigmoid_alpha0 (w : World Ext) p :
  p ∈ fst (draw_parents E agents_in_set k sigmoid_lambda sigmoid_alpha0 w) ->
  exists agent, (p, agent) ∈ agents_in_set.
Proof.
  unfold draw_parents.
  destruct (random_choice E _ _ _ w) as [draws w']. simpl.
  intros Hp. apply list_elem_of_omap in Hp as (j & _ & Hj).
  destruct (agents_in_set !! j) as [[p' agent]|] eqn:Hlookup;
    [|discriminate].
  simpl in Hj. injection Hj as <-. exists agent.
  now apply (list_elem_of_lookup_2 agents_in_set j).
Qed.

(** X16. Every parent [select_parents] returns is a record of the archive,
    and its score is below 1 unless no record of the archive has a score
    below 1: a perfect scorer is not selected while another agent is not
    perfect. *)
Theorem select_parents_selects_eligible_records archive k sigmoid_lambda
    sigmoid_alpha0 (w : World Ext) p :
  p ∈ fst (select_parents E archive k sigmoid_lambda sigmoid_alpha0 w) ->
  exists agent,
    archive !! p = Some agent
    /\ ((score agent < 1)%Q
        \/ forall other, other ∈ archive -> ~ (score other < 1)%Q).
Proof.
  unfold select_parents.
  destruct (List.filter (fun pa => score_below_one (snd pa))
              (positions archive)) as [|pa eligible] eqn:Hfilter.
  - destruct archive as [|agent0 archive]; [intros Hp; inversion Hp|].
    intros Hp. apply draw_parents_from_set in Hp as (agent & Hin).
    apply elem_of_positions in Hin. exists agent. split; [assumption|].
    right. intros other Hother Hlt.
    apply list_elem_of_lookup in Hother as [j Hj].
    assert (Hno : (j, other) ∈ @nil (nat * Agent)).
    { rewrite <- Hfilter. now apply eligible_filter. }
    inversion Hno.
  - intros Hp. apply draw_parents_from_set in Hp as (agent & Hin).
    rewrite <- Hfilter in Hin. apply eligible_filter in Hin as [Hp Hlt].
    exists agent. split; [assumption | now left].
Qed.

End Facts.

Import Examples.


Lemma weight_prefers_score_and_few_children_witness :
  let fresh := {| id := "v1"; path := "agents/math_agent_v1.py";
                  score := 1 # 2; children_count := 0;
                  parent_id := Some "v0" |} in
  let used := {| id := "v2"; path := "agents/math_agent_v2.py";
                 score := 1 # 2; children_count := 2;
                 parent_id := Some "v0" |} in
  let weak := {| id := "v3"; path := "agents/math_agent_v3.py";
                 score := 1 # 4; children_count := 0;
                 parent_id := Some "v0" |} in
  (weight 30 (1 / 2) used < weight 30 (1 / 2) fresh)%R
  /\ (weight 30 (1 / 2) weak <= weight 30 (1 / 2) fresh)%R.
Proof.
  intros fresh used weak.
  destruct (weight_prefers_score_and_few_children 30 (1 / 2))
    as (_ & Hchildren & Hscore).
  split.
  - apply Hchildren; [reflexivity | simpl; lia].
  - apply Hscore; [lra | reflexivity | discriminate].
Defined.

Lemma select_parents_selects_eligible_records_witness :
  0 ∈ fst (select_parents (env0 None) (archive state_seed) 1 30 (1 / 2)
             world_seed)
  /\ exists agent,
       archive state_seed !! 0 = Some agent
       /\ ((score agent < 1)%Q
           \/ forall other,
                other ∈ archive state_seed -> ~ (score other < 1)%Q).
Proof.
  assert (Hin : 0 ∈ fst (select_parents (env0 None) (archive state_seed) 1
                           30 (1 / 2) world_seed)).
  { assert (fst (select_parents (env0 None) (archive state_seed) 1 30
                   (1 / 2) world_seed) = [0]) as -> by reflexivity.
    left. }
  split; [exact Hin|].
  exact (select_parents_selects_eligible_records (env0 None) _ _ _ _ _ _ Hin).
Defined.

End SelectionCoverage.

(** ** More on answer normalization and on the policy check *)

Module AgentUtilsCoverage.
Import Text TextFacts AgentUtils AnswerFacts PolicyFacts.

Lemma last_rev_head {A} (l : list A) : last (rev l) = head l.
Proof.
  destruct l as [|x l]; [reflexivity|]. simpl. apply last_snoc.
Qed.

Lemma rstrip_last p s :
  match last (rstrip p s) with
  | Some c => p c = false
  | None => True
  end.
Proof.
  unfold rstrip. rewrite last_rev_head.
  pose proof (lstrip_head p (rev s)) as H.
  now destruct (lstrip p (rev s)).
Qed.

(** X17. The answer [extract_final_answer] returns is made of digits and
    periods that occur in the text, and it does not end with a period: no
    comma, no white space and no sign is ever part of it. *)
Theorem extract_final_answer_is_normal (text : string) :
  let answer := chars (extract_final_answer text) in
  Forall (fun c => (is_digit c = true \/ c = "."%char) /\ c ∈ chars text)
         answer
  /\ last answer <> Some "."%char.
Proof.
  intros answer. subst answer. unfold extract_final_answer.
  rewrite chars_of_list.
  destruct (extract_chars_normal (chars text)) as (g & Hg & ->).
  assert (Hnum : Forall (fun c => is_num_char c = true) g).
  { eapply Forall_impl; [exact Hg|]. now intros c [? _]. }
  split.
  - pose proof (normalize_match_plain g Hnum) as Hplain.
    rewrite normalize_match_eq in * by assumption.
    apply Forall_forall. intros c Hc. split.
    + apply (proj1 (Forall_forall _ _) Hplain) in Hc.
      unfold is_plain, is_period in Hc. apply orb_true_iff in Hc as [Hd|Hp];
        [now left|]. right. now apply Ascii.eqb_eq in Hp.
    + assert (Hin : c ∈ g).
      { assert (Hsub : Forall (fun c => c ∈ g)
                         (rstrip is_period (remove_commas g))).
        { apply rstrip_Forall. unfold remove_commas.
          apply Forall_forall. intros d Hd.
          apply list_elem_of_In, filter_In in Hd as [Hd _].
          now apply list_elem_of_In. }
        exact (proj1 (Forall_forall _ _) Hsub c Hc). }
      exact (proj2 (proj1 (Forall_forall _ _) Hg c Hin)).
  - rewrite normalize_match_eq by assumption.
    pose proof (rstrip_last is_period (remove_commas g)) as Hlast.
    destruct (last (rstrip is_period (remove_commas g))) as [c|];
      [|discriminate].
    intros [= ->]. discriminate Hlast.
Qed.

Lemma declares_model_embedded before text after literal :
  declares_model text literal ->
  declares_model (before ++ text ++ after) literal.
Proof.
  intros (pre & s & len & -> & Hdecl).
  exists (before ++ pre), (s ++ after), len.
  split; [now rewrite <- !List.app_assoc|].
  destruct Hdecl as [kw ws1 ws2 q1 vendor body q2 rest Hkw Hs1 Hs2 Hq1
                     Hvendor Hne Hb Hq2].
  replace ((kw ++ ws1 ++ "="%char :: ws2 ++ q1 :: vendor ++ body
            ++ q2 :: rest) ++ after)
    with (kw ++ ws1 ++ "="%char :: ws2 ++ q1 :: vendor ++ body
          ++ q2 :: (rest ++ after)).
  - now constructor.
  - rewrite <- !List.app_assoc. simpl. do 3 f_equal.
    rewrite <- !List.app_assoc. simpl. do 2 f_equal.
    now rewrite <- !List.app_assoc.
Qed.

(** X18. Code around a proposal does not hide a declaration: when the policy
    check rejects a text, it rejects every text that contains it. *)
Theorem validate_agent_model_usage_rejects_every_extension
    (before code_string after allowed_model : string) :
  validate_agent_model_usage code_string allowed_model = false ->
  validate_agent_model_usage (before +:+ code_string +:+ after)
    allowed_model = false.
Proof.
  intros Hv. apply validate_agent_model_usage_false in Hv
    as (literal & Hdecl & Hne).
  apply validate_agent_model_usage_false. exists literal.
  split; [|exact Hne]. rewrite !chars_app.
  now apply declares_model_embedded.
Qed.

Lemma validate_agent_model_usage_rejects_every_extension_witness :
  validate_agent_model_usage "model='claude-3'" "gpt-4o-mini" = false
  /\ validate_agent_model_usage
       ("llm = ChatOpenAI(" +:+ "model='claude-3'" +:+ ")  # model")
       "gpt-4o-mini" = false.
Proof.
  assert (Hv : validate_agent_model_usage "model='claude-3'" "gpt-4o-mini"
               = false) by (vm_compute; reflexivity).
  split; [exact Hv|].
  exact (validate_agent_model_usage_rejects_every_extension
           "llm = ChatOpenAI(" "model='claude-3'" ")  # model"
           "gpt-4o-mini" Hv).
Defined.


Lemma findall_from_none (m : matcher) s :
  (forall j, m (drop j s) = None) ->
  forall skip, findall_from m skip s = [].
Proof.
  induction s as [|c s IH]; intros Hm skip; simpl; [reflexivity|].
  assert (Hs : forall j, m (drop j s) = None)
    by (intros j; apply (Hm (S j))).
  destruct skip as [|k]; [|now apply IH].
  specialize (Hm 0). simpl in Hm. rewrite Hm. now apply IH.
Qed.

Lemma last_cons_Some {A} (x y : A) l :
  last l = Some y -> last (x :: l) = Some y.
Proof. destruct l; [discriminate | trivial]. Qed.

(** The last group [findall] returns is the group of the last match, when
    matches cannot overlap. *)
Lemma findall_from_last (m : matcher) :
  non_overlapping m -> m [] = None ->
  forall pre s g len skip,
    m s = Some (g, len) ->
    (forall j, 0 < j -> m (drop j s) = None) ->
    (forall j, j < skip -> m (drop j (pre ++ s)) = None) ->
    last (findall_from m skip (pre ++ s)) = Some g.
Proof.
  intros Hover Hnil pre s g len.
  induction pre as [|c pre IH]; intros skip Hm Hafter Hskip.
  - simpl in *. destruct skip as [|k].
    2: { specialize (Hskip 0 ltac:(lia)). rewrite drop_0 in Hskip.
         congruence. }
    destruct s as [|c t]; [congruence|].
    cbn [findall_from]. rewrite Hm.
    rewrite findall_from_none; [reflexivity|].
    intros j. apply (Hafter (S j)). lia.
  - simpl app. cbn [findall_from]. destruct skip as [|k].
    + destruct (m (c :: pre ++ s)) as [[g' len']|] eqn:Hhere.
      * apply last_cons_Some. apply IH; try assumption.
        intros j Hj. apply (Hover _ g' len' (S j) Hhere). lia.
      * apply IH; try assumption. intros j Hj. lia.
    + apply IH; try assumption. intros j Hj. apply (Hskip (S j)). lia.
Qed.

Lemma space_not_hash c : is_space c = true -> Ascii.eqb "#" c = false.
Proof. by_cases_on c. Qed.

Lemma num_not_hash c : is_num_char c = true -> Ascii.eqb "#" c = false.
Proof. by_cases_on c. Qed.

Lemma num_not_space c : is_num_char c = true -> is_space c = false.
Proof. by_cases_on c. Qed.

Lemma match_marker_after_hash body rest j :
  Forall (fun c => Ascii.eqb "#" c = false) body ->
  j < length body ->
  match_marker (drop j (body ++ rest)) = None.
Proof.
  intros Hb Hj. rewrite drop_app_le by lia.
  destruct (drop j body) as [|c t] eqn:Hdrop.
  { apply (f_equal length) in Hdrop. rewrite length_drop in Hdrop.
    simpl in Hdrop. lia. }
  simpl. apply match_marker_needs_hash.
  assert (Hin : c ∈ body).
  { rewrite <- (take_drop j body), Hdrop, elem_of_app. right. left. }
  exact (proj1 (Forall_forall _ _) Hb c Hin).
Qed.

(** No marker starts inside [####] followed by characters other than [#]. *)
Lemma match_marker_inside body rest j :
  body <> [] -> Forall (fun c => Ascii.eqb "#" c = false) body ->
  0 < j < 4 + length body ->
  match_marker (drop j (chars "####" ++ body ++ rest)) = None.
Proof.
  intros Hne Hb Hj.
  destruct body as [|b body]; [congruence|].
  pose proof (Forall_inv Hb) as Hb0.
  change (chars "####") with ["#"; "#"; "#"; "#"]%char.
  destruct j as [|[|[|[|j]]]]; [lia| | | |].
  1-3: cbn [drop app]; unfold match_marker;
       change (chars "####") with ["#"; "#"; "#"; "#"]%char;
       cbn [strip_prefix];
       change (Ascii.eqb "#" "#") with true; cbn iota;
       now rewrite Hb0.
  cbn [drop app]. change (b :: body ++ rest) with ((b :: body) ++ rest).
  apply match_marker_after_hash; [assumption|]. simpl in *. lia.
Qed.

Lemma match_marker_shape s g len :
  match_marker s = Some (g, len) ->
  exists ws rest,
    s = chars "####" ++ (ws ++ g) ++ rest
    /\ len = 4 + length (ws ++ g)
    /\ g <> []
    /\ Forall (fun c => is_space c = true) ws
    /\ Forall (fun c => is_num_char c = true) g.
Proof.
  unfold match_marker.
  destruct (strip_prefix (chars "####") s) as [r|] eqn:Hpre; [|intros [=]].
  destruct (span is_space r) as [ws r1] eqn:Hws.
  destruct (span is_num_char r1) as [a b] eqn:Hspan.
  destruct a as [|c a]; intros [= <- <-].
  exists ws, b.
  pose proof (span_all _ _ _ _ Hspan) as Hall.
  pose proof (span_all _ _ _ _ Hws) as Hsp.
  apply span_app in Hspan. apply span_app in Hws.
  apply strip_prefix_app in Hpre. subst s r r1.
  repeat split; try assumption; try discriminate.
  - now rewrite <- !List.app_assoc.
  - rewrite length_app. simpl. lia.
Qed.

Lemma match_marker_non_overlapping : non_overlapping match_marker.
Proof.
  intros s g len j Hm Hj.
  apply match_marker_shape in Hm
    as (ws & rest & -> & -> & Hne & Hws & Hg).
  apply match_marker_inside; [| |assumption].
  - destruct ws; [simpl; assumption | discriminate].
  - apply Forall_app. split.
    + eapply Forall_impl; [exact Hws|]. apply space_not_hash.
    + eapply Forall_impl; [exact Hg|]. apply num_not_hash.
Qed.

Lemma strip_prefix_self pre r : strip_prefix pre (pre ++ r) = Some r.
Proof.
  induction pre as [|p pre IH]; simpl; [reflexivity|].
  now rewrite (proj2 (Ascii.eqb_eq p p) eq_refl).
Qed.

Lemma match_marker_here ws g rest :
  Forall (fun c => is_space c = true) ws ->
  g <> [] -> Forall (fun c => is_num_char c = true) g ->
  match rest with [] => True | c :: _ => is_num_char c = false end ->
  match_marker (chars "####" ++ ws ++ g ++ rest)
  = Some (g, 4 + length ws + length g).
Proof.
  intros Hws Hne Hg Hrest. unfold match_marker.
  rewrite strip_prefix_self.
  rewrite (span_exact is_space ws (g ++ rest) Hws).
  2: { destruct g as [|c g]; [congruence|]. simpl.
       apply num_not_space. exact (Forall_inv Hg). }
  rewrite (span_exact is_num_char g rest Hg Hrest).
  destruct g; [congruence | reflexivity].
Qed.

Lemma chars_string_of_list s : string_of_list_ascii (chars s) = s.
Proof. apply string_of_list_ascii_of_string. Qed.

(** X19. The number behind the last [####] is the answer: what stands before
    that marker, other markers included, and the numbers that follow it do
    not count. *)
Theorem extract_final_answer_takes_the_last_marker
    (before spaces number after : string) :
  Forall (fun c => is_space c = true) (chars spaces) ->
  number <> "" ->
  Forall (fun c => is_num_char c = true) (chars number) ->
  match chars after with [] => True | c :: _ => is_num_char c = false end ->
  Forall (fun c => c <> "#"%char) (chars after) ->
  extract_final_answer
    (before +:+ "####" +:+ spaces +:+ number +:+ after)
  = string_of_list_ascii (normalize_match (chars number)).
Proof.
  intros Hws Hne Hg Hstop Hafter.
  unfold extract_final_answer. f_equal.
  rewrite !chars_app. unfold extract_final_answer_chars, findall.
  assert (Hg' : chars number <> []).
  { intros Hnil. apply Hne. rewrite <- (chars_string_of_list number), Hnil.
    reflexivity. }
  set (ws := chars spaces) in *. set (g := chars number) in *.
  set (rest := chars after) in *.
  rewrite (findall_from_last match_marker match_marker_non_overlapping
             eq_refl (chars before) (chars "####" ++ ws ++ g ++ rest)
             g (4 + length ws + length g) 0); [reflexivity| | |].
  - now apply match_marker_here.
  - intros j Hj.
    destruct (decide (j < 4 + length (ws ++ g ++ rest))) as [Hlt|Hge].
    + replace (chars "####" ++ ws ++ g ++ rest)
        with (chars "####" ++ (ws ++ g ++ rest) ++ [])
        by now rewrite app_nil_r.
      apply match_marker_inside; [| |lia].
      * destruct ws; [|discriminate]. destruct g; [congruence|discriminate].
      * rewrite !Forall_app. repeat split.
        -- eapply Forall_impl; [exact Hws|]. apply space_not_hash.
        -- eapply Forall_impl; [exact Hg|]. apply num_not_hash.
        -- eapply Forall_impl; [exact Hafter|]. intros c Hc.
           apply Ascii.eqb_neq. congruence.
    + rewrite drop_ge; [reflexivity|].
      rewrite length_app. change (length (chars "####")) with 4. lia.
  - intros j Hj. lia.
Qed.

Lemma extract_final_answer_takes_the_last_marker_witness :
  extract_final_answer
    ("#### 7 apples, then " +:+ "####" +:+ " " +:+ "1,250." +:+ " (not 3)")
  = "1250".
Proof.
  rewrite (extract_final_answer_takes_the_last_marker
             "#### 7 apples, then " " " "1,250." " (not 3)").
  - vm_compute. reflexivity.
  - vm_compute. repeat constructor.
  - discriminate.
  - vm_compute. repeat constructor.
  - vm_compute. reflexivity.
  - repeat constructor; discriminate.
Defined.


Lemma span_length_le p a x b :
  p x = false -> length (fst (span p (a ++ x :: b))) <= length a.
Proof.
  intros Hx. induction a as [|c a IH]; simpl.
  - rewrite Hx. simpl. lia.
  - destruct (p c); [|simpl; lia].
    destruct (span p (a ++ x :: b)) as [a' b']. simpl in *. lia.
Qed.

Lemma match_number_length s g len :
  match_number s = Some (g, len) -> len = length (fst (span is_num_char s)).
Proof.
  unfold match_number. destruct (span is_num_char s) as [a b].
  destruct a; intros [= <- <-]; reflexivity.
Qed.

Lemma match_number_needs_num c s :
  is_num_char c = false -> match_number (c :: s) = None.
Proof. intros H. unfold match_number. simpl. now rewrite H. Qed.

Lemma match_number_here g rest :
  g <> [] -> Forall (fun c => is_num_char c = true) g ->
  match rest with [] => True | c :: _ => is_num_char c = false end ->
  match_number (g ++ rest) = Some (g, length g).
Proof.
  intros Hne Hg Hrest. unfold match_number.
  rewrite (span_exact is_num_char g rest Hg Hrest).
  destruct g; [congruence | reflexivity].
Qed.

Lemma findall_from_skip_prefix (m : matcher) a r :
  findall_from m (length a) (a ++ r) = findall_from m 0 r.
Proof.
  induction a as [|c a IH]; simpl; [|exact IH].
  destruct r; reflexivity.
Qed.

(** The last group of [([0-9,.]+)] is the last run of such characters. *)
Lemma findall_number_last g rest :
  g <> [] -> Forall (fun c => is_num_char c = true) g ->
  Forall (fun c => is_num_char c = false) rest ->
  forall pre skip,
    (forall x, last pre = Some x -> is_num_char x = false) ->
    skip <= length pre ->
    last (findall_from match_number skip (pre ++ g ++ rest)) = Some g.
Proof.
  intros Hne Hg Hrest.
  induction pre as [|c pre IH]; intros skip Hlast Hskip.
  - simpl in *. assert (skip = 0) as -> by lia.
    destruct g as [|c g']; [congruence|].
    change ((c :: g') ++ rest) with (c :: g' ++ rest).
    cbn [findall_from].
    change (c :: g' ++ rest) with ((c :: g') ++ rest).
    rewrite match_number_here; [|assumption|assumption|].
    2: { destruct Hrest; [exact I | assumption]. }
    simpl Nat.pred. rewrite findall_from_skip_prefix.
    change (findall_from match_number 0 rest)
      with (findall match_number rest).
    rewrite (findall_no_start match_number
               (fun c => is_num_char c = false) rest); [reflexivity| |].
    + intros d s' Hd. now apply match_number_needs_num.
    + assumption.
  - assert (Hpre : forall x, last pre = Some x -> is_num_char x = false).
    { intros x Hx. apply Hlast. destruct pre; [discriminate | exact Hx]. }
    simpl app. cbn [findall_from]. destruct skip as [|k].
    + destruct (match_number (c :: pre ++ g ++ rest)) as [[g' len']|]
        eqn:Hhere.
      * apply last_cons_Some. apply IH; [assumption|].
        apply match_number_length in Hhere.
        destruct (last (c :: pre)) as [x|] eqn:Hx.
        2: { apply last_None in Hx. discriminate. }
        pose proof (Hlast x eq_refl) as Hnum.
        apply last_Some in Hx as [a Ha].
        change (c :: pre ++ g ++ rest) with ((c :: pre) ++ g ++ rest)
          in Hhere.
        rewrite Ha, <- List.app_assoc in Hhere. simpl in Hhere.
        pose proof (span_length_le is_num_char a x (g ++ rest) Hnum) as Hle.
        apply (f_equal length) in Ha. rewrite length_app in Ha.
        simpl in Ha. lia.
      * apply IH; [assumption | lia].
    + apply IH; [assumption | simpl in Hskip; lia].
Qed.

(** X20. Without a [####] marker the answer is the last number of the text. *)
Theorem extract_final_answer_falls_back_to_the_last_number
    (before number after : string) :
  Forall (fun c => c <> "#"%char) (chars before) ->
  (forall c, last (chars before) = Some c -> is_num_char c = false) ->
  number <> "" ->
  Forall (fun c => is_num_char c = true) (chars number) ->
  Forall (fun c => c <> "#"%char /\ is_num_char c = false) (chars after) ->
  extract_final_answer (before +:+ number +:+ after)
  = string_of_list_ascii (normalize_match (chars number)).
Proof.
  intros Hbefore Hlast Hne Hg Hafter.
  unfold extract_final_answer. f_equal.
  rewrite !chars_app. unfold extract_final_answer_chars.
  assert (Hg' : chars number <> []).
  { intros Hnil. apply Hne. rewrite <- (chars_string_of_list number), Hnil.
    reflexivity. }
  rewrite (findall_no_start match_marker (fun c => Ascii.eqb "#" c = false)).
  - simpl. unfold findall.
    rewrite (findall_number_last (chars number) (chars after));
      try assumption; [reflexivity | | lia].
    eapply Forall_impl; [exact Hafter|]. now intros c [_ ?].
  - intros c s' Hc. now apply match_marker_needs_hash.
  - rewrite !Forall_app. repeat split.
    + eapply Forall_impl; [exact Hbefore|]. intros c Hc.
      apply Ascii.eqb_neq. congruence.
    + eapply Forall_impl; [exact Hg|]. apply num_not_hash.
    + eapply Forall_impl; [exact Hafter|]. intros c [Hc _].
      apply Ascii.eqb_neq. congruence.
Qed.

Lemma extract_final_answer_falls_back_to_the_last_number_witness :
  extract_final_answer ("She pays 3 times, so $" +:+ "1,250.50" +:+ " in all")
  = "1250.50".
Proof.
  rewrite (extract_final_answer_falls_back_to_the_last_number
             "She pays 3 times, so $" "1,250.50" " in all").
  - vm_compute. reflexivity.
  - repeat constructor; discriminate.
  - vm_compute. intros c [= <-]. reflexivity.
  - discriminate.
  - vm_compute. repeat constructor.
  - repeat constructor; try discriminate.
Defined.

End AgentUtilsCoverage.

(** ** Code blocks in the answer of the language model *)

Module CleaningCoverage.
Import Text TextFacts AgentUtils AnswerFacts PolicyFacts Cleaning.
Import AgentUtilsCoverage.

Lemma space_not_backquote c : is_space c = true -> c <> backquote.
Proof. by_cases_on c. Qed.

Lemma starts_with_fence_head c s :
  c <> backquote -> starts_with fence (c :: s) = false.
Proof.
  intros Hc. unfold starts_with, fence. cbn [strip_prefix].
  destruct (Ascii.eqb backquote c) eqn:Heq; [|reflexivity].
  apply Ascii.eqb_eq in Heq. congruence.
Qed.

Lemma starts_with_self pre r : starts_with pre (pre ++ r) = true.
Proof.
  unfold starts_with. induction pre as [|p pre IH]; simpl; [reflexivity|].
  now rewrite (proj2 (Ascii.eqb_eq p p) eq_refl).
Qed.

Lemma strip_prefix_here pre r : strip_prefix pre (pre ++ r) = Some r.
Proof.
  induction pre as [|p pre IH]; simpl; [reflexivity|].
  now rewrite (proj2 (Ascii.eqb_eq p p) eq_refl).
Qed.

Lemma strip_prefix_head p pre c s :
  c <> p -> strip_prefix (p :: pre) (c :: s) = None.
Proof.
  intros Hc. cbn [strip_prefix].
  destruct (Ascii.eqb p c) eqn:Heq; [|reflexivity].
  apply Ascii.eqb_eq in Heq. congruence.
Qed.

(** The end of the pattern matches white space followed by a fence. *)
Lemma spaces_then_fence_here ws after :
  Forall (fun c => is_space c = true) ws ->
  spaces_then_fence (ws ++ fence ++ after) = true.
Proof.
  induction 1 as [|c ws Hc _ IH].
  - change (spaces_then_fence ([] ++ fence ++ after))
      with (if is_space backquote
            then spaces_then_fence (backquote :: backquote :: after)
                 || starts_with fence (fence ++ after)
            else starts_with fence (fence ++ after)).
    rewrite starts_with_self.
    destruct (is_space backquote); [apply orb_true_r | reflexivity].
  - rewrite <- app_comm_cons. cbn [spaces_then_fence]. rewrite Hc.
    now rewrite IH.
Qed.

(** It does not match in front of code that has no backquote. *)
Lemma spaces_then_fence_code code rest :
  code <> [] -> Forall (fun c => c <> backquote) code ->
  (forall c, last code = Some c -> is_space c = false) ->
  spaces_then_fence (code ++ rest) = false.
Proof.
  intros Hne Hcode. induction Hcode as [|c code Hc Hcode IH]; [congruence|].
  intros Hlast. rewrite <- app_comm_cons. cbn [spaces_then_fence].
  rewrite (starts_with_fence_head c _ Hc).
  destruct code as [|d code].
  - rewrite (Hlast c eq_refl). reflexivity.
  - rewrite IH; [now destruct (is_space c) | discriminate|].
    intros x Hx. now apply Hlast.
Qed.

Lemma lazy_group_code code ws after :
  code <> [] -> Forall (fun c => c <> backquote) code ->
  (forall c, last code = Some c -> is_space c = false) ->
  Forall (fun c => is_space c = true) ws ->
  lazy_group (code ++ ws ++ fence ++ after) = Some code.
Proof.
  intros Hne Hcode. induction Hcode as [|c code Hc Hcode IH]; [congruence|].
  intros Hlast Hws. rewrite <- app_comm_cons. cbn [lazy_group].
  destruct code as [|d code].
  - rewrite app_nil_l. now rewrite spaces_then_fence_here.
  - rewrite spaces_then_fence_code;
      [|discriminate|assumption|intros x Hx; now apply Hlast].
    rewrite IH; [reflexivity|discriminate| |assumption].
    intros x Hx. now apply Hlast.
Qed.

(** What follows the opening of a block that is closed: the code between
    the white space. *)
Lemma fenced_body_code ws1 code ws2 after :
  Forall (fun c => is_space c = true) ws1 ->
  code <> [] -> Forall (fun c => c <> backquote) code ->
  (forall c, head code = Some c -> is_space c = false) ->
  (forall c, last code = Some c -> is_space c = false) ->
  Forall (fun c => is_space c = true) ws2 ->
  fenced_body (ws1 ++ code ++ ws2 ++ fence ++ after) = Some code.
Proof.
  intros Hws1 Hne Hcode Hhead Hlast Hws2.
  induction Hws1 as [|c ws1 Hc _ IH].
  - rewrite app_nil_l. destruct code as [|c code]; [congruence|].
    rewrite <- app_comm_cons. cbn [fenced_body]. rewrite (Hhead c eq_refl).
    rewrite app_comm_cons. now apply lazy_group_code.
  - rewrite <- app_comm_cons. cbn [fenced_body]. now rewrite Hc, IH.
Qed.

(** No match of a pattern starts in front of its first backquote. *)
Lemma search_block_skip opening before s :
  Forall (fun c => c <> backquote) before ->
  search_block (backquote :: opening) (before ++ s)
  = search_block (backquote :: opening) s.
Proof.
  induction 1 as [|c before Hc _ IH]; [reflexivity|].
  rewrite <- app_comm_cons. cbn [search_block].
  now rewrite (strip_prefix_head backquote opening c _ Hc).
Qed.

Lemma search_block_here opening r g :
  fenced_body r = Some g ->
  search_block opening (opening ++ r) = Some g.
Proof.
  intros Hbody. destruct (opening ++ r) as [|c s] eqn:Hs.
  - cbn [search_block]. rewrite <- Hs, strip_prefix_here, Hbody. reflexivity.
  - cbn [search_block]. rewrite <- Hs, strip_prefix_here, Hbody. reflexivity.
Qed.

Lemma strip_fixed_ends s :
  strip s = s ->
  (forall c, head s = Some c -> is_space c = false)
  /\ (forall c, last s = Some c -> is_space c = false).
Proof.
  intros Hs. split.
  - assert (Hl : lstrip is_space s = s).
    { destruct (lstrip_suffix is_space s) as [k Hk].
      assert (Hlen : length (strip s) <= length (lstrip is_space s)).
      { unfold strip, rstrip. rewrite length_rev.
        destruct (lstrip_suffix is_space (rev (lstrip is_space s)))
          as [k' Hk'].
        apply (f_equal length) in Hk'.
        rewrite length_app, length_rev in Hk'. lia. }
      rewrite Hs in Hlen. pose proof (f_equal length Hk) as Hk'.
      rewrite length_app in Hk'.
      destruct k; [now rewrite Hk at 2 | simpl in Hk'; lia]. }
    intros c Hc. pose proof (lstrip_head is_space s) as Hh.
    rewrite Hl in Hh. destruct s; [discriminate|]. now injection Hc as <-.
  - intros c Hc. pose proof (rstrip_last is_space (lstrip is_space s)) as Hl.
    fold (strip s) in Hl. rewrite Hs, Hc in Hl. exact Hl.
Qed.

Lemma chars_not_nil s : s <> EmptyString -> chars s <> [].
Proof. destruct s; [congruence | discriminate]. Qed.

(** X21. A block opened by three backquotes and [python] and closed by three
    backquotes is extracted: the result is the code between them without the
    white space around it, whatever follows the block. *)
Theorem clean_generated_code_extracts_the_python_block
    (before spaces1 code spaces2 after : string) :
  Forall (fun c => c <> backquote) (chars before) ->
  Forall (fun c => is_space c = true) (chars spaces1) ->
  Forall (fun c => is_space c = true) (chars spaces2) ->
  code <> EmptyString ->
  Forall (fun c => c <> backquote) (chars code) ->
  strip (chars code) = chars code ->
  clean_generated_code
    (Some (before +:+ "```python" +:+ spaces1 +:+ code +:+ spaces2
           +:+ "```" +:+ after))
  = code.
Proof.
  intros Hbefore Hws1 Hws2 Hne Hcode Hstrip.
  destruct (strip_fixed_ends _ Hstrip) as [Hhead Hlast].
  unfold clean_generated_code. cbv zeta. rewrite !chars_app.
  change (chars "```python") with (backquote :: tail fence ++ chars "python").
  change (chars "```") with fence.
  change (fence ++ chars "python")
    with (backquote :: tail fence ++ chars "python").
  rewrite search_block_skip by assumption.
  rewrite (search_block_here _ _ (chars code)).
  - rewrite Hstrip. apply chars_string_of_list.
  - apply fenced_body_code; try assumption. now apply chars_not_nil.
Qed.

Lemma clean_generated_code_extracts_the_python_block_witness :
  clean_generated_code
    (Some ("Here is the agent:" +:+ "```python" +:+ " " +:+ "x = 1" +:+ " "
           +:+ "```" +:+ " and ```more```"))
  = "x = 1".
Proof.
  apply (clean_generated_code_extracts_the_python_block
           "Here is the agent:" " " "x = 1" " " " and ```more```").
  - repeat constructor; discriminate.
  - repeat constructor.
  - repeat constructor.
  - discriminate.
  - repeat constructor; discriminate.
  - vm_compute. reflexivity.
Defined.

(** A match of either pattern needs two fences. *)
Lemma spaces_then_fence_occurs s :
  spaces_then_fence s = true -> exists a b, s = a ++ fence ++ b.
Proof.
  assert (Hstart : forall t, starts_with fence t = true ->
                             exists a b, t = a ++ fence ++ b).
  { intros t Ht. unfold starts_with in Ht.
    destruct (strip_prefix fence t) as [r|] eqn:Hr; [|discriminate].
    apply strip_prefix_app in Hr. now exists [], r. }
  induction s as [|c s IH]; cbn [spaces_then_fence]; [apply Hstart|].
  destruct (is_space c); [|apply Hstart].
  intros H. apply orb_true_iff in H as [H|H]; [|now apply Hstart].
  destruct (IH H) as (a & b & ->). now exists (c :: a), b.
Qed.

Lemma lazy_group_occurs s g :
  lazy_group s = Some g -> exists a b, s = a ++ fence ++ b.
Proof.
  revert g. induction s as [|c s IH]; intros g; cbn [lazy_group];
    [discriminate|].
  destruct (spaces_then_fence s) eqn:Hend.
  - intros _. destruct (spaces_then_fence_occurs s Hend) as (a & b & ->).
    now exists (c :: a), b.
  - destruct (lazy_group s) as [g'|]; [|discriminate]. intros _.
    destruct (IH g' eq_refl) as (a & b & ->). now exists (c :: a), b.
Qed.

Lemma fenced_body_occurs s g :
  fenced_body s = Some g -> exists a b, s = a ++ fence ++ b.
Proof.
  revert g. induction s as [|c s IH]; intros g; cbn [fenced_body];
    [apply lazy_group_occurs|].
  destruct (is_space c); [|apply lazy_group_occurs].
  destruct (fenced_body s) as [g'|]; [|apply lazy_group_occurs].
  intros _. destruct (IH g' eq_refl) as (a & b & ->). now exists (c :: a), b.
Qed.

Lemma search_block_occurs opening s g :
  search_block opening s = Some g ->
  exists pre a b, s = pre ++ opening ++ a ++ fence ++ b.
Proof.
  assert (Hhere : forall t g,
             match strip_prefix opening t with
             | Some r => fenced_body r
             | None => None
             end = Some g ->
             exists pre a b, t = pre ++ opening ++ a ++ fence ++ b).
  { intros t g' Ht.
    destruct (strip_prefix opening t) as [r|] eqn:Hr; [|discriminate].
    apply strip_prefix_app in Hr.
    destruct (fenced_body_occurs r g' Ht) as (a & b & ->).
    now exists [], a, b. }
  induction s as [|c s IH]; cbn [search_block].
  - destruct (match strip_prefix opening [] with
              | Some r => fenced_body r
              | None => None
              end) as [g'|] eqn:Hm; [|discriminate].
    intros _. now apply (Hhere [] g').
  - destruct (match strip_prefix opening (c :: s) with
              | Some r => fenced_body r
              | None => None
              end) as [g'|] eqn:Hm.
    + intros _. now apply (Hhere (c :: s) g').
    + intros H. destruct (IH H) as (pre & a & b & ->).
      now exists (c :: pre), a, b.
Qed.

Lemma backquotes_app a b : backquotes (a ++ b) = backquotes a + backquotes b.
Proof. apply count_occ_app. Qed.

Lemma backquotes_none s :
  Forall (fun c => c <> backquote) s <-> backquotes s = 0.
Proof.
  unfold backquotes. rewrite <- count_occ_not_In, Forall_forall.
  split.
  - intros H Hin. apply (H backquote); [now apply list_elem_of_In | reflexivity].
  - intros H c Hc ->. apply H. now apply list_elem_of_In.
Qed.

Lemma search_block_backquotes opening s g :
  search_block (fence ++ opening) s = Some g ->
  exists pre a b,
    s = pre ++ (fence ++ opening) ++ a ++ fence ++ b
    /\ backquotes s
       = 6 + backquotes pre + backquotes opening + backquotes a
         + backquotes b.
Proof.
  intros H. destruct (search_block_occurs _ _ _ H) as (pre & a & b & ->).
  exists pre, a, b. split; [reflexivity|].
  rewrite !backquotes_app. change (backquotes fence) with 3. lia.
Qed.

(** X22. A text with fewer than six backquotes holds no block, and the
    result is the whole text without the white space around it: a fence
    that is not closed stays in the code. *)
Theorem clean_generated_code_keeps_a_text_without_a_closed_block
    (code_string : string) :
  backquotes (chars code_string) < 6 ->
  clean_generated_code (Some code_string)
  = string_of_list_ascii (strip (chars code_string)).
Proof.
  intros Hfew. unfold clean_generated_code. cbv zeta.
  destruct (search_block (fence ++ chars "python") (chars code_string))
    as [g|] eqn:Hpython.
  { apply search_block_backquotes in Hpython as (? & ? & ? & _ & Hn). lia. }
  destruct (search_block fence (chars code_string)) as [g|] eqn:Hbare.
  { rewrite <- (app_nil_r fence) in Hbare.
    apply search_block_backquotes in Hbare as (? & ? & ? & _ & Hn). lia. }
  now destruct (negb (occurs fence (chars code_string))).
Qed.

Lemma clean_generated_code_keeps_a_text_without_a_closed_block_witness :
  clean_generated_code (Some " ```python x = 1 ") = "```python x = 1".
Proof.
  rewrite (clean_generated_code_keeps_a_text_without_a_closed_block
             " ```python x = 1 ").
  - vm_compute. reflexivity.
  - vm_compute. lia.
Defined.

Lemma first_backquote_unique a b x y :
  Forall (fun c => c <> backquote) a ->
  Forall (fun c => c <> backquote) b ->
  a ++ backquote :: x = b ++ backquote :: y -> a = b /\ x = y.
Proof.
  intros Ha. revert b. induction Ha as [|c a Hc _ IH]; intros b Hb Heq.
  - destruct Hb as [|d b Hd _]; simpl in Heq.
    + now injection Heq as <-.
    + injection Heq as <- _. congruence.
  - destruct Hb as [|d b Hd Hb]; simpl in Heq.
    + injection Heq as -> _. congruence.
    + injection Heq as <- Heq. destruct (IH b Hb Heq) as [-> ->].
      now split.
Qed.

(** X23. A block between two fences of three backquotes, the first followed
    by white space, is extracted too: the result is the code between them
    without the white space around it. *)
Theorem clean_generated_code_extracts_the_bare_block
    (before spaces1 code spaces2 after : string) :
  Forall (fun c => c <> backquote) (chars before) ->
  spaces1 <> EmptyString ->
  Forall (fun c => is_space c = true) (chars spaces1) ->
  Forall (fun c => is_space c = true) (chars spaces2) ->
  code <> EmptyString ->
  Forall (fun c => c <> backquote) (chars code) ->
  strip (chars code) = chars code ->
  Forall (fun c => c <> backquote) (chars after) ->
  clean_generated_code
    (Some (before +:+ "```" +:+ spaces1 +:+ code +:+ spaces2
           +:+ "```" +:+ after))
  = code.
Proof.
  intros Hbefore Hne1 Hws1 Hws2 Hne Hcode Hstrip Hafter.
  destruct (strip_fixed_ends _ Hstrip) as [Hhead Hlast].
  unfold clean_generated_code. cbv zeta. rewrite !chars_app.
  change (chars "```") with fence.
  set (B := chars before) in *. set (W1 := chars spaces1) in *.
  set (C := chars code) in *. set (W2 := chars spaces2) in *.
  set (A := chars after) in *.
  assert (Hspace : forall ws, Forall (fun c => is_space c = true) ws ->
                              backquotes ws = 0).
  { intros ws Hws. apply backquotes_none.
    eapply Forall_impl; [exact Hws|]. apply space_not_backquote. }
  destruct (search_block (fence ++ chars "python")
              (B ++ fence ++ W1 ++ C ++ W2 ++ fence ++ A)) as [g|] eqn:Hpython.
  { exfalso.
    apply search_block_backquotes in Hpython
      as (pre & a & b & Heq & Hn).
    rewrite !backquotes_app in Hn. change (backquotes fence) with 3 in Hn.
    rewrite (proj1 (backquotes_none B) Hbefore) in Hn.
    rewrite (proj1 (backquotes_none C) Hcode) in Hn.
    rewrite (proj1 (backquotes_none A) Hafter) in Hn.
    rewrite (Hspace W1 Hws1), (Hspace W2 Hws2) in Hn.
    assert (Hpre : Forall (fun c => c <> backquote) pre)
      by (apply backquotes_none; lia).
    change (B ++ backquote :: (tail fence ++ W1 ++ C ++ W2 ++ fence ++ A)
            = pre ++ backquote
                  :: (tail fence ++ chars "python" ++ a ++ fence ++ b))
      in Heq.
    apply first_backquote_unique in Heq as [_ Heq]; [|assumption..].
    injection Heq as Heq.
    destruct W1 as [|w W1'] eqn:HW1.
    - apply Hne1. rewrite <- (chars_string_of_list spaces1).
      fold W1. now rewrite HW1.
    - injection Heq as -> _. now apply Forall_inv in Hws1. }
  change (search_block fence (B ++ fence ++ W1 ++ C ++ W2 ++ fence ++ A))
    with (search_block (backquote :: tail fence)
            (B ++ (backquote :: tail fence) ++ W1 ++ C ++ W2 ++ fence ++ A)).
  rewrite search_block_skip by assumption.
  rewrite (search_block_here _ _ C).
  - rewrite Hstrip. apply chars_string_of_list.
  - apply fenced_body_code; try assumption. now apply chars_not_nil.
Qed.

Lemma clean_generated_code_extracts_the_bare_block_witness :
  clean_generated_code
    (Some ("Code: " +:+ "```" +:+ " " +:+ "python_x = 1" +:+ " "
           +:+ "```" +:+ " done"))
  = "python_x = 1".
Proof.
  apply (clean_generated_code_extracts_the_bare_block
           "Code: " " " "python_x = 1" " " " done").
  - repeat constructor; discriminate.
  - discriminate.
  - repeat constructor.
  - repeat constructor.
  - discriminate.
  - repeat constructor; discriminate.
  - vm_compute. reflexivity.
  - repeat constructor; discriminate.
Defined.

End CleaningCoverage.

(** ** More on the harness, the loader and the draw *)

Module HarnessCoverage.
Import Text AgentUtils Model Evaluation EvaluationFacts.

Section Facts.
Context {Ext : Type}.
Local Abbreviation World := (World Ext).
Local Abbreviation AgentModule := (AgentModule Ext).


End Facts.

End HarnessCoverage.

Module LoaderCoverage.
Import Model Loader EvolutionLoop Examples LoopFacts.

Section Facts.
Context {Ext : Type}.
Local Abbreviation World := (World Ext).
Variable E : Env Ext.

(** X25. A load of a file whose code runs without an error and leaves
    [sys.path] and [sys.modules] alone returns the module, and afterwards
    the name of the module is not registered, also when it was before the
    call, and [sys.path] is as before the call, except that the directory of
    the file is removed when it was the first entry already: that entry the
    call did not add. *)
Theorem load_agent_from_file_of_quiet_code filepath module_name (w : World)
    attr w3 :
  spec_from_file_location E module_name (abspath E filepath) = true ->
  exec_module E (abspath E filepath) (prepared E filepath module_name w)
  = (ExecOk attr, w3) ->
  sys_path w3 = sys_path (prepared E filepath module_name w) ->
  sys_modules w3 = sys_modules (prepared E filepath module_name w) ->
  exists m w',
    load_agent_from_file E filepath module_name w = (Some m, w')
    /\ run_agent m = attr
    /\ sys_modules w' = delete module_name (sys_modules w)
    /\ sys_path w'
       = (if decide (head (sys_path w)
                     = Some (dirname E (abspath E filepath)))
          then tail (sys_path w) else sys_path w)
    /\ files w' = files w3.
Proof.
  intros Hspec Hexec Hpath Hmods.
  unfold load_agent_from_file. rewrite Hspec. simpl negb. cbv iota.
  fold (prepared E filepath module_name w). rewrite Hexec.
  set (module_dir := dirname E (abspath E filepath)) in *.
  assert (Hregistered : sys_modules w3 !! module_name = Some (next_ref w)).
  { rewrite Hmods. unfold prepared. fold module_dir.
    destruct (decide (module_dir ∈ _)); simpl; apply lookup_insert_eq. }
  assert (Hdeleted : delete module_name (sys_modules w3)
                     = delete module_name (sys_modules w)).
  { rewrite Hmods. unfold prepared. fold module_dir.
    destruct (decide (module_dir ∈ _)); simpl; apply delete_insert_eq. }
  assert (Hprepared : sys_path w3
                      = if decide (module_dir ∈ sys_path w)
                        then sys_path w else module_dir :: sys_path w).
  { rewrite Hpath. unfold prepared. fold module_dir. simpl.
    now destruct (decide (module_dir ∈ sys_path w)). }
  destruct (sys_path w3) as [|first others] eqn:Hw3.
  { exfalso. destruct (decide (module_dir ∈ sys_path w)) as [Hin|];
      [|discriminate].
    rewrite <- Hprepared in Hin. inversion Hin. }
  assert (Hfinal : forall w4 : World,
             sys_modules w4 = sys_modules w3 -> files w4 = files w3 ->
             exists m w',
               (Some {| mod_ref := next_ref w; run_agent := attr |},
                if decide (is_Some (sys_modules w4 !! module_name))
                then set_sys_modules (delete module_name (sys_modules w4)) w4
                else w4) = (Some m, w')
               /\ run_agent m = attr
               /\ sys_modules w' = delete module_name (sys_modules w)
               /\ sys_path w' = sys_path w4
               /\ files w' = files w3).
  { intros w4 Hm4 Hf4. eexists _, _. split; [reflexivity|].
    rewrite Hm4, Hregistered.
    destruct (decide (is_Some (Some (next_ref w)))) as [_|Hno];
      [|destruct Hno; now eexists].
    simpl. repeat split; assumption. }
  destruct (decide (first = module_dir)) as [->|Hfirst].
  - destruct (Hfinal (set_sys_path others w3) eq_refl eq_refl)
      as (m & w' & Heq & Hattr & Hmod & Hp & Hf).
    exists m, w'. split; [exact Heq|]. repeat split; try assumption.
    rewrite Hp. simpl.
    destruct (decide (module_dir ∈ sys_path w)) as [Hin|Hout].
    + rewrite <- Hprepared. simpl.
      now destruct (decide (Some module_dir = Some module_dir)).
    + injection Hprepared as ->.
      destruct (decide (head (sys_path w) = Some module_dir)) as [Hhead|];
        [|reflexivity].
      exfalso. apply Hout. destruct (sys_path w); [discriminate|].
      injection Hhead as ->. left.
  - destruct (Hfinal w3 eq_refl eq_refl)
      as (m & w' & Heq & Hattr & Hmod & Hp & Hf).
    exists m, w'. split; [exact Heq|]. repeat split; try assumption.
    rewrite Hp, Hw3.
    destruct (decide (module_dir ∈ sys_path w)) as [Hin|Hout];
      [|congruence].
    rewrite <- Hprepared. simpl.
    destruct (decide (Some first = Some module_dir)); [congruence|].
    reflexivity.
Qed.

End Facts.

Lemma load_agent_from_file_of_quiet_code_witness :
  exists m w',
    load_agent_from_file (env0 None) "agents/math_agent_v0.py" "v0"
      world_on_path = (Some m, w')
    /\ sys_modules w' = delete "v0" (sys_modules world_on_path)
    /\ sys_path w' = ["/usr/lib/python3"].
Proof.
  edestruct (load_agent_from_file_of_quiet_code (env0 None)
               "agents/math_agent_v0.py" "v0" world_on_path)
    as (m & w' & Hload & _ & Hmods & Hpath & _);
    [by_vm | by_vm | by_vm | by_vm |].
  exists m, w'. split; [exact Hload|]. split; [exact Hmods|].
  rewrite Hpath. vm_compute. reflexivity.
Defined.

End LoaderCoverage.

Module DrawCoverage.
Import Model EvolutionLoop SelectionFacts SelectionCoverage.

Local Open Scope R_scope.

Lemma np_sum_positive l :
  l <> [] -> Forall (fun x => 0 < x) l -> 0 < np_sum l.
Proof.
  intros Hne Hpos. destruct Hpos as [|x l Hx Hl]; [congruence|].
  rewrite np_sum_cons.
  assert (0 <= np_sum l); [|lra].
  apply np_sum_nonneg. eapply Forall_impl; [exact Hl|].
  simpl. intros; lra.
Qed.

(** X26. The weights of a set of records that is not empty never sum to
    zero, so the uniform fall-back of [select_parents] is not taken: the
    probability of each record is its weight over the sum of the weights,
    and it is positive, no record of the set is excluded from the draw. *)
Theorem select_parents_gives_every_record_a_chance sigmoid_lambda
    sigmoid_alpha0 (agents_in_set : list Agent) :
  agents_in_set <> [] ->
  let weights := map (weight sigmoid_lambda sigmoid_alpha0) agents_in_set in
  0 < np_sum weights
  /\ probabilities weights = map (fun w_i => w_i / np_sum weights) weights
  /\ Forall (fun p_i => 0 < p_i) (probabilities weights).
Proof.
  intros Hne weights.
  assert (Hpos : Forall (fun x => 0 < x) weights).
  { subst weights. apply Forall_forall. intros x Hx.
    apply list_elem_of_fmap in Hx as (agent & -> & _).
    apply weight_positive. }
  assert (Hsum : 0 < np_sum weights).
  { apply np_sum_positive; [|assumption]. subst weights.
    destruct agents_in_set; [congruence | discriminate]. }
  split; [assumption|].
  rewrite probabilities_weighted by lra. split; [reflexivity|].
  apply Forall_forall. intros p Hp.
  apply list_elem_of_fmap in Hp as (x & -> & Hx).
  apply Rdiv_lt_0_compat; [|assumption].
  exact (proj1 (Forall_forall _ _) Hpos x Hx).
Qed.

Lemma select_parents_gives_every_record_a_chance_witness :
  Forall (fun p_i => 0 < p_i)
    (probabilities
       (map (weight 30 (1 / 2))
          [ {| id := "v0"; path := "agents/math_agent_v0.py";
               score := 0 # 2; children_count := 1; parent_id := None |};
            {| id := "v1"; path := "agents/math_agent_v1.py";
               score := 1 # 2; children_count := 0;
               parent_id := Some "v0" |} ])).
Proof.
  apply (select_parents_gives_every_record_a_chance 30 (1 / 2)).
  discriminate.
Defined.

End DrawCoverage.

Module LimitCoverage.
Import Text AgentUtils Model Evaluation Loader EvolutionLoop LoopNotions.
Import Examples MoreExamples.

Section Facts.
Context {Ext : Type}.
Local Abbreviation World := (World Ext).
Local Abbreviation AgentModule := (AgentModule Ext).
Local Abbreviation LoopState := (LoopState Ext).
Variable E : Env Ext.
Variables (train_data validation_data : list Sample).
Variables (agent_folder task_model meta_model : string).
Variable dgm_params : DgmParams.

Local Abbreviation process_parent :=
  (process_parent E train_data validation_data agent_folder task_model
     meta_model dgm_params).
Local Abbreviation iteration :=
  (iteration E train_data validation_data agent_folder task_model
     meta_model dgm_params).
Local Abbreviation iterate :=
  (iterate E train_data validation_data agent_folder task_model
     meta_model dgm_params).

Lemma find_failures_on_train_without_limit
    (agent_module : option AgentModule) train_dataset max_failures
    (w : World) :
  (max_failures <= 0)%Z ->
  fst (fst (find_failures_on_train E agent_module train_dataset
              max_failures w)) = [].
Proof.
  intros Hmax. unfold find_failures_on_train.
  destruct agent_module as [m|]; [|reflexivity].
  destruct (run_agent m) as [agent_runner|]; [|reflexivity].
  destruct (shuffle E train_dataset w) as [shuffled w1].
  destruct shuffled as [|sample rest]; [reflexivity|].
  cbn [find_failures_loop length].
  assert (Hstop : (Z.of_nat 0 >=? max_failures)%Z = true)
    by (apply Z.geb_le; simpl; lia).
  now rewrite Hstop.
Qed.

Lemma set_world_twice (w w' : World) (st : LoopState) :
  set_world w' (set_world w st) = set_world w' st.
Proof. reflexivity. Qed.

Lemma process_parent_without_limit st p :
  (max_failures_per_child dgm_params <= 0)%Z ->
  exists w, process_parent st p = set_world w st.
Proof.
  intros Hmax. unfold EvolutionLoop.process_parent.
  destruct (archive st !! p) as [parent_agent|].
  2: { exists (world st). now destruct st. }
  destruct (load_agent_from_file E (path parent_agent) (id parent_agent)
              (world st)) as [[parent_module|] w1]; [|now exists w1].
  pose proof (find_failures_on_train_without_limit (Some parent_module)
                train_data (max_failures_per_child dgm_params) w1 Hmax)
    as Hnone.
  destruct (find_failures_on_train E (Some parent_module) train_data
              (max_failures_per_child dgm_params) w1)
    as [[failures successes] w2].
  simpl in Hnone. subst failures. now exists w2.
Qed.

Lemma parents_without_limit parents st :
  (max_failures_per_child dgm_params <= 0)%Z ->
  exists w, fold_left process_parent parents st = set_world w st.
Proof.
  intros Hmax. revert st.
  induction parents as [|p parents IH]; intros st; simpl.
  - exists (world st). now destruct st.
  - destruct (process_parent_without_limit st p Hmax) as [w ->].
    destruct (IH (set_world w st)) as [w' ->]. now exists w'.
Qed.

(** X27. With [max_failures_per_child] at zero or below the loop does not
    evolve: no failure of a parent is collected, so in every iteration each
    selected parent is skipped, the developer agent is never called, no
    identifier is used and the archive stays as it is. *)
Theorem no_failure_limit_no_evolution st num_iterations :
  (max_failures_per_child dgm_params <= 0)%Z ->
  archive (iterate num_iterations st) = archive st
  /\ agent_version_counter (iterate num_iterations st)
     = agent_version_counter st
  /\ developer_calls (iterate num_iterations st) = developer_calls st.
Proof.
  intros Hmax. revert st.
  induction num_iterations as [|n IH]; intros st; [now simpl|].
  cbn [EvolutionLoop.iterate].
  assert (Hiter : exists w, snd (iteration st) = set_world w st).
  { unfold EvolutionLoop.iteration.
    destruct (select_parents E (archive st) _ _ _ (world st))
      as [parents w1].
    destruct parents as [|p parents]; [now exists w1|].
    destruct (parents_without_limit (p :: parents) (set_world w1 st) Hmax)
      as [w ->]. now exists w. }
  destruct Hiter as [w Hw].
  destruct (iteration st) as [[|] st']; simpl in Hw; subst st'.
  - destruct (IH (set_world w st)) as (Ha & Hc & Hd). now rewrite Ha, Hc, Hd.
  - now simpl.
Qed.

End Facts.

Lemma no_failure_limit_no_evolution_witness :
  archive (iterate env_ok split1 split0 "agents" "gpt-4o-mini" "gpt-4o"
             params_idle 3 state_init)
  = archive state_init.
Proof.
  apply (no_failure_limit_no_evolution env_ok split1 split0 "agents"
           "gpt-4o-mini" "gpt-4o" params_idle state_init 3).
  simpl. lia.
Defined.

End LimitCoverage.
